(** * rpools: a small-object pool allocator

    Shallow embedding of the allocator engine of the repository:
    the raw memory the allocator works on, the dispatcher of
    [custom_new_delete.cpp] and its header-only predecessors in
    [custom_new_delete2.h], and the page pools [LinkedPool<T>] and
    [GlobalLinkedPool2].

    Pointers and [size_t] values are integers in [0, 2^64); memory is a
    finite map from byte addresses to bytes.  Locks are not modelled: every
    operation is taken as one sequential step. *)

From stdpp Require Import functions gmap list strings.
From Stdlib Require Import ZArith Lia.

Local Open Scope Z_scope.

Set Warnings "-clear-no-such-hyp".

(** ** [size_t] arithmetic *)

Definition SIZE_BITS : Z := 64.

(** Conversion of a mathematical integer to [size_t]. *)
Definition to_size_t (z : Z) : Z := z mod 2 ^ SIZE_BITS.

(** The size of a pointer, and the constants [__threshold], [__mod] and
    [__logOfVoid] every dispatcher variant declares in its anonymous
    namespace (an identifier cannot start with two underscores here). *)
Definition sizeof_voidp : Z := 8.
Definition threshold : Z := 128.
Definition mod_mask : Z := sizeof_voidp - 1.
Definition logOfVoid : Z := Z.log2 sizeof_voidp.

Lemma to_size_t_range z : 0 <= to_size_t z < 2 ^ SIZE_BITS.
Proof. unfold to_size_t. apply Z.mod_pos_bound. reflexivity. Qed.

Lemma to_size_t_small z : 0 <= z < 2 ^ SIZE_BITS -> to_size_t z = z.
Proof. intros H. unfold to_size_t. now apply Z.mod_small. Qed.

(** ** Raw memory *)

Module Mem.

(** One byte per address; an address never written reads as 0. *)
Definition load8 (m : gmap Z Z) (a : Z) : Z := default 0 (m !! a) mod 256.

Definition store8 (m : gmap Z Z) (a b : Z) : gmap Z Z := <[a := b mod 256]> m.

Fixpoint store_bytes (m : gmap Z Z) (a : Z) (l : list Z) : gmap Z Z :=
  match l with
  | [] => m
  | b :: t => store_bytes (store8 m a b) (a + 1) t
  end.

Fixpoint load_bytes (n : nat) (m : gmap Z Z) (a : Z) : list Z :=
  match n with
  | O => []
  | S k => load8 m a :: load_bytes k m (a + 1)
  end.

(** Little-endian layout of a machine word. *)
Fixpoint le_bytes (n : nat) (v : Z) : list Z :=
  match n with
  | O => []
  | S k => v mod 256 :: le_bytes k (v / 256)
  end.

Fixpoint le_val (l : list Z) : Z :=
  match l with
  | [] => 0
  | b :: t => b + 256 * le_val t
  end.

(** Reading and writing a pointer-sized word. *)
Definition load (m : gmap Z Z) (a : Z) : Z := le_val (load_bytes 8 m a).

Definition store (m : gmap Z Z) (a v : Z) : gmap Z Z :=
  store_bytes m a (le_bytes 8 v).

Lemma load8_range m a : 0 <= load8 m a < 256.
Proof. unfold load8. apply Z.mod_pos_bound. lia. Qed.

Lemma load8_store8_eq m a b : load8 (store8 m a b) a = b mod 256.
Proof.
  unfold load8, store8. rewrite lookup_insert_eq. simpl.
  apply Z.mod_mod. lia.
Qed.

Lemma load8_store8_ne m a a' b : a <> a' -> load8 (store8 m a b) a' = load8 m a'.
Proof.
  intros Hne. unfold load8, store8. now rewrite lookup_insert_ne.
Qed.

Lemma load8_store_bytes_out l : forall m a a',
  a' < a \/ a + Z.of_nat (length l) <= a' ->
  load8 (store_bytes m a l) a' = load8 m a'.
Proof.
  induction l as [|b t IH]; intros m a a' Hout; simpl; [reflexivity|].
  simpl in Hout. rewrite IH by lia. apply load8_store8_ne. lia.
Qed.

Lemma load_bytes_ext n : forall m m' a,
  (forall i, a <= i < a + Z.of_nat n -> load8 m' i = load8 m i) ->
  load_bytes n m' a = load_bytes n m a.
Proof.
  induction n as [|k IH]; intros m m' a Hag; simpl; [reflexivity|].
  f_equal.
  - apply Hag. lia.
  - apply IH. intros i Hi. apply Hag. lia.
Qed.

Lemma load_bytes_store_bytes l : forall m a,
  Forall (fun b => 0 <= b < 256) l ->
  load_bytes (length l) (store_bytes m a l) a = l.
Proof.
  induction l as [|b t IH]; intros m a Hb; simpl; [reflexivity|].
  inversion Hb as [|? ? Hb0 Hbt]; subst. f_equal.
  - rewrite load8_store_bytes_out by lia.
    rewrite load8_store8_eq. apply Z.mod_small. exact Hb0.
  - apply IH. exact Hbt.
Qed.

Lemma le_bytes_length n : forall v, length (le_bytes n v) = n.
Proof. induction n as [|k IH]; intros v; simpl; [reflexivity|]. now rewrite IH. Qed.

Lemma le_bytes_range n : forall v, Forall (fun b => 0 <= b < 256) (le_bytes n v).
Proof.
  induction n as [|k IH]; intros v; simpl; constructor.
  - apply Z.mod_pos_bound. lia.
  - apply IH.
Qed.

Lemma le_val_le_bytes n : forall v, le_val (le_bytes n v) = v mod 256 ^ Z.of_nat n.
Proof.
  induction n as [|k IH]; intros v.
  - simpl. now rewrite Z.mod_1_r.
  - cbn [le_bytes le_val]. rewrite IH.
    replace (Z.of_nat (S k)) with (Z.of_nat k + 1) by lia.
    rewrite Z.pow_add_r by lia. change (256 ^ 1) with 256.
    assert (Hp : 0 < 256 ^ Z.of_nat k) by (apply Z.pow_pos_nonneg; lia).
    rewrite (Z.mul_comm (256 ^ Z.of_nat k) 256).
    rewrite Z.rem_mul_r by lia. reflexivity.
Qed.

Lemma le_val_range l :
  Forall (fun b => 0 <= b < 256) l -> 0 <= le_val l < 256 ^ Z.of_nat (length l).
Proof.
  induction 1 as [|b t Hb Ht IH]; simpl length.
  - simpl. lia.
  - cbn [le_val]. replace (Z.of_nat (S (length t))) with (Z.of_nat (length t) + 1) by lia.
    rewrite Z.pow_add_r by lia. change (256 ^ 1) with 256. lia.
Qed.

Lemma load_bytes_range n : forall m a, Forall (fun b => 0 <= b < 256) (load_bytes n m a).
Proof.
  induction n as [|k IH]; intros m a; simpl; constructor.
  - apply load8_range.
  - apply IH.
Qed.

Lemma load_bytes_length n : forall m a, length (load_bytes n m a) = n.
Proof. induction n as [|k IH]; intros m a; simpl; [reflexivity|]. now rewrite IH. Qed.

Lemma load_range m a : 0 <= load m a < 2 ^ SIZE_BITS.
Proof.
  unfold load.
  pose proof (le_val_range _ (load_bytes_range 8 m a)) as H.
  rewrite load_bytes_length in H. exact H.
Qed.

Lemma load_store_eq m a v : load (store m a v) a = to_size_t v.
Proof.
  unfold load, store.
  pose proof (load_bytes_store_bytes (le_bytes 8 v) m a (le_bytes_range 8 v)) as H.
  rewrite le_bytes_length in H. rewrite H.
  apply (le_val_le_bytes 8).
Qed.

Lemma load8_store_out m a v a' :
  a' < a \/ a + 8 <= a' -> load8 (store m a v) a' = load8 m a'.
Proof.
  intros H. unfold store. apply load8_store_bytes_out.
  rewrite le_bytes_length. lia.
Qed.

Lemma load_store_ne m a v a' :
  a' + 8 <= a \/ a + 8 <= a' -> load (store m a v) a' = load m a'.
Proof.
  intros H. unfold load. f_equal. apply load_bytes_ext.
  intros i Hi. apply load8_store_out. lia.
Qed.

End Mem.

(** ** Page arithmetic shared by the pools *)

(** [POOL_MASK] as [GlobalLinkedPool2] computes it: the [int] [-1] shifted
    right then left by [log2(PAGE_SIZE)], converted to [size_t]. *)
Definition POOL_MASK (PAGE_SIZE : Z) : Z :=
  to_size_t (Z.shiftl (Z.shiftr (-1) (Z.log2 PAGE_SIZE)) (Z.log2 PAGE_SIZE)).

(** [getPoolHeader]: the address of the page a pointer lies in. *)
Definition getPoolHeader (PAGE_SIZE : Z) (t_ptr : Z) : Z :=
  Z.land t_ptr (POOL_MASK PAGE_SIZE).

(** Masking a pointer finds the page it lies in. *)
Lemma POOL_MASK_land k p :
  0 <= k -> 0 <= p < 2 ^ SIZE_BITS ->
  Z.land p (POOL_MASK (2 ^ k)) = Z.shiftl (Z.shiftr p k) k.
Proof.
  intros Hk Hp. unfold POOL_MASK, to_size_t, SIZE_BITS in *.
  rewrite Z.log2_pow2 by lia.
  apply Z.bits_inj'. intros n Hn.
  rewrite Z.land_spec.
  destruct (Z.lt_ge_cases n 64) as [Hlt|Hge].
  - rewrite Z.mod_pow2_bits_low by lia.
    destruct (Z.lt_ge_cases n k) as [Hnk|Hnk].
    + rewrite !Z.shiftl_spec_low by lia. apply andb_false_r.
    + rewrite !Z.shiftl_spec by lia. rewrite !Z.shiftr_spec by lia.
      rewrite Z.bits_m1 by lia. rewrite andb_true_r. f_equal. lia.
  - rewrite Z.mod_pow2_bits_high by lia. rewrite andb_false_r.
    assert (Hpn : Z.testbit p n = false).
    { rewrite <- (Z.mod_small p (2 ^ 64)) by lia.
      apply Z.mod_pow2_bits_high. lia. }
    destruct (Z.lt_ge_cases n k) as [Hnk|Hnk].
    + now rewrite Z.shiftl_spec_low by lia.
    + rewrite Z.shiftl_spec by lia. rewrite Z.shiftr_spec by lia.
      replace (n - k + k) with n by lia. now rewrite Hpn.
Qed.

Lemma getPoolHeader_page k b p :
  0 <= k -> 0 <= b -> b mod 2 ^ k = 0 -> b <= p < b + 2 ^ k -> p < 2 ^ SIZE_BITS ->
  getPoolHeader (2 ^ k) p = b.
Proof.
  intros Hk Hb Hal Hp Hr. unfold getPoolHeader.
  rewrite POOL_MASK_land by lia.
  rewrite Z.shiftl_mul_pow2, Z.shiftr_div_pow2 by lia.
  assert (H2 : 0 < 2 ^ k) by (apply Z.pow_pos_nonneg; lia).
  apply Z.mod_divide in Hal; [|lia]. destruct Hal as [q ->].
  replace (p / 2 ^ k) with q; [reflexivity|].
  apply Z.div_unique with (r := p - q * 2 ^ k); lia.
Qed.

(** Modelled from the spec: [mod] of pool_utils.hpp is not under src/; the
    spec words its use as [size % alignment].  ([mod] is a reserved word
    here, hence the underscore.) *)
Definition mod_ (a b : Z) : Z := a mod b.

(** Bytes of a string literal, without the terminating NUL. *)
Definition bytes_of_string (s : string) : list Z :=
  map (fun c => Z.of_nat (Ascii.nat_of_ascii c)) (String.list_ascii_of_string s).

(** [std::strcmp(a, lit) == 0] for a literal [lit] (given without its NUL):
    the verdict and the number of bytes of memory examined. *)
Fixpoint strcmp_lit (m : gmap Z Z) (a : Z) (lit : list Z) : bool * nat :=
  match lit with
  | [] => (Mem.load8 m a =? 0, 1%nat)
  | c :: t =>
      if Mem.load8 m a =? c
      then let '(r, n) := strcmp_lit m (a + 1) t in (r, S n)
      else (false, 1%nat)
  end.

(** ** The dispatcher of custom_new_delete.cpp *)

Module CustomNew.

(** [struct MallocHeader { char validity[16] = "              \0"; }] *)
Definition sizeof_MallocHeader : Z := 16.

Definition MallocHeader_validity : list Z :=
  bytes_of_string "              " ++ [0; 0].

(** The literal of the [strcpy] and [strcmp] calls, up to its first NUL. *)
Definition IsThIsMaLlOcD : list Z := bytes_of_string "IsThIsMaLlOcD!".

(** Calls that leave the dispatcher, with what the callee answered, and the
    dispatcher's own reads of memory. *)
Inductive event :=
| EvMalloc (n ret : Z)
| EvFree (a : Z)
| EvPoolAllocate (t_size ret : Z)
| EvPoolDeallocate (sizeOfSlot t_ptr : Z)
| EvRead (a : Z) (n : nat).

Record world := World { heap : gmap Z Z; log : list event }.

Definition emit (w : world) (e : event) : world :=
  World (heap w) (log w ++ [e]).

(** Result of the throwing entry point. *)
Inductive outcome :=
| Returned (p : Z)
| Threw_bad_alloc.

Section Dispatcher.

(** System page size, and the offset of [sizeOfSlot] inside [PoolHeaderG]
    (GlobalLinkedPool.hpp is not under src/). *)
Variable PAGE_SIZE : Z.
Variable off_sizeOfSlot : Z.

(** The size class a request of the small path is sent to (lines 39-49). *)
Definition small_size_class (t_size t_alignment : Z) : Z :=
  let remainder := Z.land t_size mod_mask in
  let t_size :=
    if remainder =? 0 then t_size
    else Z.land (to_size_t (t_size + mod_mask)) (to_size_t (Z.lnot mod_mask)) in
  to_size_t (t_size + (if mod_ t_size t_alignment =? 0 then 0 else sizeof_voidp)).

(** [ret] is what the callee answers: [std::malloc] on the large path, the
    pool's [allocate] on the small one. *)
Definition custom_new_no_throw (w : world) (t_size t_alignment : Z) (ret : Z)
  : world * Z :=
  if t_size >? threshold then
    let addr := ret in
    let w := emit w (EvMalloc (to_size_t (t_size + sizeof_MallocHeader)) addr) in
    (* new(addr) MallocHeader() *)
    let h := Mem.store_bytes (heap w) addr MallocHeader_validity in
    (* std::strcpy(header->validity, ...) *)
    let h := Mem.store_bytes h addr (IsThIsMaLlOcD ++ [0]) in
    (World h (log w), to_size_t (addr + sizeof_MallocHeader))
  else
    let t_size := small_size_class t_size t_alignment in
    let addr := ret in
    (emit w (EvPoolAllocate t_size addr), addr).

Definition custom_new (w : world) (t_size t_alignment : Z) (ret : Z)
  : world * outcome :=
  let '(w, toRet) := custom_new_no_throw w t_size t_alignment ret in
  if toRet =? 0 then (w, Threw_bad_alloc) else (w, Returned toRet).

Definition custom_delete (w : world) (t_ptr : Z) : world :=
  let cAddr := to_size_t (t_ptr - sizeof_MallocHeader) in
  let '(is_malloc, n) := strcmp_lit (heap w) cAddr IsThIsMaLlOcD in
  let w := emit w (EvRead cAddr n) in
  if is_malloc then emit w (EvFree cAddr)
  else
    let ph := getPoolHeader PAGE_SIZE t_ptr in
    let sizeOfSlot := Mem.load (heap w) (ph + off_sizeOfSlot) in
    let w := emit w (EvRead (ph + off_sizeOfSlot) 8) in
    emit w (EvPoolDeallocate sizeOfSlot t_ptr).

(** The replaced global operators (lines 100-130). *)
Definition operator_delete (w : world) (t_ptr : Z) : world :=
  if t_ptr =? 0 then w else custom_delete w t_ptr.

Definition operator_delete_nothrow (w : world) (t_ptr : Z) : world :=
  if t_ptr =? 0 then w else custom_delete w t_ptr.

Definition operator_delete_array (w : world) (t_ptr : Z) : world :=
  custom_delete w t_ptr.

Definition operator_delete_array_nothrow (w : world) (t_ptr : Z) : world :=
  custom_delete w t_ptr.

End Dispatcher.

(** Modelled from the spec: GlobalPools.cpp is not under src/.  The spec has
    the pool sets in an array indexed by [(slot_size / pointer_size) - 1];
    [getPools] builds it with [__threshold >> __logOfVoid] entries. *)
Definition numberOfPools : Z := Z.shiftr threshold logOfVoid.

Definition getPool_index (t_size : Z) : Z :=
  to_size_t (t_size / sizeof_voidp - 1).

End CustomNew.

(** ** One page: header, slots and the free list threaded through them

    What [LinkedPool<T>] and [GlobalLinkedPool2] have in common.  They differ
    in the header (field offsets, size, padding); a [layout] records those. *)

Module Page.

Record layout := Layout {
  page_size : Z;   (* bytes in one page *)
  occ_off : Z;     (* offset of the occupied-slots counter *)
  head_off : Z;    (* offset of [head.next] *)
  first_off : Z;   (* offset of the first slot *)
  slot_size : Z;
  capacity : Z
}.

Definition layout_ok (L : layout) : Prop :=
  0 <= occ_off L /\ 0 <= head_off L /\
  (occ_off L + 8 <= head_off L \/ head_off L + 8 <= occ_off L) /\
  occ_off L + 8 <= first_off L /\ head_off L + 8 <= first_off L /\
  8 <= slot_size L /\ 1 <= capacity L /\
  first_off L + capacity L * slot_size L <= page_size L.

(** What [aligned_alloc(PAGE_SIZE, PAGE_SIZE)] returns on success. *)
Definition good_page (L : layout) (b : Z) : Prop :=
  0 < b /\ b + page_size L <= 2 ^ SIZE_BITS /\ b mod page_size L = 0.

Definition slot (L : layout) (b i : Z) : Z := b + first_off L + i * slot_size L.

Definition is_slot (L : layout) (b p : Z) : Prop :=
  exists i, 0 <= i < capacity L /\ p = slot L b i.

(** The slots [i], [i+1], ... [i+n-1] of page [b]. *)
Definition slots_from (L : layout) (b i n : Z) : list Z := slot L b <$> seqZ i n.

(** The loop of the pool constructors: [n] times, clear the node at [first],
    step to the next slot and link the node to it. *)
Fixpoint link_slots (n : nat) (s : Z) (m : gmap Z Z) (first : Z) : gmap Z Z * Z :=
  match n with
  | O => (m, first)
  | S k =>
      let m := Mem.store m first 0 in
      let next := to_size_t (first + s) in
      let m := Mem.store m first next in
      link_slots k s m next
  end.

(** The nodes reachable from [p] through [next] are exactly [l], then null. *)
Fixpoint flist (m : gmap Z Z) (p : Z) (l : list Z) : Prop :=
  match l with
  | [] => p = 0
  | x :: t => p = x /\ x <> 0 /\ flist m (Mem.load m x) t
  end.

(** The same walk as a function, for at most [fuel] nodes. *)
Fixpoint walk (fuel : nat) (m : gmap Z Z) (p : Z) : list Z :=
  match fuel with
  | O => []
  | S k => if p =? 0 then [] else p :: walk k m (Mem.load m p)
  end.

(** The state of the page at [b]: its free list is [l]. *)
Definition page_inv (L : layout) (m : gmap Z Z) (b : Z) (l : list Z) : Prop :=
  flist m (Mem.load m (b + head_off L)) l /\
  NoDup l /\
  Forall (is_slot L b) l /\
  Mem.load m (b + occ_off L) + Z.of_nat (length l) = capacity L.

(** [m'] and [m] hold the same bytes in [lo, hi). *)
Definition same_on (m m' : gmap Z Z) (lo hi : Z) : Prop :=
  forall a, lo <= a < hi -> Mem.load8 m' a = Mem.load8 m a.

Lemma same_on_refl m lo hi : same_on m m lo hi.
Proof. intros a _. reflexivity. Qed.

Lemma same_on_trans m1 m2 m3 lo hi :
  same_on m1 m2 lo hi -> same_on m2 m3 lo hi -> same_on m1 m3 lo hi.
Proof. intros H12 H23 a Ha. rewrite H23, H12; auto. Qed.

Lemma same_on_store m x v lo hi :
  x + 8 <= lo \/ hi <= x -> same_on m (Mem.store m x v) lo hi.
Proof. intros Hd a Ha. apply Mem.load8_store_out. lia. Qed.

Lemma same_on_load m m' lo hi a :
  same_on m m' lo hi -> lo <= a -> a + 8 <= hi -> Mem.load m' a = Mem.load m a.
Proof.
  intros Hs Hlo Hhi. unfold Mem.load. f_equal. apply Mem.load_bytes_ext.
  intros i Hi. apply Hs. lia.
Qed.

Lemma flist_frame m m' l : forall p,
  (forall x, x ∈ l -> Mem.load m' x = Mem.load m x) ->
  flist m p l -> flist m' p l.
Proof.
  induction l as [|x t IH]; intros p Hag Hl; simpl in *; [exact Hl|].
  destruct Hl as (-> & Hx & Ht). repeat split; [exact Hx|].
  rewrite Hag by left. apply IH; [|exact Ht].
  intros y Hy. apply Hag. now right.
Qed.

Lemma flist_inj m l : forall p l', flist m p l -> flist m p l' -> l = l'.
Proof.
  induction l as [|x t IH]; intros p [|y t'] H H'; simpl in *.
  - reflexivity.
  - destruct H' as (-> & Hy & _). congruence.
  - destruct H as (-> & Hx & _). congruence.
  - destruct H as (-> & _ & Ht). destruct H' as (<- & _ & Ht').
    f_equal. eapply IH; eassumption.
Qed.

Lemma walk_flist m l : forall p fuel,
  flist m p l -> (length l <= fuel)%nat -> walk fuel m p = l.
Proof.
  induction l as [|x t IH]; intros p fuel H Hf; simpl in *.
  - subst p. destruct fuel; reflexivity.
  - destruct H as (-> & Hx & Ht). destruct fuel as [|k]; [lia|]. simpl.
    destruct (Z.eqb_spec x 0) as [E|_]; [contradiction|].
    f_equal. apply IH; [exact Ht|lia].
Qed.

Lemma link_slots_spec n : forall m first s m' last,
  8 <= s -> 0 <= first -> first + Z.of_nat n * s < 2 ^ SIZE_BITS ->
  link_slots n s m first = (m', last) ->
  last = first + Z.of_nat n * s /\
  (forall j, 0 <= j < Z.of_nat n -> Mem.load m' (first + j * s) = first + (j + 1) * s) /\
  (forall a, a < first \/ first + Z.of_nat n * s <= a -> Mem.load8 m' a = Mem.load8 m a).
Proof.
  induction n as [|k IH]; intros m first s m' last Hs Hf Hr Hrun.
  - simpl in Hrun. injection Hrun as <- <-. split; [lia|]. split; [lia|]. auto.
  - cbn [link_slots] in Hrun.
    assert (Hnext : to_size_t (first + s) = first + s) by (apply to_size_t_small; nia).
    rewrite Hnext in Hrun.
    apply IH in Hrun; [|lia|lia|nia].
    destruct Hrun as (-> & Hlinks & Hout).
    split; [lia|]. split.
    + intros j Hj. destruct (decide (j = 0)) as [->|Hj0].
      * replace (first + 0 * s) with first by lia.
        unfold Mem.load at 1.
        rewrite (Mem.load_bytes_ext 8 (Mem.store (Mem.store m first 0) first (first + s))).
        -- fold (Mem.load (Mem.store (Mem.store m first 0) first (first + s)) first).
           rewrite Mem.load_store_eq. rewrite to_size_t_small by nia. lia.
        -- intros i Hi. apply Hout. left. change (Z.of_nat 8) with 8 in Hi. lia.
      * replace (first + j * s) with (first + s + (j - 1) * s) by lia.
        rewrite Hlinks by lia. lia.
    + intros a Ha. rewrite Hout by nia.
      rewrite !Mem.load8_store_out by nia. reflexivity.
Qed.

Lemma slots_from_cons L b i n :
  0 < n -> slots_from L b i n = slot L b i :: slots_from L b (i + 1) (n - 1).
Proof. intros Hn. unfold slots_from. now rewrite seqZ_cons by lia. Qed.

Lemma slots_from_nil L b i n : n <= 0 -> slots_from L b i n = [].
Proof.
  intros Hn. unfold slots_from, seqZ.
  replace (Z.to_nat n) with O by lia. reflexivity.
Qed.

(** [m'] differs from [m] at most on the addresses in [R]. *)
Definition frame (R : Z -> Prop) (m m' : gmap Z Z) : Prop :=
  forall a, ~ R a -> Mem.load8 m' a = Mem.load8 m a.

Lemma frame_refl R m : frame R m m.
Proof. intros a _. reflexivity. Qed.

Lemma frame_trans R m1 m2 m3 : frame R m1 m2 -> frame R m2 m3 -> frame R m1 m3.
Proof. intros H12 H23 a Ha. rewrite H23, H12; auto. Qed.

Lemma frame_weaken (R R' : Z -> Prop) m m' :
  (forall a, R a -> R' a) -> frame R m m' -> frame R' m m'.
Proof. intros Hsub H a Ha. apply H. auto. Qed.

Lemma frame_store R m x v :
  (forall a, x <= a < x + 8 -> R a) -> frame R m (Mem.store m x v).
Proof.
  intros HR a Ha. apply Mem.load8_store_out.
  destruct (Z.lt_ge_cases a x); [lia|].
  destruct (Z.lt_ge_cases a (x + 8)); [|lia].
  exfalso. apply Ha, HR. lia.
Qed.

Lemma frame_store_bytes R m x l :
  (forall a, x <= a < x + Z.of_nat (length l) -> R a) ->
  frame R m (Mem.store_bytes m x l).
Proof.
  intros HR a Ha. apply Mem.load8_store_bytes_out.
  destruct (Z.lt_ge_cases a x); [lia|].
  destruct (Z.lt_ge_cases a (x + Z.of_nat (length l))); [|lia].
  exfalso. apply Ha, HR. lia.
Qed.

Lemma frame_load R m m' q :
  frame R m m' -> (forall a, q <= a < q + 8 -> ~ R a) ->
  Mem.load m' q = Mem.load m q.
Proof.
  intros H Hq. unfold Mem.load. f_equal. apply Mem.load_bytes_ext.
  intros i Hi. apply H, Hq. lia.
Qed.

Lemma frame_same_on R m m' lo hi :
  frame R m m' -> (forall a, lo <= a < hi -> ~ R a) -> same_on m m' lo hi.
Proof. intros H Hd a Ha. apply H, Hd, Ha. Qed.

Lemma link_slots_frame n m first s m' last :
  8 <= s -> 0 <= first -> first + Z.of_nat n * s < 2 ^ SIZE_BITS ->
  link_slots n s m first = (m', last) ->
  frame (fun a => first <= a < first + Z.of_nat n * s) m m'.
Proof.
  intros Hs Hf Hr Hrun a Ha.
  destruct (link_slots_spec n m first s m' last Hs Hf Hr Hrun) as (_ & _ & Hout).
  apply Hout. lia.
Qed.

Section Layout.

Variable L : layout.
Hypothesis HL : layout_ok L.

Lemma page_size_pos : 16 <= page_size L.
Proof. destruct HL as (? & ? & ? & ? & ? & ? & ? & ?). nia. Qed.

Lemma slot_bounds b p :
  is_slot L b p -> b + first_off L <= p /\ p + slot_size L <= b + page_size L.
Proof.
  destruct HL as (? & ? & ? & ? & ? & ? & ? & ?).
  intros (i & Hi & ->). unfold slot. split; nia.
Qed.

Lemma slot_inj b i j : slot L b i = slot L b j -> i = j.
Proof.
  destruct HL as (? & ? & ? & ? & ? & ? & ? & ?).
  unfold slot. intros E. nia.
Qed.

Lemma slot_apart b i j :
  i <> j -> slot L b i + 8 <= slot L b j \/ slot L b j + 8 <= slot L b i.
Proof.
  destruct HL as (? & ? & ? & ? & ? & ? & ? & ?).
  unfold slot. intros Hne. nia.
Qed.

Lemma is_slot_apart b p q :
  is_slot L b p -> is_slot L b q -> p <> q -> p + 8 <= q \/ q + 8 <= p.
Proof.
  intros (i & _ & ->) (j & _ & ->) Hne. apply slot_apart. congruence.
Qed.

(** Distinct pages do not overlap. *)
Lemma pages_apart b b' :
  good_page L b -> good_page L b' -> b <> b' ->
  b + page_size L <= b' \/ b' + page_size L <= b.
Proof.
  pose proof page_size_pos as HP.
  intros (_ & _ & Hb) (_ & _ & Hb') Hne.
  apply Z.mod_divide in Hb; [|lia]. apply Z.mod_divide in Hb'; [|lia].
  destruct Hb as [q ->]. destruct Hb' as [q' ->].
  assert (Hq : q < q' \/ q' < q) by (destruct (Z.lt_trichotomy q q') as [|[->|]]; tauto).
  destruct Hq; [left|right]; nia.
Qed.

Lemma is_slot_page b b' p :
  good_page L b -> good_page L b' -> is_slot L b p -> is_slot L b' p -> b = b'.
Proof.
  intros Hb Hb' Hp Hp'. destruct (decide (b = b')) as [|Hne]; [assumption|].
  apply slot_bounds in Hp. apply slot_bounds in Hp'.
  destruct HL as (? & ? & ? & ? & ? & ? & ? & ?).
  pose proof (pages_apart b b' Hb Hb' Hne). lia.
Qed.

(** A free list without repetition has at most [capacity] nodes. *)
Lemma slots_count b l :
  NoDup l -> Forall (is_slot L b) l -> Z.of_nat (length l) <= capacity L.
Proof.
  intros Hnd Hall.
  assert (Hsub : l ⊆+ slots_from L b 0 (capacity L)).
  { apply NoDup_submseteq; [exact Hnd|].
    intros x Hx. rewrite Forall_forall in Hall.
    destruct (Hall x Hx) as (i & Hi & ->).
    unfold slots_from. apply list_elem_of_fmap. exists i. split; [reflexivity|].
    apply elem_of_seqZ. lia. }
  apply submseteq_length in Hsub.
  unfold slots_from in Hsub. rewrite length_fmap, length_seqZ in Hsub.
  destruct HL as (? & ? & ? & ? & ? & ? & ? & ?). lia.
Qed.

Lemma page_inv_frame m m' b l :
  good_page L b ->
  same_on m m' b (b + page_size L) -> page_inv L m b l -> page_inv L m' b l.
Proof.
  destruct HL as (? & ? & ? & ? & ? & ? & ? & ?).
  intros Hb Hs (Hfl & Hnd & Hall & Hocc).
  assert (Hslot : forall x, x ∈ l -> Mem.load m' x = Mem.load m x).
  { intros x Hx. rewrite Forall_forall in Hall.
    pose proof (slot_bounds b x (Hall x Hx)).
    apply (same_on_load m m' b (b + page_size L)); [exact Hs|lia|lia]. }
  split; [|split; [|split]]; try assumption.
  - rewrite (same_on_load m m' b (b + page_size L)) by (auto; nia).
    now apply (flist_frame m m').
  - rewrite (same_on_load m m' b (b + page_size L)) by (auto; nia).
    exact Hocc.
Qed.

Lemma page_inv_pop m m' b x l :
  page_inv L m b (x :: l) ->
  Mem.load m' (b + head_off L) = Mem.load m x ->
  Mem.load m' (b + occ_off L) = Mem.load m (b + occ_off L) + 1 ->
  (forall q, q ∈ l -> Mem.load m' q = Mem.load m q) ->
  page_inv L m' b l.
Proof.
  intros (Hfl & Hnd & Hall & Hocc) Hhead Hcnt Hfr.
  simpl in Hfl. destruct Hfl as (_ & _ & Ht).
  apply NoDup_cons in Hnd as [_ Hnd]. apply Forall_cons in Hall as [_ Hall].
  split; [|split; [|split]]; try assumption.
  - rewrite Hhead. now apply (flist_frame m m').
  - rewrite Hcnt. simpl length in Hocc. lia.
Qed.

Lemma page_inv_push m m' b p l :
  page_inv L m b l -> is_slot L b p -> p ∉ l -> p <> 0 ->
  Mem.load m' (b + head_off L) = p ->
  Mem.load m' p = Mem.load m (b + head_off L) ->
  Mem.load m' (b + occ_off L) = Mem.load m (b + occ_off L) - 1 ->
  (forall q, q ∈ l -> Mem.load m' q = Mem.load m q) ->
  page_inv L m' b (p :: l).
Proof.
  intros (Hfl & Hnd & Hall & Hocc) Hp Hnotin Hp0 Hhead Hnext Hcnt Hfr.
  split; [|split; [|split]].
  - simpl. rewrite Hhead, Hnext. repeat split; [exact Hp0|].
    now apply (flist_frame m m').
  - now apply NoDup_cons.
  - now apply Forall_cons.
  - rewrite Hcnt. simpl length. lia.
Qed.

Lemma slot_pos b i : good_page L b -> 0 <= i -> 0 < slot L b i.
Proof.
  destruct HL as (? & ? & ? & ? & ? & ? & ? & ?).
  intros (Hb & _) Hi. unfold slot. nia.
Qed.

Lemma flist_slots m b (k : nat) : forall i,
  good_page L b -> 0 <= i ->
  (forall j, i <= j < i + Z.of_nat k -> Mem.load m (slot L b j) = slot L b (j + 1)) ->
  Mem.load m (slot L b (i + Z.of_nat k)) = 0 ->
  flist m (slot L b i) (slots_from L b i (Z.of_nat k + 1)).
Proof.
  induction k as [|k IH]; intros i Hb Hi Hlinks Hend.
  - change (Z.of_nat 0 + 1) with 1. unfold slots_from.
    rewrite seqZ_cons by lia. simpl. split; [reflexivity|]. split.
    + pose proof (slot_pos b i Hb Hi). lia.
    + replace (i + Z.of_nat 0) with i in Hend by lia. rewrite Hend.
      reflexivity.
  - unfold slots_from. rewrite seqZ_cons by lia. cbn [fmap list_fmap flist].
    split; [reflexivity|]. split.
    + pose proof (slot_pos b i Hb Hi). lia.
    + rewrite Hlinks by lia.
      replace (Z.pred (Z.of_nat (S k) + 1)) with (Z.of_nat k + 1) by lia.
      apply IH; [exact Hb|lia| |].
      * intros j Hj. apply Hlinks. lia.
      * replace (i + 1 + Z.of_nat k) with (i + Z.of_nat (S k)) by lia.
        exact Hend.
Qed.

Lemma slots_from_NoDup b i n : NoDup (slots_from L b i n).
Proof.
  unfold slots_from. apply NoDup_fmap_2; [|apply NoDup_seqZ].
  intros x y. apply slot_inj.
Qed.

Lemma slots_from_is_slot b i n :
  0 <= i -> i + n <= capacity L -> Forall (is_slot L b) (slots_from L b i n).
Proof.
  intros Hi Hn. apply Forall_forall. intros x Hx.
  unfold slots_from in Hx. apply list_elem_of_fmap in Hx as (j & -> & Hj).
  apply elem_of_seqZ in Hj. exists j. split; [lia|reflexivity].
Qed.

Lemma slots_from_length b i n : 0 <= n -> Z.of_nat (length (slots_from L b i n)) = n.
Proof. intros Hn. unfold slots_from. rewrite length_fmap, length_seqZ. lia. Qed.

(** *** A set of pages of one size class

    [A] are the pages obtained from the system and not yet given back, [fp]
    the pages registered as having a free slot, [fpool] the cached page,
    [live] the slots handed out, and [F b] the free list of page [b]. *)
Definition set_inv (F : Z -> list Z) (h : gmap Z Z) (A fp : gset Z)
    (fpool : Z) (live : gset Z) : Prop :=
  (forall b, b ∈ A ->
     good_page L b /\ page_inv L h b (F b) /\ (b ∈ fp <-> F b <> [])) /\
  fp ⊆ A /\
  (fpool = 0 \/ fpool ∈ fp) /\
  (forall p, p ∈ live <-> exists b, b ∈ A /\ is_slot L b p /\ p ∉ F b).

Lemma is_slot_slots_from b p : is_slot L b p -> p ∈ slots_from L b 0 (capacity L).
Proof.
  intros (i & Hi & ->). unfold slots_from. apply list_elem_of_fmap.
  exists i. split; [reflexivity|]. apply elem_of_seqZ. lia.
Qed.

Lemma other_page_same_on h h' b b0 :
  good_page L b -> good_page L b0 -> b0 <> b ->
  frame (fun a => b <= a < b + page_size L) h h' ->
  same_on h h' b0 (b0 + page_size L).
Proof.
  intros Hb Hb0 Hne Hfr. eapply frame_same_on; [exact Hfr|].
  intros a Ha. pose proof (pages_apart b0 b Hb0 Hb Hne). simpl. lia.
Qed.

Lemma set_inv_construct F h h' A fp fpool live b :
  set_inv F h A fp fpool live -> b ∉ A -> good_page L b ->
  frame (fun a => b <= a < b + page_size L) h h' ->
  page_inv L h' b (slots_from L b 0 (capacity L)) ->
  set_inv (<[b := slots_from L b 0 (capacity L)]> F) h'
          ({[b]} ∪ A) ({[b]} ∪ fp) b live.
Proof.
  intros (Hpages & Hsub & Hfpool & Hlive) HbA Hb Hfr Hnew.
  split; [|split; [|split]].
  - intros b0 Hb0. destruct (decide (b0 = b)) as [->|Hne].
    + rewrite fn_lookup_insert. split; [exact Hb|]. split; [exact Hnew|].
      split; [|set_solver]. intros _ E.
      pose proof (slots_from_length b 0 (capacity L)) as Hlen.
      rewrite E in Hlen. simpl in Hlen.
      destruct HL as (? & ? & ? & ? & ? & ? & ? & ?). lia.
    + rewrite fn_lookup_insert_ne by congruence.
      assert (Hb0A : b0 ∈ A) by set_solver.
      destruct (Hpages b0 Hb0A) as (Hg & Hinv & Hfp).
      split; [exact Hg|]. split.
      * eapply page_inv_frame; [exact Hg| |exact Hinv].
        now apply (other_page_same_on h h' b b0).
      * rewrite <- Hfp. set_solver.
  - set_solver.
  - right. set_solver.
  - intros p. rewrite Hlive. split.
    + intros (b0 & Hb0 & Hs & Hn). exists b0.
      assert (b0 <> b) by (intros ->; contradiction).
      rewrite fn_lookup_insert_ne by congruence. set_solver.
    + intros (b0 & Hb0 & Hs & Hn). destruct (decide (b0 = b)) as [->|Hne].
      * rewrite fn_lookup_insert in Hn. exfalso. apply Hn.
        now apply is_slot_slots_from.
      * rewrite fn_lookup_insert_ne in Hn by congruence.
        exists b0. set_solver.
Qed.

Lemma set_inv_pop F h h' A fp fp' fpool fpool' live b x l :
  set_inv F h A fp fpool live -> b ∈ A -> F b = x :: l ->
  frame (fun a => b <= a < b + first_off L) h h' ->
  Mem.load h' (b + head_off L) = Mem.load h x ->
  Mem.load h' (b + occ_off L) = Mem.load h (b + occ_off L) + 1 ->
  fp' = (if decide (Mem.load h' (b + occ_off L) = capacity L)
         then fp ∖ {[b]} else fp) ->
  (fpool' = 0 \/ fpool' ∈ fp') ->
  set_inv (<[b := l]> F) h' A fp' fpool' ({[x]} ∪ live) /\
  (x ∉ live) /\ is_slot L b x.
Proof.
  intros (Hpages & Hsub & Hfpool & Hlive) HbA HFb Hfr Hhead Hocc Hfp' Hfpool'.
  destruct (Hpages b HbA) as (Hb & Hinv & Hbfp). rewrite HFb in Hinv, Hbfp.
  assert (HLc := HL). destruct HLc as (? & ? & ? & ? & ? & ? & ? & ?).
  assert (Hxs : is_slot L b x).
  { destruct Hinv as (_ & _ & Hall & _). now apply Forall_cons in Hall as [? _]. }
  assert (Hxl : x ∉ l).
  { destruct Hinv as (_ & Hnd & _ & _). now apply NoDup_cons in Hnd as [? _]. }
  assert (Hinv' : page_inv L h' b l).
  { eapply page_inv_pop; [exact Hinv|exact Hhead|exact Hocc|].
    intros q Hq. eapply frame_load; [exact Hfr|].
    intros a Ha. simpl.
    destruct Hinv as (_ & _ & Hall & _). apply Forall_cons in Hall as [_ Hall].
    rewrite Forall_forall in Hall. pose proof (slot_bounds b q (Hall q Hq)). lia. }
  assert (Hfull : Mem.load h' (b + occ_off L) = capacity L <-> l = []).
  { destruct Hinv' as (_ & _ & _ & Hc). split.
    - intros E. destruct l; [reflexivity|]. simpl length in Hc. lia.
    - intros ->. simpl in Hc. lia. }
  assert (Hpage_fr : frame (fun a => b <= a < b + page_size L) h h').
  { eapply frame_weaken; [|exact Hfr]. simpl. intros a Ha. lia. }
  split; [|split; [|exact Hxs]].
  - split; [|split; [|split]].
    + intros b0 Hb0. destruct (decide (b0 = b)) as [->|Hne].
      * rewrite fn_lookup_insert. split; [exact Hb|]. split; [exact Hinv'|].
        subst fp'. destruct (decide _) as [E|E].
        -- apply Hfull in E. subst l. set_solver.
        -- split; [intros _ El; apply E, Hfull, El|].
           intros _. apply Hbfp. discriminate.
      * rewrite fn_lookup_insert_ne by congruence.
        destruct (Hpages b0 Hb0) as (Hg & Hinv0 & Hfp0).
        split; [exact Hg|]. split.
        -- eapply page_inv_frame; [exact Hg| |exact Hinv0].
           now apply (other_page_same_on h h' b b0).
        -- rewrite <- Hfp0. subst fp'. destruct (decide _); set_solver.
    + subst fp'. destruct (decide _); set_solver.
    + exact Hfpool'.
    + intros p. rewrite elem_of_union, elem_of_singleton, Hlive. split.
      * intros [->|(b0 & Hb0 & Hs & Hn)].
        -- exists b. rewrite fn_lookup_insert. auto.
        -- exists b0. destruct (decide (b0 = b)) as [->|Hne].
           ++ rewrite fn_lookup_insert. rewrite HFb in Hn. set_solver.
           ++ rewrite fn_lookup_insert_ne by congruence. auto.
      * intros (b0 & Hb0 & Hs & Hn). destruct (decide (b0 = b)) as [->|Hne].
        -- rewrite fn_lookup_insert in Hn.
           destruct (decide (p = x)) as [->|Hpx]; [now left|].
           right. exists b. rewrite HFb. set_solver.
        -- rewrite fn_lookup_insert_ne in Hn by congruence.
           right. exists b0. auto.
  - intros Hx. apply Hlive in Hx as (b0 & Hb0 & Hs & Hn).
    destruct (Hpages b0 Hb0) as (Hg & _ & _).
    assert (b0 = b) by (eapply is_slot_page; eassumption). subst b0.
    rewrite HFb in Hn. set_solver.
Qed.

Lemma set_inv_ext F F' h A fp fpool live :
  (forall b, F' b = F b) ->
  set_inv F h A fp fpool live -> set_inv F' h A fp fpool live.
Proof.
  intros HF (Hpages & Hsub & Hfpool & Hlive).
  split; [|split; [|split]]; try assumption.
  - intros b Hb. rewrite HF. auto.
  - intros p. rewrite Hlive. split; intros (b & Hb & Hs & Hn); exists b.
    + rewrite HF. auto.
    + rewrite HF in Hn. auto.
Qed.

Lemma set_inv_live_page F h A fp fpool live p :
  set_inv F h A fp fpool live -> p ∈ live ->
  exists b, b ∈ A /\ good_page L b /\ is_slot L b p /\ p ∉ F b.
Proof.
  intros (Hpages & _ & _ & Hlive) Hp.
  apply Hlive in Hp as (b & Hb & Hs & Hn). exists b.
  destruct (Hpages b Hb) as (Hg & _ & _). auto.
Qed.

(** A live slot of page [b] keeps the counter of [b] at 1 or more. *)
Lemma live_slot_occupied h b l p :
  page_inv L h b l -> is_slot L b p -> p ∉ l ->
  1 <= Mem.load h (b + occ_off L).
Proof.
  intros (_ & Hnd & Hall & Hocc) Hs Hn.
  assert (Hc : Z.of_nat (length (p :: l)) <= capacity L).
  { apply (slots_count b); [now apply NoDup_cons|now apply Forall_cons]. }
  simpl length in Hc. lia.
Qed.

(** With the counter at 1, the live slot is the only one of its page. *)
Lemma last_live_slot h b l p q :
  page_inv L h b l -> Mem.load h (b + occ_off L) = 1 ->
  is_slot L b p -> p ∉ l -> is_slot L b q -> q ∉ l -> q = p.
Proof.
  intros (_ & Hnd & Hall & Hocc) Hone Hp Hpl Hq Hql.
  destruct (decide (q = p)) as [|Hne]; [assumption|exfalso].
  assert (Hc : Z.of_nat (length (q :: p :: l)) <= capacity L).
  { apply (slots_count b).
    - apply NoDup_cons. split; [set_solver|]. now apply NoDup_cons.
    - repeat (apply Forall_cons; split; [assumption|]). exact Hall. }
  simpl length in Hc. lia.
Qed.

Lemma set_inv_push F h h' A fp fp' fpool live b p :
  set_inv F h A fp fpool live -> p ∈ live -> b ∈ A -> is_slot L b p ->
  frame (fun a => b <= a < b + first_off L \/ p <= a < p + 8) h h' ->
  Mem.load h' (b + head_off L) = p ->
  Mem.load h' p = Mem.load h (b + head_off L) ->
  Mem.load h' (b + occ_off L) = Mem.load h (b + occ_off L) - 1 ->
  fp' = (if decide (Mem.load h' (b + occ_off L) = capacity L - 1)
         then {[b]} ∪ fp else fp) ->
  set_inv (<[b := p :: F b]> F) h' A fp' b (live ∖ {[p]}).
Proof.
  intros Hinv Hp HbA Hps Hfr Hhead Hnext Hocc Hfp'.
  destruct (set_inv_live_page _ _ _ _ _ _ _ Hinv Hp) as (b1 & Hb1 & Hg1 & Hs1 & Hn1).
  destruct Hinv as (Hpages & Hsub & Hfpool & Hlive).
  destruct (Hpages b HbA) as (Hb & Hpinv & Hbfp).
  assert (b1 = b) by (eapply is_slot_page; eassumption). subst b1.
  assert (HLc := HL). destruct HLc as (? & ? & ? & ? & ? & ? & ? & ?).
  pose proof (slot_bounds b p Hps) as Hpb.
  assert (Hp0 : p <> 0) by (destruct Hb; lia).
  assert (Hinv' : page_inv L h' b (p :: F b)).
  { eapply page_inv_push; try eassumption.
    intros q Hq. eapply frame_load; [exact Hfr|].
    intros a Ha. simpl.
    destruct Hpinv as (_ & _ & Hall & _). rewrite Forall_forall in Hall.
    pose proof (slot_bounds b q (Hall q Hq)).
    assert (q <> p) by (intros ->; contradiction).
    pose proof (is_slot_apart b q p (Hall q Hq) Hps). lia. }
  assert (Hpage_fr : frame (fun a => b <= a < b + page_size L) h h').
  { eapply frame_weaken; [|exact Hfr]. simpl. intros a Ha. lia. }
  assert (Hbfp' : b ∈ fp').
  { subst fp'. destruct (decide _) as [E|E]; [set_solver|].
    apply Hbfp. intros El. apply E. rewrite Hocc.
    destruct Hpinv as (_ & _ & _ & Hc). rewrite El in Hc. simpl in Hc. lia. }
  split; [|split; [|split]].
  - intros b0 Hb0. destruct (decide (b0 = b)) as [->|Hne].
    + rewrite fn_lookup_insert. split; [exact Hb|]. split; [exact Hinv'|].
      split; [discriminate|auto].
    + rewrite fn_lookup_insert_ne by congruence.
      destruct (Hpages b0 Hb0) as (Hg & Hinv0 & Hfp0).
      split; [exact Hg|]. split.
      * eapply page_inv_frame; [exact Hg| |exact Hinv0].
        now apply (other_page_same_on h h' b b0).
      * rewrite <- Hfp0. subst fp'. destruct (decide _); set_solver.
  - subst fp'. destruct (decide _); set_solver.
  - right. exact Hbfp'.
  - intros q. rewrite elem_of_difference, elem_of_singleton, Hlive. split.
    + intros ((b0 & Hb0 & Hs & Hn) & Hqp). exists b0.
      destruct (decide (b0 = b)) as [->|Hne].
      * rewrite fn_lookup_insert. set_solver.
      * rewrite fn_lookup_insert_ne by congruence. auto.
    + intros (b0 & Hb0 & Hs & Hn). destruct (decide (b0 = b)) as [->|Hne].
      * rewrite fn_lookup_insert in Hn. split; [|set_solver].
        exists b. set_solver.
      * rewrite fn_lookup_insert_ne in Hn by congruence. split.
        -- exists b0. auto.
        -- intros ->. destruct (Hpages b0 Hb0) as (Hg & _ & _).
           apply Hne. eapply is_slot_page; eassumption.
Qed.

Lemma set_inv_release F h h' A fp fp' fpool fpool' live b p :
  set_inv F h A fp fpool live -> p ∈ live -> b ∈ A -> is_slot L b p ->
  Mem.load h (b + occ_off L) = 1 ->
  frame (fun a => b <= a < b + page_size L) h h' ->
  fp' = fp ∖ {[b]} ->
  (fpool' = 0 \/ fpool' ∈ fp') ->
  set_inv F h' (A ∖ {[b]}) fp' fpool' (live ∖ {[p]}) /\
  (forall q, q ∈ live ∖ {[p]} -> ~ is_slot L b q).
Proof.
  intros Hinv Hp HbA Hps Hone Hfr -> Hfpool'.
  destruct (set_inv_live_page _ _ _ _ _ _ _ Hinv Hp) as (b1 & Hb1 & Hg1 & Hs1 & Hn1).
  destruct Hinv as (Hpages & Hsub & Hfpool & Hlive).
  destruct (Hpages b HbA) as (Hb & Hpinv & Hbfp).
  assert (b1 = b) by (eapply is_slot_page; eassumption). subst b1.
  assert (Honly : forall q, q ∈ live -> is_slot L b q -> q = p).
  { intros q Hq Hqs. apply Hlive in Hq as (b0 & Hb0 & Hs0 & Hn0).
    destruct (Hpages b0 Hb0) as (Hg0 & _ & _).
    assert (b0 = b) by (eapply is_slot_page; eassumption). subst b0.
    eapply last_live_slot; eassumption. }
  split.
  - split; [|split; [|split]].
    + intros b0 Hb0. apply elem_of_difference in Hb0 as [Hb0 Hne].
      rewrite elem_of_singleton in Hne.
      destruct (Hpages b0 Hb0) as (Hg & Hinv0 & Hfp0).
      split; [exact Hg|]. split.
      * eapply page_inv_frame; [exact Hg| |exact Hinv0].
        now apply (other_page_same_on h h' b b0).
      * rewrite <- Hfp0. set_solver.
    + set_solver.
    + exact Hfpool'.
    + intros q. rewrite elem_of_difference, elem_of_singleton, Hlive. split.
      * intros ((b0 & Hb0 & Hs & Hn) & Hqp). exists b0.
        split; [|auto]. apply elem_of_difference. split; [exact Hb0|].
        rewrite elem_of_singleton. intros ->. apply Hqp.
        apply Honly; [|exact Hs]. apply Hlive. exists b. auto.
      * intros (b0 & Hb0 & Hs & Hn).
        apply elem_of_difference in Hb0 as [Hb0 Hne].
        rewrite elem_of_singleton in Hne. split.
        -- exists b0. auto.
        -- intros ->. destruct (Hpages b0 Hb0) as (Hg & _ & _).
           apply Hne. eapply is_slot_page; eassumption.
  - intros q Hq Hqs. apply elem_of_difference in Hq as [Hq Hqp].
    rewrite elem_of_singleton in Hqp. apply Hqp. now apply Honly.
Qed.

(** A page whose counter is 1 or more has a slot outside its free list. *)
Lemma occupied_slot_exists h b l :
  page_inv L h b l -> 1 <= Mem.load h (b + occ_off L) ->
  exists p, is_slot L b p /\ p ∉ l.
Proof.
  intros (_ & Hnd & Hall & Hocc) Hone.
  destruct (decide (Forall (fun x => x ∈ l) (slots_from L b 0 (capacity L))))
    as [Hin|Hnin].
  - exfalso.
    assert (Hsub : slots_from L b 0 (capacity L) ⊆+ l).
    { apply NoDup_submseteq; [apply slots_from_NoDup|].
      rewrite Forall_forall in Hin. exact Hin. }
    apply submseteq_length in Hsub.
    pose proof (slots_from_length b 0 (capacity L)) as Hlen.
    destruct HL as (? & ? & ? & ? & ? & ? & ? & ?). lia.
  - apply not_Forall_Exists in Hnin; [|intros x; apply _].
    apply Exists_exists in Hnin as (p & Hp & Hpl).
    exists p. split; [|exact Hpl].
    unfold slots_from in Hp. apply list_elem_of_fmap in Hp as (i & -> & Hi).
    apply elem_of_seqZ in Hi. exists i. split; [lia|reflexivity].
Qed.

Lemma set_inv_occupied F h A fp fpool live b :
  set_inv F h A fp fpool live -> b ∈ A ->
  Mem.load h (b + occ_off L) = capacity L - Z.of_nat (length (F b)).
Proof.
  intros (Hpages & _) Hb. destruct (Hpages b Hb) as (_ & (_ & _ & _ & Hocc) & _). lia.
Qed.

(** With every page holding a live slot, no live slot means no page. *)
Lemma set_inv_no_leak F h A fp fpool :
  set_inv F h A fp fpool ∅ ->
  (forall b, b ∈ A -> 1 <= Mem.load h (b + occ_off L)) ->
  A = ∅ /\ fp = ∅ /\ fpool = 0.
Proof.
  intros Hinv Hocc.
  assert (HA : A = ∅).
  { apply leibniz_equiv. apply elem_of_equiv_empty. intros b Hb.
    destruct Hinv as (Hpages & _ & _ & Hlive).
    destruct (Hpages b Hb) as (_ & Hpinv & _).
    destruct (occupied_slot_exists _ _ _ Hpinv (Hocc b Hb)) as (p & Hps & Hpl).
    assert (Hp : p ∈ (∅ : gset Z)) by (apply Hlive; exists b; auto).
    revert Hp. apply not_elem_of_empty. }
  destruct Hinv as (_ & Hsub & Hfpool & _). subst A.
  assert (Hfp : fp = ∅).
  { apply leibniz_equiv. apply elem_of_equiv_empty. intros b Hb.
    apply Hsub in Hb. revert Hb. apply not_elem_of_empty. }
  split; [reflexivity|]. split; [exact Hfp|].
  destruct Hfpool as [|Hin]; [assumption|].
  rewrite Hfp in Hin. exfalso. revert Hin. apply not_elem_of_empty.
Qed.

End Layout.

End Page.

(** ** Ordered sets of page addresses

    [std::set<Pool>] in [GlobalLinkedPool2] and the AVL tree of avl_utils.h in
    [LinkedPool<T>]; both are read only through their least element. *)

Definition set_begin (s : gset Z) : Z :=
  match elements s with
  | [] => 0
  | x :: l => foldr Z.min x l
  end.

Lemma foldr_min_elem x l : foldr Z.min x l ∈ x :: l.
Proof.
  induction l as [|y l IH]; simpl; [left|].
  destruct (Z.min_spec y (foldr Z.min x l)) as [[_ ->]|[_ ->]].
  - right. left.
  - apply elem_of_cons in IH as [->|IH]; [left|right; now right].
Qed.

Lemma set_begin_elem (s : gset Z) : s <> ∅ -> set_begin s ∈ s.
Proof.
  intros Hne. unfold set_begin. destruct (elements s) as [|x l] eqn:E.
  - apply elements_empty_inv in E. apply leibniz_equiv in E. contradiction.
  - apply elem_of_elements. rewrite E. apply foldr_min_elem.
Qed.

Lemma set_begin_or_null (s : gset Z) : set_begin s = 0 \/ set_begin s ∈ s.
Proof.
  destruct (decide (s = ∅)) as [->|Hne]; [left; reflexivity|].
  right. now apply set_begin_elem.
Qed.

(** ** [LinkedPool<T>] (rpools/allocators/LinkedPool.hpp) *)

Module LinkedPool.

Definition sizeof_Node : Z := 8.

(** [struct PoolHeader { size_t occupiedSlots; Node head; }] *)
Definition sizeof_PoolHeader : Z := 16.
Definition off_occupiedSlots : Z := 0.
Definition off_head : Z := 8.

Record LinkedPool := mkLinkedPool {
  m_freePools : gset Z;
  m_headerPadding : Z;
  m_slotSize : Z;
  m_poolSize : Z;
  m_freePool : Z
}.

(** The pool object together with the memory it works on and the pages the
    system allocator has handed out ([aligned_alloc]) and not got back
    ([free]). *)
Record machine := Machine {
  heap : gmap Z Z;
  allocated : gset Z;
  this : LinkedPool
}.

(** Modelled from the spec: avl_utils.h is not under src/.  The spec has the
    non-full pools in a set ordered by address, read through its
    minimum-address element; [pool_first] of an empty tree is null. *)
Definition pool_first (t : gset Z) : Z := set_begin t.
Definition pool_insert (t : gset Z) (p : Z) : gset Z := {[p]} ∪ t.
Definition pool_remove (t : gset Z) (p : Z) : gset Z := t ∖ {[p]}.
Definition pool_count (t : gset Z) : Z := Z.of_nat (size t).

Definition set_pools (lp : LinkedPool) (fp : gset Z) (fpool : Z) : LinkedPool :=
  mkLinkedPool fp (m_headerPadding lp) (m_slotSize lp) (m_poolSize lp) fpool.

Section Pool.

(** [getPageSize()]; [getPoolMask()] is [POOL_MASK PAGE_SIZE]. *)
Variable PAGE_SIZE : Z.

(** [LinkedPool<T>::LinkedPool()], for [T] with the given [sizeof] and
    [alignof]. *)
Definition new_LinkedPool (sizeofT alignofT : Z) : LinkedPool :=
  let m_headerPadding := 0 in
  let m_slotSize := if sizeofT <? sizeof_Node then sizeof_Node else sizeofT in
  (* make sure the first slot starts at a proper alignment *)
  let diff := mod_ sizeof_PoolHeader alignofT in
  let m_headerPadding :=
    if diff =? 0 then m_headerPadding
    else to_size_t (m_headerPadding + to_size_t (alignofT - diff)) in
  (* make sure that slots are properly aligned *)
  let diff := mod_ m_slotSize alignofT in
  let m_slotSize :=
    if diff =? 0 then m_slotSize
    else to_size_t (m_slotSize + to_size_t (alignofT - diff)) in
  let m_poolSize := to_size_t (PAGE_SIZE - sizeof_PoolHeader) / m_slotSize in
  mkLinkedPool ∅ m_headerPadding m_slotSize m_poolSize 0.

Definition constructPoolHeader (lp : LinkedPool) (h : gmap Z Z) (t_ptr : Z)
  : gmap Z Z :=
  (* new (t_ptr) PoolHeader() *)
  let header := t_ptr in
  let h := Mem.store h (header + off_occupiedSlots) 0 in
  let h := Mem.store h (header + off_head) 0 in
  let first := to_size_t (header + sizeof_PoolHeader) in
  let first := to_size_t (first + m_headerPadding lp) in
  let h := Mem.store h (header + off_head) first in
  let '(h, first) :=
    Page.link_slots (Z.to_nat (to_size_t (m_poolSize lp - 1)))
                    (m_slotSize lp) h first in
  (* new (first) Node() *)
  Mem.store h first 0.

Definition nextFree (st : machine) (t_ptr : Z) : machine * Z :=
  let lp := this st in
  let header := t_ptr in
  let toReturn := Mem.load (heap st) (header + off_head) in
  if toReturn =? 0 then (st, toReturn)
  else
    (* head.next = head.next->next *)
    let h := Mem.store (heap st) (header + off_head) (Mem.load (heap st) toReturn) in
    (* ++(header->occupiedSlots) *)
    let occ := to_size_t (Mem.load h (header + off_occupiedSlots) + 1) in
    let h := Mem.store h (header + off_occupiedSlots) occ in
    if occ =? m_poolSize lp then
      let fp := pool_remove (m_freePools lp) t_ptr in
      (Machine h (allocated st) (set_pools lp fp (pool_first fp)), toReturn)
    else
      (Machine h (allocated st) lp, toReturn).

(** [fresh] is the page [aligned_alloc] returns if it is called. *)
Definition allocate (st : machine) (fresh : Z) : machine * Z :=
  let lp := this st in
  if negb (m_freePool lp =? 0) then nextFree st (m_freePool lp)
  else
    let pool := pool_first (m_freePools lp) in
    if negb (pool =? 0) then nextFree st pool
    else
      let pool := fresh in
      let h := constructPoolHeader lp (heap st) pool in
      let fp := pool_insert (m_freePools lp) pool in
      nextFree (Machine h ({[pool]} ∪ allocated st) (set_pools lp fp pool)) pool.

Definition deallocate (st : machine) (t_ptr : Z) : machine :=
  let lp := this st in
  let pool := Z.land t_ptr (POOL_MASK PAGE_SIZE) in
  if Mem.load (heap st) (pool + off_occupiedSlots) =? 1 then
    (* the last slot was deallocated => free the page *)
    let fp := pool_remove (m_freePools lp) pool in
    Machine (heap st) (allocated st ∖ {[pool]}) (set_pools lp fp (pool_first fp))
  else
    (* new (t_ptr) Node() *)
    let h := Mem.store (heap st) t_ptr 0 in
    (* newNodeG->next = head.next; head.next = newNodeG *)
    let h := Mem.store h t_ptr (Mem.load h (pool + off_head)) in
    let h := Mem.store h (pool + off_head) t_ptr in
    (* --pool->occupiedSlots *)
    let occ := to_size_t (Mem.load h (pool + off_occupiedSlots) - 1) in
    let h := Mem.store h (pool + off_occupiedSlots) occ in
    let fp :=
      if occ =? to_size_t (m_poolSize lp - 1)
      then pool_insert (m_freePools lp) pool
      else m_freePools lp in
    Machine h (allocated st) (set_pools lp fp pool).

(** A freshly constructed pool, on a memory [h]. *)
Definition init (h : gmap Z Z) (sizeofT alignofT : Z) : machine :=
  Machine h ∅ (new_LinkedPool sizeofT alignofT).

(** Calls made by a client. *)
Inductive op :=
| Allocate (fresh : Z)
| Deallocate (t_ptr : Z).

Definition step (st : machine) (o : op) : machine * list Z :=
  match o with
  | Allocate fresh => let '(st, p) := allocate st fresh in (st, [p])
  | Deallocate t_ptr => (deallocate st t_ptr, [])
  end.

(** Runs the calls in order; the pointers returned, in order. *)
Fixpoint run (st : machine) (ops : list op) : machine * list Z :=
  match ops with
  | [] => (st, [])
  | o :: ops =>
      let '(st, ps) := step st o in
      let '(st, qs) := run st ops in
      (st, ps ++ qs)
  end.

(** The layout of the pages of a pool. *)
Definition layout_of (lp : LinkedPool) : Page.layout :=
  Page.Layout PAGE_SIZE off_occupiedSlots off_head
              (sizeof_PoolHeader + m_headerPadding lp)
              (m_slotSize lp) (m_poolSize lp).

(** [allocate] calls [aligned_alloc] when there is neither a cached pool nor
    a pool registered as having a free slot. *)
Definition needs_page (st : machine) : Prop :=
  m_freePool (this st) = 0 /\ pool_first (m_freePools (this st)) = 0.

(** What clients and the system may do: the system answers [aligned_alloc]
    with a page it has not handed out, and a client deallocates only a slot
    it holds.  [exec st live ops st' live' ps]: from [st], with the slots
    [live] handed out, the calls [ops] lead to [st'] and [live'] and return
    the slots [ps]. *)
Inductive exec : machine -> gset Z -> list op -> machine -> gset Z -> list Z -> Prop :=
| exec_nil st live : exec st live [] st live []
| exec_alloc st live fresh st1 p ops st' live' ps :
    (needs_page st ->
     Page.good_page (layout_of (this st)) fresh /\ fresh ∉ allocated st) ->
    allocate st fresh = (st1, p) ->
    exec st1 ({[p]} ∪ live) ops st' live' ps ->
    exec st live (Allocate fresh :: ops) st' live' (p :: ps)
| exec_dealloc st live t_ptr ops st' live' ps :
    t_ptr ∈ live ->
    exec (deallocate st t_ptr) (live ∖ {[t_ptr]}) ops st' live' ps ->
    exec st live (Deallocate t_ptr :: ops) st' live' ps.

End Pool.

(** *** Correctness of the operations *)

Section Proofs.

Variable PAGE_SIZE : Z.
Variable lg : Z.
Hypothesis Hlg : 0 <= lg.
Hypothesis HPAGE : PAGE_SIZE = 2 ^ lg.

Lemma layout_of_set_pools lp fp fpool :
  layout_of PAGE_SIZE (set_pools lp fp fpool) = layout_of PAGE_SIZE lp.
Proof. reflexivity. Qed.

Ltac offsets :=
  cbn [Page.occ_off Page.head_off Page.first_off Page.slot_size Page.capacity
       Page.page_size layout_of] in *;
  unfold off_head, off_occupiedSlots, sizeof_PoolHeader, sizeof_Node in *.

Lemma capacity_small lp b :
  Page.layout_ok (layout_of PAGE_SIZE lp) -> Page.good_page (layout_of PAGE_SIZE lp) b ->
  m_poolSize lp < 2 ^ SIZE_BITS.
Proof.
  intros (? & ? & ? & ? & ? & ? & ? & ?) (? & ? & ?). offsets. nia.
Qed.

Lemma nextFree_spec st F live b :
  let L := layout_of PAGE_SIZE (this st) in
  Page.layout_ok L ->
  Page.set_inv L F (heap st) (allocated st) (m_freePools (this st))
               (m_freePool (this st)) live ->
  b ∈ m_freePools (this st) ->
  exists x l st',
    nextFree st b = (st', x) /\ F b = x :: l /\
    this st' = set_pools (this st) (m_freePools (this st')) (m_freePool (this st')) /\
    m_freePools (this st') =
      (if decide (l = []) then m_freePools (this st) ∖ {[b]} else m_freePools (this st)) /\
    m_freePool (this st') =
      (if decide (l = []) then pool_first (m_freePools (this st) ∖ {[b]})
       else m_freePool (this st)) /\
    allocated st' = allocated st /\
    Page.set_inv L (<[b := l]> F) (heap st') (allocated st')
                 (m_freePools (this st')) (m_freePool (this st'))
                 ({[x]} ∪ live) /\
    (x ∉ live) /\ Page.is_slot L b x /\ x <> 0.
Proof.
  intros L HL Hinv Hb.
  assert (Hinv0 := Hinv). destruct Hinv0 as (Hpages & Hsub & Hfpool & Hlive).
  assert (HbA : b ∈ allocated st) by set_solver.
  destruct (Hpages b HbA) as (Hg & Hpinv & Hbfp).
  destruct (F b) as [|x l] eqn:HFb; [exfalso; now apply Hbfp|].
  assert (Hpinv0 := Hpinv).
  destruct Hpinv0 as (Hfl & Hnd & Hall & Hocc).
  simpl in Hfl. destruct Hfl as (Hhd & Hx0 & Hfl).
  apply Forall_cons in Hall as [Hxs Hall].
  pose proof (Page.slot_bounds L HL b x Hxs) as Hxb.
  pose proof (capacity_small (this st) b HL Hg) as Hcap.
  assert (HLc := HL). destruct HLc as (? & ? & ? & ? & ? & ? & ? & ?).
  pose proof (Mem.load_range (heap st) x) as Hrx.
  pose proof (Mem.load_range (heap st) (b + 0)) as Hrb.
  subst L. offsets.
  simpl length in Hocc.
  set (h1 := Mem.store (heap st) (b + 8) (Mem.load (heap st) x)).
  assert (Hocc1 : Mem.load h1 (b + 0) = Mem.load (heap st) (b + 0)).
  { unfold h1. rewrite Mem.load_store_ne by lia. reflexivity. }
  set (occ := to_size_t (Mem.load h1 (b + 0) + 1)).
  assert (Hoccv : occ = Mem.load (heap st) (b + 0) + 1).
  { unfold occ. rewrite Hocc1. apply to_size_t_small. lia. }
  set (h2 := Mem.store h1 (b + 0) occ).
  assert (Hfr : Page.frame (fun a => b <= a < b + (16 + m_headerPadding (this st)))
                           (heap st) h2).
  { eapply Page.frame_trans; apply Page.frame_store; intros a Ha; simpl; lia. }
  assert (Hh2head : Mem.load h2 (b + 8) = Mem.load (heap st) x).
  { unfold h2, h1. rewrite Mem.load_store_ne by lia.
    rewrite Mem.load_store_eq. apply to_size_t_small. exact Hrx. }
  assert (Hh2occ : Mem.load h2 (b + 0) = Mem.load (heap st) (b + 0) + 1).
  { unfold h2. rewrite Mem.load_store_eq. rewrite Hoccv.
    apply to_size_t_small. lia. }
  set (fp' := if decide (Mem.load h2 (b + 0) = m_poolSize (this st))
              then m_freePools (this st) ∖ {[b]} else m_freePools (this st)).
  set (fpool' := if decide (Mem.load h2 (b + 0) = m_poolSize (this st))
                 then pool_first fp' else m_freePool (this st)).
  exists x, l, (Machine h2 (allocated st) (set_pools (this st) fp' fpool')).
  assert (Hrun : nextFree st b =
                 (Machine h2 (allocated st) (set_pools (this st) fp' fpool'), x)).
  { unfold nextFree. offsets. rewrite Hhd.
    destruct (Z.eqb_spec x 0) as [|_]; [contradiction|].
    fold h1. fold occ. fold h2.
    unfold fp', fpool', fp'. rewrite Hh2occ, <- Hoccv.
    destruct (Z.eqb_spec occ (m_poolSize (this st))) as [E|E];
      destruct (decide (occ = m_poolSize (this st))) as [E'|E']; try contradiction.
    - reflexivity.
    - destruct (this st); reflexivity. }
  assert (Hfull : Mem.load h2 (b + 0) = m_poolSize (this st) <-> l = []).
  { rewrite Hh2occ. split.
    - intros E. destruct l; [reflexivity|]. simpl length in Hocc. lia.
    - intros ->. simpl length in Hocc. lia. }
  split; [exact Hrun|]. split; [reflexivity|].
  split; [reflexivity|].
  cbn [heap allocated this set_pools m_freePools m_freePool].
  split.
  { unfold fp'. destruct (decide (Mem.load h2 _ = _)) as [E|E];
      destruct (decide (l = [])) as [E'|E']; try reflexivity; exfalso; tauto. }
  split.
  { unfold fpool', fp'. destruct (decide (Mem.load h2 _ = _)) as [E|E];
      destruct (decide (l = [])) as [E'|E']; try reflexivity; exfalso; tauto. }
  split; [reflexivity|].
  assert (Hpop := Page.set_inv_pop (layout_of PAGE_SIZE (this st)) HL F (heap st) h2
                 (allocated st) (m_freePools (this st)) fp' (m_freePool (this st))
                 fpool' live b x l Hinv HbA HFb).
  offsets.
  destruct Hpop as (Hinv' & Hxl & _); try assumption.
  - reflexivity.
  - unfold fpool', fp'. destruct (decide _); [apply set_begin_or_null|exact Hfpool].
  - split; [exact Hinv'|]. split; [exact Hxl|]. split; [exact Hxs|exact Hx0].
Qed.

Lemma constructPoolHeader_spec lp h b :
  let L := layout_of PAGE_SIZE lp in
  Page.layout_ok L -> Page.good_page L b ->
  Page.frame (fun a => b <= a < b + PAGE_SIZE) h (constructPoolHeader lp h b) /\
  Page.page_inv L (constructPoolHeader lp h b) b
                (Page.slots_from L b 0 (m_poolSize lp)).
Proof.
  intros L HL Hg.
  assert (HLc := HL). destruct HLc as (? & ? & ? & ? & ? & ? & ? & ?).
  assert (Hgc := Hg). destruct Hgc as (Hb0 & Hbhi & _).
  subst L. offsets.
  unfold constructPoolHeader. offsets.
  assert (Hf1 : to_size_t (to_size_t (b + 16) + m_headerPadding lp)
                = b + 16 + m_headerPadding lp).
  { rewrite (to_size_t_small (b + 16)) by nia. apply to_size_t_small. nia. }
  rewrite Hf1.
  set (first := b + 16 + m_headerPadding lp).
  assert (Hn : Z.of_nat (Z.to_nat (to_size_t (m_poolSize lp - 1))) = m_poolSize lp - 1).
  { rewrite to_size_t_small by nia. lia. }
  set (h3 := Mem.store (Mem.store (Mem.store h (b + 0) 0) (b + 8) 0) (b + 8) first).
  destruct (Page.link_slots _ _ h3 first) as [h4 last] eqn:Hlink.
  assert (Hr : first + Z.of_nat (Z.to_nat (to_size_t (m_poolSize lp - 1))) * m_slotSize lp
               < 2 ^ SIZE_BITS) by (rewrite Hn; unfold first; nia).
  assert (Hfirst0 : 0 <= first) by (unfold first; lia).
  pose proof (Page.link_slots_frame _ _ _ _ _ _ ltac:(eassumption) Hfirst0 Hr Hlink) as Hfr4.
  destruct (Page.link_slots_spec _ _ _ _ _ _ ltac:(eassumption) Hfirst0 Hr Hlink)
    as (Hlast & Hlinks & _).
  rewrite Hn in Hfr4, Hlast, Hlinks.
  set (h5 := Mem.store h4 last 0).
  assert (Hfr : Page.frame (fun a => b <= a < b + PAGE_SIZE) h h5).
  { apply Page.frame_trans with h4.
    - apply Page.frame_trans with h3.
      + unfold h3.
        repeat (eapply Page.frame_trans;
                [|apply Page.frame_store; intros a Ha; simpl; nia]).
        apply Page.frame_refl.
      + eapply Page.frame_weaken; [|exact Hfr4].
        intros a Ha. simpl in *. unfold first in *. nia.
    - unfold h5. apply Page.frame_store. intros a Ha. simpl.
      unfold first in *. nia. }
  split; [exact Hfr|].
  assert (Hhead : Mem.load h5 (b + 8) = first).
  { unfold h5. rewrite Mem.load_store_ne by (unfold first in *; nia).
    rewrite (Page.frame_load _ h3 h4 (b + 8) Hfr4)
      by (intros a Ha; simpl; unfold first; lia).
    unfold h3. rewrite Mem.load_store_eq. apply to_size_t_small. unfold first. nia. }
  assert (Hocc : Mem.load h5 (b + 0) = 0).
  { unfold h5. rewrite Mem.load_store_ne by (unfold first in *; nia).
    rewrite (Page.frame_load _ h3 h4 (b + 0) Hfr4)
      by (intros a Ha; simpl; unfold first; lia).
    unfold h3. rewrite !Mem.load_store_ne by lia.
    rewrite Mem.load_store_eq. reflexivity. }
  split; [|split; [|split]].
  - offsets. rewrite Hhead.
    assert (Hfl : Page.flist h5 (Page.slot (layout_of PAGE_SIZE lp) b 0)
              (Page.slots_from (layout_of PAGE_SIZE lp) b 0
                 (Z.of_nat (Z.to_nat (m_poolSize lp - 1)) + 1))).
    { apply (Page.flist_slots _ HL); [exact Hg|lia| |].
      - intros j Hj. unfold h5.
        assert (Hsj : Page.slot (layout_of PAGE_SIZE lp) b j = first + j * m_slotSize lp)
          by (unfold Page.slot, first; offsets; lia).
        rewrite Hsj. rewrite Mem.load_store_ne by nia.
        rewrite Hlinks by lia. unfold Page.slot, first. offsets. lia.
      - unfold h5.
        replace (Page.slot (layout_of PAGE_SIZE lp) b (0 + Z.of_nat (Z.to_nat (m_poolSize lp - 1))))
          with last by (unfold Page.slot, first in *; offsets; nia).
        rewrite Mem.load_store_eq. reflexivity. }
    replace (Z.of_nat (Z.to_nat (m_poolSize lp - 1)) + 1) with (m_poolSize lp) in Hfl by lia.
    replace (Page.slot (layout_of PAGE_SIZE lp) b 0) with first in Hfl
      by (unfold Page.slot, first; offsets; lia).
    exact Hfl.
  - apply (Page.slots_from_NoDup _ HL).
  - apply Page.slots_from_is_slot; offsets; lia.
  - offsets. rewrite Hocc. rewrite Page.slots_from_length by lia. lia.
Qed.

(** The state of a pool and the slots its clients hold. *)
Definition Inv (st : machine) (live : gset Z) : Prop :=
  exists F,
    Page.set_inv (layout_of PAGE_SIZE (this st)) F (heap st) (allocated st)
                 (m_freePools (this st)) (m_freePool (this st)) live.

Lemma pool_first_null st F live :
  let L := layout_of PAGE_SIZE (this st) in
  Page.set_inv L F (heap st) (allocated st) (m_freePools (this st))
               (m_freePool (this st)) live ->
  pool_first (m_freePools (this st)) = 0 -> m_freePools (this st) = ∅.
Proof.
  intros L (Hpages & Hsub & _ & _) Hz.
  destruct (decide (m_freePools (this st) = ∅)) as [|Hne]; [assumption|exfalso].
  pose proof (set_begin_elem _ Hne) as Hin. unfold pool_first in Hz.
  rewrite Hz in Hin. apply Hsub in Hin.
  destruct (Hpages 0 Hin) as ((Hpos & _) & _). lia.
Qed.

Lemma allocate_spec st F live fresh :
  let L := layout_of PAGE_SIZE (this st) in
  Page.layout_ok L ->
  Page.set_inv L F (heap st) (allocated st) (m_freePools (this st))
               (m_freePool (this st)) live ->
  (needs_page st -> Page.good_page L fresh /\ fresh ∉ allocated st) ->
  exists st' p b l,
    allocate st fresh = (st', p) /\
    this st' = set_pools (this st) (m_freePools (this st')) (m_freePool (this st')) /\
    Page.set_inv L (<[b := l]> F) (heap st') (allocated st')
                 (m_freePools (this st')) (m_freePool (this st'))
                 ({[p]} ∪ live) /\
    (p ∉ live) /\ Page.is_slot L b p /\ p <> 0 /\
    ((allocated st' = allocated st /\ F b = p :: l /\ b ∈ m_freePools (this st) /\
      (m_freePool (this st) <> 0 -> b = m_freePool (this st)) /\
      m_freePools (this st') =
        (if decide (l = []) then m_freePools (this st) ∖ {[b]}
         else m_freePools (this st)) /\
      m_freePool (this st') =
        (if decide (l = []) then pool_first (m_freePools (this st) ∖ {[b]})
         else m_freePool (this st)))
     \/
     (allocated st' = {[fresh]} ∪ allocated st /\ b = fresh /\
      p :: l = Page.slots_from L fresh 0 (m_poolSize (this st)) /\
      m_freePools (this st) = ∅ /\ m_freePool (this st) = 0 /\
      m_freePools (this st') = (if decide (l = []) then ∅ else {[fresh]}) /\
      m_freePool (this st') = (if decide (l = []) then 0 else fresh))).
Proof.
  intros L HL Hinv Hneed.
  assert (Hinv0 := Hinv). destruct Hinv0 as (Hpages & Hsub & Hfpool & Hlive).
  unfold allocate.
  destruct (Z.eqb_spec (m_freePool (this st)) 0) as [Hc0|Hc]; cbn [negb].
  2:{ (* the cached pool *)
    destruct Hfpool as [|Hin]; [contradiction|].
    destruct (nextFree_spec st F live _ HL Hinv Hin)
      as (x & l & st' & Hrun & HFb & Hthis & Hfp' & Hfpool' & HA & Hinv' & Hxl & Hxs & Hx0).
    exists st', x, (m_freePool (this st)), l. rewrite HA in Hinv'.
    repeat (split; [first [assumption|reflexivity]|]). rewrite HA in *.
    split; [exact Hinv'|]. repeat (split; [assumption|]).
    left. repeat (split; [first [assumption|reflexivity]|]). assumption. }
  destruct (Z.eqb_spec (pool_first (m_freePools (this st))) 0) as [Hp0|Hp]; cbn [negb].
  2:{ (* the first pool with a free slot *)
    assert (Hin : pool_first (m_freePools (this st)) ∈ m_freePools (this st)).
    { destruct (set_begin_or_null (m_freePools (this st))); [contradiction|assumption]. }
    destruct (nextFree_spec st F live _ HL Hinv Hin)
      as (x & l & st' & Hrun & HFb & Hthis & Hfp' & Hfpool' & HA & Hinv' & Hxl & Hxs & Hx0).
    exists st', x, (pool_first (m_freePools (this st))), l. rewrite HA in Hinv'.
    repeat (split; [first [assumption|reflexivity]|]). rewrite HA in *.
    split; [exact Hinv'|]. repeat (split; [assumption|]).
    left. repeat (split; [first [assumption|reflexivity]|]).
    split; [intros; contradiction|]. split; assumption. }
  (* a new page *)
  destruct (Hneed (conj Hc0 Hp0)) as (Hfresh & HfA).
  pose proof (pool_first_null st F live Hinv Hp0) as Hempty.
  destruct (constructPoolHeader_spec (this st) (heap st) fresh HL Hfresh) as (Hfr & Hpinv).
  set (h1 := constructPoolHeader (this st) (heap st) fresh) in *.
  set (st1 := Machine h1 ({[fresh]} ∪ allocated st)
                (set_pools (this st) (pool_insert (m_freePools (this st)) fresh) fresh)).
  pose proof (Page.set_inv_construct L HL F (heap st) h1 (allocated st)
               (m_freePools (this st)) (m_freePool (this st)) live fresh
               Hinv HfA Hfresh Hfr Hpinv) as Hinv1.
  set (F1 := <[fresh := Page.slots_from L fresh 0 (Page.capacity L)]> F) in *.
  assert (Hin1 : fresh ∈ m_freePools (this st1)).
  { cbn. unfold pool_insert. set_solver. }
  destruct (nextFree_spec st1 F1 live fresh HL Hinv1 Hin1)
    as (x & l & st' & Hrun & HFb & Hthis & Hfp' & Hfpool' & HA & Hinv' & Hxl & Hxs & Hx0).
  exists st', x, fresh, l.
  split; [exact Hrun|].
  split; [rewrite Hthis; destruct (this st); reflexivity|].
  split.
  { eapply Page.set_inv_ext; [|exact Hinv'].
    intros b0. unfold F1. destruct (decide (b0 = fresh)) as [->|Hne].
    - now rewrite !fn_lookup_insert.
    - now rewrite !fn_lookup_insert_ne by congruence. }
  repeat (split; [assumption|]).
  right. split; [exact HA|]. split; [reflexivity|].
  unfold F1 in HFb. rewrite fn_lookup_insert in HFb.
  split; [symmetry; exact HFb|]. split; [exact Hempty|]. split; [exact Hc0|].
  cbn [this st1 set_pools m_freePools m_freePool] in Hfp', Hfpool'.
  unfold pool_insert in *. rewrite Hempty in *.
  split.
  - rewrite Hfp'. destruct (decide (l = [])); set_solver.
  - rewrite Hfpool'. destruct (decide (l = [])); [|reflexivity].
    replace (({[fresh]} ∪ ∅) ∖ {[fresh]}) with (∅ : gset Z) by set_solver.
    reflexivity.
Qed.

Lemma deallocate_spec st F live p :
  let L := layout_of PAGE_SIZE (this st) in
  Page.layout_ok L ->
  Page.set_inv L F (heap st) (allocated st) (m_freePools (this st))
               (m_freePool (this st)) live ->
  p ∈ live ->
  exists b,
    b ∈ allocated st /\ Page.is_slot L b p /\ (p ∉ F b) /\
    getPoolHeader PAGE_SIZE p = b /\
    1 <= Mem.load (heap st) (b + off_occupiedSlots) /\
    let st' := deallocate PAGE_SIZE st p in
    this st' = set_pools (this st) (m_freePools (this st')) (m_freePool (this st')) /\
    if decide (Mem.load (heap st) (b + off_occupiedSlots) = 1)
    then
      allocated st' = allocated st ∖ {[b]} /\
      heap st' = heap st /\
      Page.set_inv L F (heap st') (allocated st') (m_freePools (this st'))
                   (m_freePool (this st')) (live ∖ {[p]}) /\
      (forall q, q ∈ live ∖ {[p]} -> ~ Page.is_slot L b q)
    else
      allocated st' = allocated st /\
      m_freePool (this st') = b /\
      m_freePools (this st') = {[b]} ∪ m_freePools (this st) /\
      Page.set_inv L (<[b := p :: F b]> F) (heap st') (allocated st')
                   (m_freePools (this st')) (m_freePool (this st'))
                   (live ∖ {[p]}).
Proof.
  intros L HL Hinv Hp.
  destruct (Page.set_inv_live_page L F _ _ _ _ _ _ Hinv Hp) as (b & HbA & Hg & Hps & Hpl).
  assert (Hinv0 := Hinv). destruct Hinv0 as (Hpages & Hsub & Hfpool & Hlive).
  destruct (Hpages b HbA) as (_ & Hpinv & Hbfp).
  pose proof (Page.slot_bounds L HL b p Hps) as Hpb.
  pose proof (Page.live_slot_occupied L HL _ _ _ _ Hpinv Hps Hpl) as Hocc1.
  pose proof (capacity_small (this st) b HL Hg) as Hcap.
  assert (HLc := HL). destruct HLc as (? & ? & ? & ? & ? & ? & ? & ?).
  assert (Hgc := Hg). destruct Hgc as (Hb0 & Hbhi & Hbal).
  assert (Hmask : getPoolHeader PAGE_SIZE p = b).
  { subst L. offsets. rewrite HPAGE in *.
    apply getPoolHeader_page; try lia. }
  exists b. repeat (split; [assumption|]).
  unfold deallocate. unfold getPoolHeader in Hmask. rewrite Hmask.
  destruct (decide (Mem.load (heap st) (b + off_occupiedSlots) = 1)) as [Hone|Hne].
  - rewrite Hone. cbn [Z.eqb Pos.eqb heap allocated this set_pools m_freePools m_freePool].
    split; [reflexivity|]. split; [reflexivity|]. split; [reflexivity|].
    eapply (Page.set_inv_release L HL); try eassumption.
    + apply Page.frame_refl.
    + reflexivity.
    + apply set_begin_or_null.
  - destruct (Z.eqb_spec (Mem.load (heap st) (b + off_occupiedSlots)) 1) as [|_];
      [contradiction|].
    assert (Hpinv0 := Hpinv). destruct Hpinv0 as (_ & _ & _ & Hocc).
    pose proof (Mem.load_range (heap st) (b + 8)) as Hrh.
    subst L. offsets.
    set (h1 := Mem.store (heap st) p 0).
    assert (Hh1 : Mem.load h1 (b + 8) = Mem.load (heap st) (b + 8)).
    { unfold h1. rewrite Mem.load_store_ne by lia. reflexivity. }
    rewrite Hh1.
    set (h2 := Mem.store h1 p (Mem.load (heap st) (b + 8))).
    set (h3 := Mem.store h2 (b + 8) p).
    assert (Hh3 : Mem.load h3 (b + 0) = Mem.load (heap st) (b + 0)).
    { unfold h3, h2, h1. rewrite !Mem.load_store_ne by lia. reflexivity. }
    rewrite Hh3.
    assert (Hoccv : to_size_t (Mem.load (heap st) (b + 0) - 1)
                    = Mem.load (heap st) (b + 0) - 1)
      by (apply to_size_t_small; lia).
    rewrite Hoccv.
    set (h4 := Mem.store h3 (b + 0) (Mem.load (heap st) (b + 0) - 1)).
    assert (Hcap1 : to_size_t (m_poolSize (this st) - 1) = m_poolSize (this st) - 1)
      by (apply to_size_t_small; lia).
    rewrite Hcap1.
    cbn [heap allocated this set_pools m_freePools m_freePool].
    assert (Hh4occ : Mem.load h4 (b + 0) = Mem.load (heap st) (b + 0) - 1).
    { unfold h4. rewrite Mem.load_store_eq. exact Hoccv. }
    assert (Hfp : (if Mem.load (heap st) (b + 0) - 1 =? m_poolSize (this st) - 1
                   then pool_insert (m_freePools (this st)) b
                   else m_freePools (this st))
                  = (if decide (Mem.load h4 (b + 0) = m_poolSize (this st) - 1)
                     then {[b]} ∪ m_freePools (this st) else m_freePools (this st))).
    { destruct (Z.eqb_spec (Mem.load (heap st) (b + 0) - 1) (m_poolSize (this st) - 1));
        destruct (decide (Mem.load h4 (b + 0) = m_poolSize (this st) - 1));
        try reflexivity; exfalso; lia. }
    assert (Hpush := Page.set_inv_push (layout_of PAGE_SIZE (this st)) HL F (heap st) h4
               (allocated st) (m_freePools (this st))
               (if decide (Mem.load h4 (b + 0) = m_poolSize (this st) - 1)
                then {[b]} ∪ m_freePools (this st) else m_freePools (this st))
               (m_freePool (this st)) live b p Hinv Hp HbA Hps).
    offsets.
    rewrite Hfp.
    split; [reflexivity|]. split; [reflexivity|]. split; [reflexivity|].
    assert (Hinv' : Page.set_inv (layout_of PAGE_SIZE (this st)) (<[b:=p :: F b]> F) h4
      (allocated st)
      (if decide (Mem.load h4 (b + 0) = m_poolSize (this st) - 1)
       then {[b]} ∪ m_freePools (this st) else m_freePools (this st)) b (live ∖ {[p]})).
    { apply Hpush.
      - unfold h4, h3, h2, h1.
        repeat (eapply Page.frame_trans;
                [|apply Page.frame_store; intros a Ha; simpl; lia]).
        apply Page.frame_refl.
      - unfold h4, h3. rewrite Mem.load_store_ne by lia.
        rewrite Mem.load_store_eq. apply to_size_t_small. lia.
      - unfold h4, h3, h2. rewrite !Mem.load_store_ne by lia.
        rewrite Mem.load_store_eq. apply to_size_t_small. lia.
      - exact Hh4occ.
      - reflexivity. }
    split; [|exact Hinv'].
    destruct Hinv' as (Hpages' & _ & _ & _).
    destruct (Hpages' b HbA) as (_ & _ & Hbfp').
    rewrite fn_lookup_insert in Hbfp'.
    assert (b ∈ (if decide (Mem.load h4 (b + 0) = m_poolSize (this st) - 1)
       then {[b]} ∪ m_freePools (this st) else m_freePools (this st)))
      by (apply Hbfp'; discriminate).
    destruct (decide _); set_solver.
Qed.

Lemma exec_run st live ops st' live' ps :
  exec PAGE_SIZE st live ops st' live' ps -> run PAGE_SIZE st ops = (st', ps).
Proof.
  induction 1 as [| ? ? ? ? ? ? ? ? ? _ Hal _ IH | ? ? ? ? ? ? ? _ _ IH].
  - reflexivity.
  - cbn [run step]. rewrite Hal, IH. reflexivity.
  - cbn [run step]. rewrite IH. reflexivity.
Qed.

Lemma Inv_init h sizeofT alignofT : Inv (init PAGE_SIZE h sizeofT alignofT) ∅.
Proof.
  exists (fun _ => []). cbn. split; [|split; [|split]].
  - intros b Hb. set_solver.
  - set_solver.
  - now left.
  - intros p. split; [set_solver|]. intros (b & Hb & _). set_solver.
Qed.

Lemma Inv_allocate st live fresh st' p :
  Page.layout_ok (layout_of PAGE_SIZE (this st)) -> Inv st live ->
  (needs_page st ->
   Page.good_page (layout_of PAGE_SIZE (this st)) fresh /\ fresh ∉ allocated st) ->
  allocate st fresh = (st', p) ->
  Inv st' ({[p]} ∪ live) /\
  layout_of PAGE_SIZE (this st') = layout_of PAGE_SIZE (this st) /\
  (p ∉ live) /\ p <> 0 /\ allocated st ⊆ allocated st' /\
  exists b, b ∈ allocated st' /\ Page.is_slot (layout_of PAGE_SIZE (this st)) b p.
Proof.
  intros HL (F & Hinv) Hg Hal.
  destruct (allocate_spec st F live fresh HL Hinv Hg)
    as (st1 & p1 & b & l & Hal1 & Hthis & Hinv' & Hpl & Hps & Hp0 & Hcases).
  rewrite Hal in Hal1. injection Hal1 as <- <-.
  assert (Hlay : layout_of PAGE_SIZE (this st') = layout_of PAGE_SIZE (this st))
    by (rewrite Hthis; reflexivity).
  split; [exists (<[b := l]> F); rewrite Hlay; exact Hinv'|].
  split; [exact Hlay|]. split; [exact Hpl|]. split; [exact Hp0|].
  destruct Hcases as [(HA & _ & Hb & _)|(HA & -> & _)].
  - split; [rewrite HA; set_solver|]. exists b. split; [|exact Hps].
    rewrite HA. destruct Hinv as (_ & Hsub & _). set_solver.
  - split; [rewrite HA; set_solver|]. exists fresh. split; [|exact Hps].
    rewrite HA. set_solver.
Qed.

Lemma Inv_deallocate st live p :
  Page.layout_ok (layout_of PAGE_SIZE (this st)) -> Inv st live -> p ∈ live ->
  Inv (deallocate PAGE_SIZE st p) (live ∖ {[p]}) /\
  layout_of PAGE_SIZE (this (deallocate PAGE_SIZE st p)) = layout_of PAGE_SIZE (this st).
Proof.
  intros HL (F & Hinv) Hp.
  destruct (deallocate_spec st F live p HL Hinv Hp)
    as (b & HbA & Hps & Hpl & Hmask & Hocc & Hthis & Hcases).
  assert (Hlay : layout_of PAGE_SIZE (this (deallocate PAGE_SIZE st p))
                 = layout_of PAGE_SIZE (this st)) by (rewrite Hthis; reflexivity).
  split; [|exact Hlay]. rewrite <- Hlay in Hcases.
  destruct (decide _).
  - destruct Hcases as (_ & _ & Hinv' & _). now exists F.
  - destruct Hcases as (_ & _ & _ & Hinv'). now exists (<[b := p :: F b]> F).
Qed.

Lemma exec_Inv st live ops st' live' ps :
  exec PAGE_SIZE st live ops st' live' ps ->
  Page.layout_ok (layout_of PAGE_SIZE (this st)) -> Inv st live ->
  Inv st' live' /\
  layout_of PAGE_SIZE (this st') = layout_of PAGE_SIZE (this st).
Proof.
  induction 1 as [| st live fresh st1 p ops st' live' ps Hg Hal _ IH
                  | st live p ops st' live' ps Hp _ IH]; intros HL Hinv.
  - auto.
  - destruct (Inv_allocate st live fresh st1 p HL Hinv Hg Hal) as (Hinv1 & Hlay & _).
    rewrite <- Hlay in HL. destruct (IH HL Hinv1) as (Hinv' & Hlay').
    split; [exact Hinv'|congruence].
  - destruct (Inv_deallocate st live p HL Hinv Hp) as (Hinv1 & Hlay).
    rewrite <- Hlay in HL. destruct (IH HL Hinv1) as (Hinv' & Hlay').
    split; [exact Hinv'|congruence].
Qed.

Definition is_Allocate (o : op) : Prop :=
  match o with Allocate _ => True | Deallocate _ => False end.

Lemma exec_allocations st live ops st' live' ps :
  exec PAGE_SIZE st live ops st' live' ps ->
  Page.layout_ok (layout_of PAGE_SIZE (this st)) -> Inv st live ->
  Forall is_Allocate ops ->
  NoDup ps /\ (forall p, p ∈ ps -> p <> 0 /\ p ∉ live) /\
  length ps = length ops.
Proof.
  induction 1 as [| st live fresh st1 p ops st' live' ps Hg Hal _ IH
                  | st live p ops st' live' ps Hp _ IH]; intros HL Hinv Hops.
  - split; [constructor|]. split; [|reflexivity]. intros p Hp. set_solver.
  - apply Forall_cons in Hops as [_ Hops].
    destruct (Inv_allocate st live fresh st1 p HL Hinv Hg Hal)
      as (Hinv1 & Hlay & Hpl & Hp0 & _).
    rewrite <- Hlay in HL. destruct (IH HL Hinv1 Hops) as (Hnd & Hall & Hlen).
    split; [|split].
    + apply NoDup_cons. split; [|exact Hnd].
      intros Hin. destruct (Hall p Hin) as (_ & Hn). set_solver.
    + intros q Hq. apply elem_of_cons in Hq as [->|Hq]; [auto|].
      destruct (Hall q Hq) as (Hq0 & Hn). split; [exact Hq0|set_solver].
    + simpl. now rewrite Hlen.
  - apply Forall_cons in Hops as [[] _].
Qed.

Lemma slot_page lp b p :
  Page.layout_ok (layout_of PAGE_SIZE lp) ->
  Page.good_page (layout_of PAGE_SIZE lp) b ->
  Page.is_slot (layout_of PAGE_SIZE lp) b p ->
  getPoolHeader PAGE_SIZE p = b.
Proof.
  intros HL Hg Hps.
  pose proof (Page.slot_bounds _ HL b p Hps) as Hpb.
  destruct HL as (? & ? & ? & ? & ? & ? & ? & ?).
  destruct Hg as (Hb0 & Hbhi & Hbal).
  offsets. rewrite HPAGE in *. apply getPoolHeader_page; lia.
Qed.

(** *** Allocation without deallocation

    As long as nothing has been deallocated there is at most one page with a
    free slot, the newest one, and its free list is the ascending run of the
    slots not yet handed out.  [cur] is that page and the index of its first
    free slot. *)
Definition fresh_run (st : machine) (F : Z -> list Z) (live : gset Z)
    (cur : option (Z * Z)) : Prop :=
  let L := layout_of PAGE_SIZE (this st) in
  Page.set_inv L F (heap st) (allocated st) (m_freePools (this st))
               (m_freePool (this st)) live /\
  match cur with
  | None => m_freePool (this st) = 0 /\ m_freePools (this st) = ∅
  | Some (b, i) =>
      m_freePool (this st) = b /\ b <> 0 /\ m_freePools (this st) = {[b]} /\
      b ∈ allocated st /\ 1 <= i < m_poolSize (this st) /\
      F b = Page.slots_from L b i (m_poolSize (this st) - i)
  end.

(** The page and slot index the next allocation is served from. *)
Definition next_slot (cur : option (Z * Z)) (fresh : Z) : Z * Z :=
  match cur with
  | Some (b, i) => (b, i)
  | None => (fresh, 0)
  end.

Lemma fresh_run_allocate st F live cur fresh :
  let L := layout_of PAGE_SIZE (this st) in
  Page.layout_ok L ->
  fresh_run st F live cur ->
  (needs_page st -> Page.good_page L fresh /\ fresh ∉ allocated st) ->
  exists st' F',
    let '(b, i) := next_slot cur fresh in
    let p := Page.slot L b i in
    allocate st fresh = (st', p) /\
    layout_of PAGE_SIZE (this st') = L /\
    fresh_run st' F' ({[p]} ∪ live)
              (if decide (i + 1 < m_poolSize (this st)) then Some (b, i + 1) else None) /\
    F' b = Page.slots_from L b (i + 1) (m_poolSize (this st) - (i + 1)) /\
    (forall b', b' <> b -> F' b' = F b') /\
    b ∈ allocated st' /\ Page.good_page L b /\
    0 <= i < m_poolSize (this st) /\
    (p ∉ live) /\
    allocated st' = match cur with
                    | Some _ => allocated st
                    | None => {[fresh]} ∪ allocated st
                    end /\
    (cur = None -> fresh ∉ allocated st).
Proof.
  intros L HL (Hinv & Hcur) Hneed.
  destruct (allocate_spec st F live fresh HL Hinv Hneed)
    as (st' & p & b & l & Hal & Hthis & Hinv' & Hpl & Hps & Hp0 & Hcases).
  assert (Hlay : layout_of PAGE_SIZE (this st') = L) by (rewrite Hthis; reflexivity).
  assert (Hcapeq : m_poolSize (this st') = m_poolSize (this st))
    by (rewrite Hthis; reflexivity).
  assert (HLc := HL). destruct HLc as (? & ? & ? & ? & ? & ? & Hcap1 & ?).
  change (1 <= m_poolSize (this st)) in Hcap1.
  exists st', (<[b := l]> F).
  destruct Hcases as [(HA & HFb & Hbfp & Hbc & Hfp' & Hfpool')
                     |(HA & -> & Hsl & Hfp0 & Hfpool0 & Hfp' & Hfpool')].
  - (* served from the current page *)
    destruct cur as [[b0 i]|]; [|destruct Hcur as (_ & Hfp); set_solver].
    destruct Hcur as (Hc & Hb0 & Hfp & Hb0A & Hi & HFb0).
    assert (b0 = b) as -> by set_solver. cbn [next_slot].
    rewrite HFb0 in HFb. rewrite Page.slots_from_cons in HFb by (subst L; offsets; lia).
    injection HFb as Hp Hl. subst l. subst p.
    destruct Hinv as (Hpages & _). destruct (Hpages b Hb0A) as (Hg & _ & _).
    cbv zeta.
    split; [exact Hal|]. split; [exact Hlay|].
    replace (m_poolSize (this st) - i - 1) with (m_poolSize (this st) - (i + 1)) in * by lia.
    split.
    { split; [rewrite Hlay; exact Hinv'|].
      rewrite Hfp', Hfpool', Hcapeq, Hlay, HA.
      destruct (decide (i + 1 < m_poolSize (this st))) as [Hlt|Hge].
      - rewrite Page.slots_from_cons by lia.
        destruct (decide (_ :: _ = [])) as [E|_]; [discriminate|].
        rewrite fn_lookup_insert.
        repeat (split; [first [assumption|lia]|]).
        now rewrite <- Page.slots_from_cons by lia.
      - rewrite Page.slots_from_nil by lia.
        destruct (decide ([] = [])) as [_|]; [|contradiction].
        rewrite Hfp. replace ({[b]} ∖ {[b]}) with (∅ : gset Z) by set_solver.
        split; reflexivity. }
    rewrite fn_lookup_insert.
    split; [reflexivity|].
    split; [intros b' Hb'; now rewrite fn_lookup_insert_ne by congruence|].
    split; [rewrite HA; exact Hb0A|]. split; [exact Hg|]. split; [lia|].
    split; [exact Hpl|]. split; [exact HA|]. discriminate.
  - (* served from a new page *)
    destruct cur as [[b0 i]|];
      [destruct Hcur as (_ & _ & Hfp & _); rewrite Hfp in Hfp0; set_solver|].
    cbn [next_slot].
    assert (Hpf : pool_first (m_freePools (this st)) = 0) by (rewrite Hfp0; reflexivity).
    destruct (Hneed (conj Hfpool0 Hpf)) as (Hg & HfA).
    rewrite Page.slots_from_cons in Hsl by (subst L; offsets; lia).
    injection Hsl as Hp Hl. subst l. subst p.
    cbv zeta.
    split; [exact Hal|]. split; [exact Hlay|].
    replace (m_poolSize (this st) - 1) with (m_poolSize (this st) - (0 + 1)) in * by lia.
    split.
    { split; [rewrite Hlay; exact Hinv'|].
      rewrite Hfp', Hfpool', Hcapeq, Hlay, HA.
      destruct (decide (0 + 1 < m_poolSize (this st))) as [Hlt|Hge].
      - rewrite Page.slots_from_cons by lia.
        destruct (decide (_ :: _ = [])) as [E|_]; [discriminate|].
        rewrite fn_lookup_insert.
        destruct Hg as (Hf0 & _).
        repeat (split; [first [assumption|reflexivity|lia|set_solver]|]).
        now rewrite <- Page.slots_from_cons by lia.
      - rewrite Page.slots_from_nil by lia.
        destruct (decide ([] = [])) as [_|]; [|contradiction].
        split; reflexivity. }
    rewrite fn_lookup_insert.
    split; [reflexivity|].
    split; [intros b' Hb'; now rewrite fn_lookup_insert_ne by congruence|].
    split; [rewrite HA; set_solver|]. split; [exact Hg|]. split; [lia|].
    split; [exact Hpl|]. split; [exact HA|]. auto.
Qed.

(** Every slot returned right after [prev], in the same page, lies one slot
    size further. *)
Fixpoint strided (s : Z) (prev : option Z) (ps : list Z) : Prop :=
  match ps with
  | [] => True
  | p :: ps' =>
      (forall q, prev = Some q ->
                 getPoolHeader PAGE_SIZE q = getPoolHeader PAGE_SIZE p -> p = q + s) /\
      strided s (Some p) ps'
  end.

Lemma strided_lookup s ps : forall prev,
  strided s prev ps ->
  forall (k : nat) p q, ps !! k = Some p -> ps !! S k = Some q ->
  getPoolHeader PAGE_SIZE p = getPoolHeader PAGE_SIZE q -> q = p + s.
Proof.
  induction ps as [|x ps IH]; intros prev Hs k p q Hp Hq Hsame; [discriminate|].
  destruct Hs as (_ & Hs). destruct k as [|k].
  - simpl in Hp. injection Hp as ->. destruct ps as [|y ps]; [discriminate|].
    simpl in Hq. injection Hq as ->. destruct Hs as (Hy & _). now apply Hy.
  - simpl in Hp. change ((x :: ps) !! S (S k)) with (ps !! S k) in Hq.
    eapply IH; eassumption.
Qed.

Lemma fresh_run_exec st live ops st' live' ps :
  exec PAGE_SIZE st live ops st' live' ps ->
  forall F cur prev,
  Page.layout_ok (layout_of PAGE_SIZE (this st)) ->
  fresh_run st F live cur ->
  Forall is_Allocate ops ->
  match cur with
  | Some (b, i) => prev = Some (Page.slot (layout_of PAGE_SIZE (this st)) b (i - 1))
  | None => forall q, prev = Some q ->
      exists b0, b0 ∈ allocated st /\
                 Page.is_slot (layout_of PAGE_SIZE (this st)) b0 q
  end ->
  strided (m_slotSize (this st)) prev ps.
Proof.
  induction 1 as [| st live fresh st1 p ops st' live' ps Hg Hal _ IH
                  | st live p ops st' live' ps Hp _ IH];
    intros F cur prev HL Hfr Hops Hprev.
  - exact I.
  - apply Forall_cons in Hops as [_ Hops].
    destruct (fresh_run_allocate st F live cur fresh HL Hfr Hg) as (st2 & F' & Hstep).
    destruct (next_slot cur fresh) as [b i] eqn:Hns.
    destruct Hstep as (Hal' & Hlay & Hfr' & HF'b & HF' & HbA' & Hgb & Hi & Hpl & HA & Hnew).
    rewrite Hal in Hal'. injection Hal' as <- ->.
    assert (Hslot : m_slotSize (this st1) = m_slotSize (this st))
      by (change (Page.slot_size (layout_of PAGE_SIZE (this st1))
                  = Page.slot_size (layout_of PAGE_SIZE (this st))); now rewrite Hlay).
    assert (Hps : Page.is_slot (layout_of PAGE_SIZE (this st)) b
                    (Page.slot (layout_of PAGE_SIZE (this st)) b i))
      by (exists i; split; [exact Hi|reflexivity]).
    cbn [strided]. split.
    + intros q -> Hsame.
      destruct cur as [[b0 i0]|]; cbn [next_slot] in Hns.
      * injection Hns as -> ->. injection Hprev as ->.
        unfold Page.slot. cbn [Page.slot_size layout_of]. lia.
      * injection Hns as <- <-.
        destruct (Hprev q eq_refl) as (b0 & Hb0 & Hqs).
        destruct Hfr as ((Hpages & _) & _).
        destruct (Hpages b0 Hb0) as (Hg0 & _ & _).
        rewrite (slot_page (this st) b0 q HL Hg0 Hqs) in Hsame.
        rewrite (slot_page (this st) fresh _ HL Hgb Hps) in Hsame.
        subst b0. exfalso. now apply (Hnew eq_refl).
    + rewrite <- Hslot. rewrite <- Hlay in HL.
      eapply IH; [exact HL|exact Hfr'|exact Hops|].
      rewrite Hlay.
      destruct (decide (i + 1 < m_poolSize (this st))).
      * replace (i + 1 - 1) with i by lia. reflexivity.
      * intros q [= <-]. exists b. split; [exact HbA'|exact Hps].
  - apply Forall_cons in Hops as [[] _].
Qed.

Lemma fresh_run_init h sizeofT alignofT :
  fresh_run (init PAGE_SIZE h sizeofT alignofT) (fun _ => []) ∅ None.
Proof.
  split; [|split; reflexivity].
  cbn. split; [|split; [|split]].
  - intros b Hb. set_solver.
  - set_solver.
  - now left.
  - intros p. split; [set_solver|]. intros (b & Hb & _). set_solver.
Qed.

Lemma exec_app st live ops1 st1 live1 ps1 ops2 st2 live2 ps2 :
  exec PAGE_SIZE st live ops1 st1 live1 ps1 ->
  exec PAGE_SIZE st1 live1 ops2 st2 live2 ps2 ->
  exec PAGE_SIZE st live (ops1 ++ ops2) st2 live2 (ps1 ++ ps2).
Proof.
  induction 1 as [| ? ? ? ? ? ? ? ? ? Hg Hal _ IH | ? ? ? ? ? ? ? Hp _ IH]; intros H2.
  - exact H2.
  - simpl. eapply exec_alloc; eauto.
  - simpl. eapply exec_dealloc; eauto.
Qed.

Lemma not_needs_page st b : m_freePool (this st) = b -> b <> 0 -> ~ needs_page st.
Proof. intros Hb Hb0 (Hz & _). congruence. Qed.

(** The slots of a page are handed out in ascending order. *)
Lemma exec_first_page (fs : list Z) : forall st F live b i,
  let L := layout_of PAGE_SIZE (this st) in
  let n := Z.of_nat (length fs) in
  Page.layout_ok L ->
  fresh_run st F live (Some (b, i)) ->
  i + n <= m_poolSize (this st) ->
  exists st' F',
    exec PAGE_SIZE st live (Allocate <$> fs) st'
         (list_to_set (Page.slots_from L b i n) ∪ live) (Page.slots_from L b i n) /\
    layout_of PAGE_SIZE (this st') = L /\
    fresh_run st' F' (list_to_set (Page.slots_from L b i n) ∪ live)
              (if decide (i + n < m_poolSize (this st)) then Some (b, i + n) else None) /\
    F' b = Page.slots_from L b (i + n) (m_poolSize (this st) - (i + n)) /\
    b ∈ allocated st' /\ Page.good_page L b.
Proof.
  induction fs as [|f fs IH]; intros st F live b i L n HL Hfr Hn.
  - subst n. cbn [length Z.of_nat] in *. exists st, F.
    assert (Hcur := Hfr). destruct Hcur as ((Hpages & _) & _ & _ & _ & HbA & Hi & HFb).
    destruct (Hpages b HbA) as (Hg & _ & _).
    rewrite Page.slots_from_nil by lia. rewrite Z.add_0_r.
    replace (list_to_set [] ∪ live) with live by set_solver.
    split; [constructor|]. split; [reflexivity|].
    destruct (decide (i < m_poolSize (this st))); [|lia]. auto.
  - subst n. cbn [length] in *.
    assert (Hneed : needs_page st ->
              Page.good_page L f /\ f ∉ allocated st).
    { intros Hnp. exfalso. destruct Hfr as (_ & Hc & Hb0 & _).
      now apply (not_needs_page st b Hc Hb0). }
    destruct (fresh_run_allocate st F live (Some (b, i)) f HL Hfr Hneed)
      as (st1 & F1 & Hstep). cbn [next_slot] in Hstep.
    destruct Hstep as (Hal & Hlay & Hfr1 & HF1b & _ & HbA1 & Hgb & Hi & Hpl & _).
    fold L in Hal, Hfr1, HF1b, Hn.
    assert (Hcapeq : m_poolSize (this st1) = m_poolSize (this st))
      by (change (Page.capacity (layout_of PAGE_SIZE (this st1)) = Page.capacity L);
          now rewrite Hlay).
    rewrite Page.slots_from_cons by lia.
    replace (Z.of_nat (S (length fs)) - 1) with (Z.of_nat (length fs)) by lia.
    destruct fs as [|f' fs].
    + cbn [length Z.of_nat fmap list_fmap] in *.
      rewrite Page.slots_from_nil by lia.
      exists st1, F1.
      replace (list_to_set [Page.slot L b i] ∪ live)
        with ({[Page.slot L b i]} ∪ live) by set_solver.
      split; [eapply exec_alloc; [exact Hneed|exact Hal|constructor]|].
      split; [exact Hlay|]. split; [exact Hfr1|]. auto.
    + assert (Hlt : i + 1 < m_poolSize (this st)) by (cbn [length] in Hn; lia).
      destruct (decide (i + 1 < m_poolSize (this st))); [|contradiction].
      destruct (IH st1 F1 ({[Page.slot L b i]} ∪ live) b (i + 1))
        as (st' & F' & Hex & Hlay' & Hfr' & HF'b & HbA' & Hgb').
      * now rewrite Hlay.
      * exact Hfr1.
      * rewrite Hcapeq. cbn [length] in *. lia.
      * rewrite Hlay, Hcapeq in *. subst L.
        replace (i + 1 + Z.of_nat (length (f' :: fs)))
          with (i + Z.of_nat (S (length (f' :: fs)))) in * by lia.
        set (rest := Page.slots_from (layout_of PAGE_SIZE (this st)) b (i + 1)
                       (Z.of_nat (length (f' :: fs)))) in *.
        set (p := Page.slot (layout_of PAGE_SIZE (this st)) b i) in *.
        assert (Hset : list_to_set rest ∪ ({[p]} ∪ live)
                       = (list_to_set (p :: rest) ∪ live : gset Z)) by set_solver.
        rewrite Hset in Hex, Hfr'.
        exists st', F'.
        split; [eapply exec_alloc; [exact Hneed|exact Hal|exact Hex]|].
        split; [congruence|]. split; [exact Hfr'|]. auto.
Qed.

Lemma page_occupied (L : Page.layout) h b l :
  Page.page_inv L h b l ->
  Mem.load h (b + Page.occ_off L) = Page.capacity L - Z.of_nat (length l).
Proof. intros (_ & _ & _ & Hocc). lia. Qed.

(** Five slots are taken from a new pool, the second and the fifth are given
    back, and two more are taken (test_interleaving). *)
Lemma interleaving h sizeofT alignofT f1 f2 f3 f4 f5 f6 f7 :
  let st0 := init PAGE_SIZE h sizeofT alignofT in
  let L := layout_of PAGE_SIZE (this st0) in
  Page.layout_ok L -> 5 <= m_poolSize (this st0) -> Page.good_page L f1 ->
  let A := Page.slot L f1 0 in
  let B := Page.slot L f1 1 in
  let C := Page.slot L f1 2 in
  let D := Page.slot L f1 3 in
  let E := Page.slot L f1 4 in
  exists st' live',
    exec PAGE_SIZE st0 ∅
         [Allocate f1; Allocate f2; Allocate f3; Allocate f4; Allocate f5;
          Deallocate B; Deallocate E; Allocate f6; Allocate f7]
         st' live' [A; B; C; D; E; E; B].
Proof.
  intros st0 L.
  assert (HLeq : layout_of PAGE_SIZE (this st0) = L) by reflexivity.
  assert (Hc0 : m_poolSize (this st0) = Page.capacity L) by reflexivity.
  assert (Hoff : Page.occ_off L = off_occupiedSlots) by reflexivity.
  clearbody L. rewrite Hc0.
  intros HL Hcap Hg1 A B C D E.
  (* the first allocation creates the page *)
  assert (Hneed0 : needs_page st0 -> Page.good_page L f1 /\ f1 ∉ allocated st0).
  { intros _. split; [exact Hg1|]. cbn. set_solver. }
  pose proof (fresh_run_allocate st0 (fun _ => []) ∅ None f1) as Hstep.
  cbv zeta in Hstep. rewrite HLeq, Hc0 in Hstep.
  destruct (Hstep HL (fresh_run_init h sizeofT alignofT) Hneed0)
    as (st1 & F1 & Hstep1). clear Hstep.
  cbn [next_slot] in Hstep1. destruct Hstep1 as (Hal1 & Hlay1 & Hfr1 & _).
  fold A in Hal1, Hfr1.
  destruct (decide (0 + 1 < Page.capacity L)) as [_|]; [|lia].
  assert (Hc1 : m_poolSize (this st1) = Page.capacity L) by now rewrite <- Hlay1.
  (* the next four come from the same page *)
  pose proof (exec_first_page [f2; f3; f4; f5] st1 F1 ({[A]} ∪ ∅) f1 (0 + 1)) as Hrun.
  cbv zeta in Hrun. rewrite Hlay1, Hc1 in Hrun. cbn [length] in Hrun.
  destruct (Hrun HL Hfr1) as (st5 & F5 & Hex5 & Hlay5 & Hfr5 & HF5 & Hf1A & _);
    [lia|]. clear Hrun.
  change (Page.slots_from L f1 (0 + 1) (Z.of_nat 4)) with [B; C; D; E] in Hex5, Hfr5.
  change (0 + 1 + Z.of_nat 4) with 5 in Hfr5, HF5.
  set (live5 := list_to_set [B; C; D; E] ∪ ({[A]} ∪ ∅) : gset Z) in *.
  destruct Hfr5 as (Hinv5 & _). rewrite Hlay5 in Hinv5.
  assert (Hinj : forall i j, Page.slot L f1 i = Page.slot L f1 j -> i = j)
    by (intros i j; apply (Page.slot_inj L HL)).
  (* deallocate B *)
  assert (HB5 : B ∈ live5) by (unfold live5; set_solver).
  pose proof (deallocate_spec st5 F5 live5 B) as Hd.
  cbv zeta in Hd. rewrite Hlay5 in Hd.
  destruct (Hd HL Hinv5 HB5) as (b & HbA & Hbs & _ & _ & _ & Hthis6 & Hcase6).
  clear Hd.
  assert (Hpages5 := Hinv5). destruct Hpages5 as (Hpages5 & _).
  destruct (Hpages5 b HbA) as (Hgb & _ & _).
  destruct (Hpages5 f1 Hf1A) as (_ & Hpinv5 & _).
  assert (b = f1).
  { eapply (Page.is_slot_page L HL); [exact Hgb|exact Hg1|exact Hbs|].
    exists 1. split; [lia|reflexivity]. }
  subst b.
  pose proof (page_occupied L _ _ _ Hpinv5) as Hocc5.
  rewrite HF5, Page.slots_from_length, Hoff in Hocc5 by lia.
  destruct (decide (Mem.load (heap st5) (f1 + off_occupiedSlots) = 1)) as [|_]; [lia|].
  set (st6 := deallocate PAGE_SIZE st5 B) in *.
  destruct Hcase6 as (HA6 & Hfp6 & _ & Hinv6).
  assert (Hlay6 : layout_of PAGE_SIZE (this st6) = L)
    by (rewrite Hthis6; exact Hlay5).
  set (F6 := <[f1 := B :: F5 f1]> F5) in *.
  (* deallocate E *)
  assert (HE6 : E ∈ live5 ∖ {[B]}).
  { apply elem_of_difference. split; [unfold live5; set_solver|].
    rewrite elem_of_singleton. intros HEB. apply Hinj in HEB. lia. }
  pose proof (deallocate_spec st6 F6 (live5 ∖ {[B]}) E) as Hd.
  cbv zeta in Hd. rewrite Hlay6 in Hd.
  destruct (Hd HL Hinv6 HE6) as (b & HbA' & Hbs' & _ & _ & _ & Hthis7 & Hcase7).
  clear Hd.
  assert (Hpages6 := Hinv6). destruct Hpages6 as (Hpages6 & _).
  destruct (Hpages6 b HbA') as (Hgb' & _ & _).
  assert (b = f1).
  { eapply (Page.is_slot_page L HL); [exact Hgb'|exact Hg1|exact Hbs'|].
    exists 4. split; [lia|reflexivity]. }
  subst b.
  destruct (Hpages6 f1 HbA') as (_ & Hpinv6 & _).
  pose proof (page_occupied L _ _ _ Hpinv6) as Hocc6.
  unfold F6 in Hocc6. rewrite fn_lookup_insert in Hocc6.
  cbn [length] in Hocc6.
  rewrite Nat2Z.inj_succ, HF5, Page.slots_from_length, Hoff in Hocc6 by lia.
  destruct (decide (Mem.load (heap st6) (f1 + off_occupiedSlots) = 1)) as [|_]; [lia|].
  set (st7 := deallocate PAGE_SIZE st6 E) in *.
  destruct Hcase7 as (HA7 & Hfp7 & _ & Hinv7).
  assert (Hlay7 : layout_of PAGE_SIZE (this st7) = L)
    by (rewrite Hthis7; exact Hlay6).
  set (F7 := <[f1 := E :: F6 f1]> F6) in *.
  assert (Hf10 : f1 <> 0) by (destruct Hg1; lia).
  (* allocate: the slot of E comes back *)
  assert (Hneed7 : needs_page st7 ->
            Page.good_page (layout_of PAGE_SIZE (this st7)) f6 /\ f6 ∉ allocated st7).
  { intros Hnp. exfalso. now apply (not_needs_page st7 f1 Hfp7 Hf10). }
  pose proof (allocate_spec st7 F7 ((live5 ∖ {[B]}) ∖ {[E]}) f6) as Ha.
  cbv zeta in Ha. rewrite Hlay7 in Ha. rewrite Hlay7 in Hneed7.
  destruct (Ha HL Hinv7 Hneed7)
    as (st8 & p8 & b8 & l8 & Hal8 & Hthis8 & Hinv8 & _ & _ & _ & Hcase8).
  clear Ha.
  destruct Hcase8 as [(_ & HF7 & _ & Hb8 & _ & Hfp8)|(_ & _ & _ & _ & Hz & _)];
    [|congruence].
  assert (b8 = f1) by (rewrite <- Hfp7; apply Hb8; congruence). subst b8.
  unfold F7 in HF7. rewrite fn_lookup_insert in HF7.
  unfold F6 in HF7. rewrite fn_lookup_insert in HF7.
  injection HF7 as <- <-.
  destruct (decide (B :: F5 f1 = [])) as [|_]; [discriminate|].
  rewrite Hfp7 in Hfp8.
  assert (Hlay8 : layout_of PAGE_SIZE (this st8) = L)
    by (rewrite Hthis8; exact Hlay7).
  (* allocate: the slot of B comes back *)
  assert (Hneed8 : needs_page st8 ->
            Page.good_page (layout_of PAGE_SIZE (this st8)) f7 /\ f7 ∉ allocated st8).
  { intros Hnp. exfalso. now apply (not_needs_page st8 f1 Hfp8 Hf10). }
  pose proof (allocate_spec st8 (<[f1 := B :: F5 f1]> F7)
                ({[E]} ∪ (live5 ∖ {[B]}) ∖ {[E]}) f7) as Ha.
  cbv zeta in Ha. rewrite Hlay8 in Ha. rewrite Hlay8 in Hneed8.
  destruct (Ha HL Hinv8 Hneed8)
    as (st9 & p9 & b9 & l9 & Hal9 & _ & _ & _ & _ & _ & Hcase9).
  clear Ha.
  destruct Hcase9 as [(_ & HF8 & _ & Hb9 & _)|(_ & _ & _ & _ & Hz & _)];
    [|congruence].
  assert (b9 = f1) by (rewrite <- Hfp8; apply Hb9; congruence). subst b9.
  rewrite fn_lookup_insert in HF8. injection HF8 as <- _.
  (* the run *)
  rewrite <- HLeq in Hneed0. rewrite <- Hlay7 in Hneed7. rewrite <- Hlay8 in Hneed8.
  exists st9, ({[B]} ∪ ({[E]} ∪ (live5 ∖ {[B]}) ∖ {[E]})).
  eapply exec_alloc; [exact Hneed0|exact Hal1|].
  change [B; C; D; E; E; B] with ([B; C; D; E] ++ [E; B]).
  change [Allocate f2; Allocate f3; Allocate f4; Allocate f5;
          Deallocate B; Deallocate E; Allocate f6; Allocate f7]
    with ((Allocate <$> [f2; f3; f4; f5])
          ++ [Deallocate B; Deallocate E; Allocate f6; Allocate f7]).
  eapply exec_app; [exact Hex5|].
  eapply exec_dealloc; [exact HB5|].
  eapply exec_dealloc; [exact HE6|].
  eapply exec_alloc; [exact Hneed7|exact Hal8|].
  eapply exec_alloc; [exact Hneed8|exact Hal9|].
  constructor.
Qed.

(** *** Pages are given back

    Between two calls every page holds at least one slot of a client. *)
Definition Inv1 (st : machine) (live : gset Z) : Prop :=
  exists F,
    Page.set_inv (layout_of PAGE_SIZE (this st)) F (heap st) (allocated st)
                 (m_freePools (this st)) (m_freePool (this st)) live /\
    forall b, b ∈ allocated st -> 1 <= Mem.load (heap st) (b + off_occupiedSlots).

Lemma Inv1_init h sizeofT alignofT : Inv1 (init PAGE_SIZE h sizeofT alignofT) ∅.
Proof.
  destruct (fresh_run_init h sizeofT alignofT) as (Hinv & _).
  exists (fun _ => []). split; [exact Hinv|].
  intros b Hb. cbn in Hb. exfalso. revert Hb. apply not_elem_of_empty.
Qed.

Lemma Inv1_allocate st live fresh st' p :
  Page.layout_ok (layout_of PAGE_SIZE (this st)) -> Inv1 st live ->
  (needs_page st ->
   Page.good_page (layout_of PAGE_SIZE (this st)) fresh /\ fresh ∉ allocated st) ->
  allocate st fresh = (st', p) ->
  Inv1 st' ({[p]} ∪ live).
Proof.
  intros HL (F & Hinv & Hocc) Hg Hal.
  destruct (allocate_spec st F live fresh HL Hinv Hg)
    as (st1 & p1 & b & l & Hal1 & Hthis & Hinv' & Hpl & Hps & Hp0 & Hcases).
  rewrite Hal in Hal1. injection Hal1 as <- <-.
  assert (Hlay : layout_of PAGE_SIZE (this st') = layout_of PAGE_SIZE (this st))
    by (rewrite Hthis; reflexivity).
  exists (<[b := l]> F). rewrite Hlay. split; [exact Hinv'|].
  intros b0 Hb0.
  pose proof (Page.set_inv_occupied _ _ _ _ _ _ _ b0 Hinv' Hb0) as Ho'.
  change (Page.occ_off (layout_of PAGE_SIZE (this st))) with off_occupiedSlots in Ho'.
  rewrite Ho'. clear Ho'.
  destruct (decide (b0 = b)) as [->|Hne].
  - rewrite fn_lookup_insert.
    destruct Hcases as [(HA & HFb & Hbfp & _)|(HA & -> & Hsl & _)].
    + rewrite HA in Hb0.
      pose proof (Page.set_inv_occupied _ _ _ _ _ _ _ b Hinv Hb0) as Ho.
      pose proof (Mem.load_range (heap st) (b + Page.occ_off (layout_of PAGE_SIZE (this st)))).
      rewrite HFb in Ho. cbn [length] in Ho. lia.
    + assert (Hlen : Z.of_nat (length (p :: l)) = Page.capacity (layout_of PAGE_SIZE (this st))).
      { rewrite Hsl. apply Page.slots_from_length.
        destruct HL as (? & ? & ? & ? & ? & ? & ? & ?). offsets. lia. }
      cbn [length] in Hlen. lia.
  - rewrite fn_lookup_insert_ne by congruence.
    assert (Hb0A : b0 ∈ allocated st).
    { destruct Hcases as [(HA & _)|(HA & -> & _)]; rewrite HA in Hb0; [exact Hb0|].
      apply elem_of_union in Hb0 as [Hb0|Hb0]; [|exact Hb0].
      apply elem_of_singleton in Hb0. contradiction. }
    pose proof (Page.set_inv_occupied _ _ _ _ _ _ _ b0 Hinv Hb0A) as Ho.
    change (Page.occ_off (layout_of PAGE_SIZE (this st))) with off_occupiedSlots in Ho.
    rewrite <- Ho. apply Hocc. exact Hb0A.
Qed.

Lemma Inv1_deallocate st live p :
  Page.layout_ok (layout_of PAGE_SIZE (this st)) -> Inv1 st live -> p ∈ live ->
  Inv1 (deallocate PAGE_SIZE st p) (live ∖ {[p]}).
Proof.
  intros HL (F & Hinv & Hocc) Hp.
  destruct (deallocate_spec st F live p HL Hinv Hp)
    as (b & HbA & Hps & Hpl & Hmask & Hocc1 & Hthis & Hcases).
  assert (Hlay : layout_of PAGE_SIZE (this (deallocate PAGE_SIZE st p))
                 = layout_of PAGE_SIZE (this st)) by (rewrite Hthis; reflexivity).
  destruct (decide (Mem.load (heap st) (b + off_occupiedSlots) = 1)) as [Hone|Hne].
  - destruct Hcases as (HA & Hh & Hinv' & _).
    exists F. rewrite Hlay. split; [exact Hinv'|].
    intros b0 Hb0. rewrite Hh. apply Hocc.
    rewrite HA in Hb0. apply elem_of_difference in Hb0. tauto.
  - destruct Hcases as (HA & _ & _ & Hinv').
    exists (<[b := p :: F b]> F). rewrite Hlay. split; [exact Hinv'|].
    intros b0 Hb0.
    pose proof (Page.set_inv_occupied _ _ _ _ _ _ _ b0 Hinv' Hb0) as Ho'.
    change (Page.occ_off (layout_of PAGE_SIZE (this st))) with off_occupiedSlots in Ho'.
    rewrite Ho'. clear Ho'. rewrite HA in Hb0.
    pose proof (Page.set_inv_occupied _ _ _ _ _ _ _ b0 Hinv Hb0) as Ho.
    change (Page.occ_off (layout_of PAGE_SIZE (this st))) with off_occupiedSlots in Ho.
    destruct (decide (b0 = b)) as [->|Hnb].
    + rewrite fn_lookup_insert. cbn [length]. lia.
    + rewrite fn_lookup_insert_ne by congruence. rewrite <- Ho. now apply Hocc.
Qed.

Lemma exec_Inv1 st live ops st' live' ps :
  exec PAGE_SIZE st live ops st' live' ps ->
  Page.layout_ok (layout_of PAGE_SIZE (this st)) -> Inv1 st live ->
  Inv1 st' live'.
Proof.
  induction 1 as [| st live fresh st1 p ops st' live' ps Hg Hal _ IH
                  | st live p ops st' live' ps Hp _ IH]; intros HL Hinv.
  - exact Hinv.
  - assert (Hinv0 : Inv st live) by (destruct Hinv as (F & ? & _); now exists F).
    destruct (Inv_allocate st live fresh st1 p HL Hinv0 Hg Hal) as (_ & Hlay & _).
    apply IH; [now rewrite Hlay|]. eapply Inv1_allocate; eassumption.
  - assert (Hinv0 : Inv st live) by (destruct Hinv as (F & ? & _); now exists F).
    destruct (Inv_deallocate st live p HL Hinv0 Hp) as (_ & Hlay).
    apply IH; [now rewrite Hlay|]. now apply Inv1_deallocate.
Qed.

End Proofs.

End LinkedPool.

(** ** [GlobalLinkedPool2] (linked_pool/GlobalLinkedPool2.h) *)

Module GlobalLinkedPool2.

Definition sizeof_NodeG2 : Z := 8.

(** [struct PoolHeaderG2 { char isPool[8]; size_t sizeOfPool;
    size_t sizeOfObjects; NodeG2 head; }] *)
Definition sizeof_PoolHeaderG2 : Z := 32.
Definition off_isPool : Z := 0.
Definition off_sizeOfPool : Z := 8.
Definition off_sizeOfObjects : Z := 16.
Definition off_head : Z := 24.

(** [PoolHeaderG2::IS_POOL], all eight bytes. *)
Definition IS_POOL : list Z := bytes_of_string "__pool_" ++ [0].

Record GlobalLinkedPool2 := mkGlobalLinkedPool2 {
  m_freePools : gset Z;
  m_sizeOfObjects : Z;
  m_poolSize : Z;
  m_freePool : Z
}.

Record machine := Machine {
  heap : gmap Z Z;
  allocated : gset Z;
  this : GlobalLinkedPool2
}.

Definition set_pools (lp : GlobalLinkedPool2) (fp : gset Z) (fpool : Z)
  : GlobalLinkedPool2 :=
  mkGlobalLinkedPool2 fp (m_sizeOfObjects lp) (m_poolSize lp) fpool.

(** [m_freePools.size() == 0 ? nullptr : *m_freePools.begin()] *)
Definition begin_or_null (fp : gset Z) : Z :=
  if (size fp =? 0)%nat then 0 else set_begin fp.

Section Pool.

Variable PAGE_SIZE : Z.

(** [GlobalLinkedPool2::GlobalLinkedPool2(size_t t_sizeOfObjects)] *)
Definition new_GlobalLinkedPool2 (t_sizeOfObjects : Z) : GlobalLinkedPool2 :=
  let m_sizeOfObjects :=
    if t_sizeOfObjects <? sizeof_NodeG2 then sizeof_NodeG2 else t_sizeOfObjects in
  let m_poolSize := to_size_t (PAGE_SIZE - sizeof_PoolHeaderG2) / m_sizeOfObjects in
  mkGlobalLinkedPool2 ∅ m_sizeOfObjects m_poolSize 0.

(** The default constructor, for objects of 8 bytes. *)
Definition new_GlobalLinkedPool2_default : GlobalLinkedPool2 :=
  mkGlobalLinkedPool2 ∅ 8 (to_size_t (PAGE_SIZE - sizeof_PoolHeaderG2) / 8) 0.

Definition nextFree (st : machine) (pool : Z) : machine * Z :=
  let lp := this st in
  let header := pool in
  let head := header + off_head in
  if negb (Mem.load (heap st) head =? 0) then
    let toReturn := Mem.load (heap st) head in
    (* head->next = head->next->next *)
    let h := Mem.store (heap st) head (Mem.load (heap st) toReturn) in
    (* ++(header->sizeOfPool) *)
    let occ := to_size_t (Mem.load h (header + off_sizeOfPool) + 1) in
    let h := Mem.store h (header + off_sizeOfPool) occ in
    if occ =? m_poolSize lp then
      let fp := m_freePools lp ∖ {[pool]} in
      (Machine h (allocated st) (set_pools lp fp (begin_or_null fp)), toReturn)
    else
      (Machine h (allocated st) lp, toReturn)
  else (st, Mem.load (heap st) head).

(** The metadata of a new pool (lines 121-133 of [allocate]). *)
Definition init_pool (lp : GlobalLinkedPool2) (h : gmap Z Z) (pool : Z) : gmap Z Z :=
  let header := pool in
  (* *header = PoolHeaderG2() *)
  let h := Mem.store_bytes h (header + off_isPool) IS_POOL in
  let h := Mem.store h (header + off_sizeOfPool) 0 in
  let h := Mem.store h (header + off_sizeOfObjects) 0 in
  let h := Mem.store h (header + off_head) 0 in
  let h := Mem.store h (header + off_sizeOfObjects) (m_sizeOfObjects lp) in
  let first := to_size_t (header + sizeof_PoolHeaderG2) in
  let h := Mem.store h (header + off_head) first in
  let '(h, first) :=
    Page.link_slots (Z.to_nat (to_size_t (m_poolSize lp - 1)))
                    (m_sizeOfObjects lp) h first in
  Mem.store h first 0.

(** [fresh] is the page [aligned_alloc] returns if it is called. *)
Definition allocate (st : machine) (fresh : Z) : machine * Z :=
  let lp := this st in
  if negb (m_freePool lp =? 0) then nextFree st (m_freePool lp)
  else if (0 <? size (m_freePools lp))%nat then nextFree st (set_begin (m_freePools lp))
  else
    let pool := fresh in
    let h := init_pool lp (heap st) pool in
    let fp := {[pool]} ∪ m_freePools lp in
    nextFree (Machine h ({[pool]} ∪ allocated st) (set_pools lp fp pool)) pool.

Definition deallocate (st : machine) (t_ptr : Z) : machine :=
  let lp := this st in
  (* *newNodeG = NodeG2() *)
  let h := Mem.store (heap st) t_ptr 0 in
  let pool := Z.land t_ptr (POOL_MASK PAGE_SIZE) in
  let head := pool + off_head in
  let h :=
    if Mem.load h head =? 0 then Mem.store h head t_ptr
    else
      let h := Mem.store h t_ptr (Mem.load h head) in
      Mem.store h head t_ptr in
  (* size_t newSize = --pool->sizeOfPool *)
  let newSize := to_size_t (Mem.load h (pool + off_sizeOfPool) - 1) in
  let h := Mem.store h (pool + off_sizeOfPool) newSize in
  if newSize =? 0 then
    (* pool is empty, let's free it! *)
    let fp := m_freePools lp ∖ {[pool]} in
    Machine h (allocated st ∖ {[pool]}) (set_pools lp fp (begin_or_null fp))
  else
    let fp :=
      if newSize =? to_size_t (m_poolSize lp - 1)
      then {[pool]} ∪ m_freePools lp
      else m_freePools lp in
    Machine h (allocated st) (set_pools lp fp pool).

Definition init (h : gmap Z Z) (t_sizeOfObjects : Z) : machine :=
  Machine h ∅ (new_GlobalLinkedPool2 t_sizeOfObjects).

Definition layout_of (lp : GlobalLinkedPool2) : Page.layout :=
  Page.Layout PAGE_SIZE off_sizeOfPool off_head sizeof_PoolHeaderG2
              (m_sizeOfObjects lp) (m_poolSize lp).

(** [allocate] calls [aligned_alloc] when there is neither a cached pool nor
    a pool registered as having a free slot. *)
Definition needs_page (st : machine) : Prop :=
  m_freePool (this st) = 0 /\ m_freePools (this st) = ∅.

Inductive op :=
| Allocate (fresh : Z)
| Deallocate (t_ptr : Z).

(** The calls [ops], made by clients that deallocate only slots they hold,
    answered by a system that hands out pages it has not handed out. *)
Inductive exec : machine -> gset Z -> list op -> machine -> gset Z -> list Z -> Prop :=
| exec_nil st live : exec st live [] st live []
| exec_alloc st live fresh st1 p ops st' live' ps :
    (needs_page st ->
     Page.good_page (layout_of (this st)) fresh /\ fresh ∉ allocated st) ->
    allocate st fresh = (st1, p) ->
    exec st1 ({[p]} ∪ live) ops st' live' ps ->
    exec st live (Allocate fresh :: ops) st' live' (p :: ps)
| exec_dealloc st live t_ptr ops st' live' ps :
    t_ptr ∈ live ->
    exec (deallocate st t_ptr) (live ∖ {[t_ptr]}) ops st' live' ps ->
    exec st live (Deallocate t_ptr :: ops) st' live' ps.

End Pool.

(** *** Correctness of the operations *)

Section Proofs.

Variable PAGE_SIZE : Z.
Variable lg : Z.
Hypothesis Hlg : 0 <= lg.
Hypothesis HPAGE : PAGE_SIZE = 2 ^ lg.

Ltac offsets :=
  cbn [Page.occ_off Page.head_off Page.first_off Page.slot_size Page.capacity
       Page.page_size layout_of] in *;
  unfold off_head, off_sizeOfPool, off_sizeOfObjects, off_isPool,
         sizeof_PoolHeaderG2, sizeof_NodeG2 in *.

Lemma glp2_capacity_small lp b :
  Page.layout_ok (layout_of PAGE_SIZE lp) -> Page.good_page (layout_of PAGE_SIZE lp) b ->
  m_poolSize lp < 2 ^ SIZE_BITS.
Proof.
  intros (? & ? & ? & ? & ? & ? & ? & ?) (? & ? & ?). offsets. nia.
Qed.

Lemma begin_or_null_elem (fp : gset Z) : begin_or_null fp = 0 \/ begin_or_null fp ∈ fp.
Proof.
  unfold begin_or_null. destruct (size fp =? 0)%nat; [now left|].
  apply set_begin_or_null.
Qed.

Lemma glp2_slot_page lp b p :
  Page.layout_ok (layout_of PAGE_SIZE lp) ->
  Page.good_page (layout_of PAGE_SIZE lp) b ->
  Page.is_slot (layout_of PAGE_SIZE lp) b p ->
  getPoolHeader PAGE_SIZE p = b.
Proof.
  intros HL Hg Hps.
  pose proof (Page.slot_bounds _ HL b p Hps) as Hpb.
  destruct HL as (? & ? & ? & ? & ? & ? & ? & ?).
  destruct Hg as (Hb0 & Hbhi & Hbal).
  offsets. rewrite HPAGE in *. apply getPoolHeader_page; lia.
Qed.

Lemma glp2_nextFree_spec st F live b :
  let L := layout_of PAGE_SIZE (this st) in
  Page.layout_ok L ->
  Page.set_inv L F (heap st) (allocated st) (m_freePools (this st))
               (m_freePool (this st)) live ->
  b ∈ m_freePools (this st) ->
  exists x l st',
    nextFree st b = (st', x) /\ F b = x :: l /\
    this st' = set_pools (this st) (m_freePools (this st')) (m_freePool (this st')) /\
    allocated st' = allocated st /\
    Page.set_inv L (<[b := l]> F) (heap st') (allocated st')
                 (m_freePools (this st')) (m_freePool (this st'))
                 ({[x]} ∪ live) /\
    (x ∉ live) /\ Page.is_slot L b x /\ x <> 0.
Proof.
  intros L HL Hinv Hb.
  assert (Hinv0 := Hinv). destruct Hinv0 as (Hpages & Hsub & Hfpool & Hlive).
  assert (HbA : b ∈ allocated st) by set_solver.
  destruct (Hpages b HbA) as (Hg & Hpinv & Hbfp).
  destruct (F b) as [|x l] eqn:HFb; [exfalso; now apply Hbfp|].
  assert (Hpinv0 := Hpinv).
  destruct Hpinv0 as (Hfl & Hnd & Hall & Hocc).
  simpl in Hfl. destruct Hfl as (Hhd & Hx0 & Hfl).
  apply Forall_cons in Hall as [Hxs Hall].
  pose proof (Page.slot_bounds L HL b x Hxs) as Hxb.
  pose proof (glp2_capacity_small (this st) b HL Hg) as Hcap.
  assert (HLc := HL). destruct HLc as (? & ? & ? & ? & ? & ? & ? & ?).
  pose proof (Mem.load_range (heap st) x) as Hrx.
  pose proof (Mem.load_range (heap st) (b + 8)) as Hrb.
  subst L. offsets.
  simpl length in Hocc.
  set (h1 := Mem.store (heap st) (b + 24) (Mem.load (heap st) x)).
  assert (Hocc1 : Mem.load h1 (b + 8) = Mem.load (heap st) (b + 8)).
  { unfold h1. rewrite Mem.load_store_ne by lia. reflexivity. }
  set (occ := to_size_t (Mem.load h1 (b + 8) + 1)).
  assert (Hoccv : occ = Mem.load (heap st) (b + 8) + 1).
  { unfold occ. rewrite Hocc1. apply to_size_t_small. lia. }
  set (h2 := Mem.store h1 (b + 8) occ).
  assert (Hfr : Page.frame (fun a => b <= a < b + 32) (heap st) h2).
  { eapply Page.frame_trans; apply Page.frame_store; intros a Ha; simpl; lia. }
  assert (Hh2head : Mem.load h2 (b + 24) = Mem.load (heap st) x).
  { unfold h2, h1. rewrite Mem.load_store_ne by lia.
    rewrite Mem.load_store_eq. apply to_size_t_small. exact Hrx. }
  assert (Hh2occ : Mem.load h2 (b + 8) = Mem.load (heap st) (b + 8) + 1).
  { unfold h2. rewrite Mem.load_store_eq. rewrite Hoccv.
    apply to_size_t_small. lia. }
  set (fp' := if decide (Mem.load h2 (b + 8) = m_poolSize (this st))
              then m_freePools (this st) ∖ {[b]} else m_freePools (this st)).
  set (fpool' := if decide (Mem.load h2 (b + 8) = m_poolSize (this st))
                 then begin_or_null fp' else m_freePool (this st)).
  exists x, l, (Machine h2 (allocated st) (set_pools (this st) fp' fpool')).
  assert (Hrun : nextFree st b =
                 (Machine h2 (allocated st) (set_pools (this st) fp' fpool'), x)).
  { unfold nextFree. offsets. rewrite Hhd.
    destruct (Z.eqb_spec x 0) as [|_]; [contradiction|]. cbn [negb].
    fold h1. fold occ. fold h2.
    unfold fpool', fp'. rewrite Hh2occ, <- Hoccv.
    destruct (Z.eqb_spec occ (m_poolSize (this st))) as [E|E];
      destruct (decide (occ = m_poolSize (this st))) as [E'|E']; try contradiction.
    - reflexivity.
    - destruct (this st); reflexivity. }
  split; [exact Hrun|]. split; [reflexivity|].
  split; [reflexivity|]. split; [reflexivity|].
  cbn [heap allocated this set_pools m_freePools m_freePool].
  assert (Hpop := Page.set_inv_pop (layout_of PAGE_SIZE (this st)) HL F (heap st) h2
                 (allocated st) (m_freePools (this st)) fp' (m_freePool (this st))
                 fpool' live b x l Hinv HbA HFb).
  offsets.
  destruct Hpop as (Hinv' & Hxl & _); try assumption.
  - reflexivity.
  - unfold fpool', fp'. destruct (decide _); [apply begin_or_null_elem|exact Hfpool].
  - split; [exact Hinv'|]. split; [exact Hxl|]. split; [exact Hxs|exact Hx0].
Qed.

Lemma init_pool_spec lp h b :
  let L := layout_of PAGE_SIZE lp in
  Page.layout_ok L -> Page.good_page L b ->
  Page.frame (fun a => b <= a < b + PAGE_SIZE) h (init_pool lp h b) /\
  Page.page_inv L (init_pool lp h b) b (Page.slots_from L b 0 (m_poolSize lp)) /\
  Mem.load_bytes 8 (init_pool lp h b) (b + off_isPool) = IS_POOL /\
  Mem.load (init_pool lp h b) (b + off_sizeOfObjects) = m_sizeOfObjects lp.
Proof.
  intros L HL Hg.
  assert (HLc := HL). destruct HLc as (? & ? & ? & ? & ? & ? & ? & ?).
  assert (Hgc := Hg). destruct Hgc as (Hb0 & Hbhi & _).
  subst L. offsets.
  unfold init_pool. offsets.
  assert (Hf1 : to_size_t (b + 32) = b + 32) by (apply to_size_t_small; nia).
  rewrite Hf1.
  set (first := b + 32).
  assert (Hn : Z.of_nat (Z.to_nat (to_size_t (m_poolSize lp - 1))) = m_poolSize lp - 1).
  { rewrite to_size_t_small by nia. lia. }
  set (h0 := Mem.store_bytes h (b + 0) IS_POOL).
  set (h3 := Mem.store (Mem.store (Mem.store (Mem.store (Mem.store h0
               (b + 8) 0) (b + 16) 0) (b + 24) 0) (b + 16) (m_sizeOfObjects lp))
               (b + 24) first).
  destruct (Page.link_slots _ _ h3 first) as [h4 last] eqn:Hlink.
  assert (Hr : first + Z.of_nat (Z.to_nat (to_size_t (m_poolSize lp - 1)))
                       * m_sizeOfObjects lp < 2 ^ SIZE_BITS)
    by (rewrite Hn; unfold first; nia).
  assert (Hfirst0 : 0 <= first) by (unfold first; lia).
  pose proof (Page.link_slots_frame _ _ _ _ _ _ ltac:(eassumption) Hfirst0 Hr Hlink) as Hfr4.
  destruct (Page.link_slots_spec _ _ _ _ _ _ ltac:(eassumption) Hfirst0 Hr Hlink)
    as (Hlast & Hlinks & _).
  rewrite Hn in Hfr4, Hlast, Hlinks.
  set (h5 := Mem.store h4 last 0).
  assert (Hfr03 : Page.frame (fun a => b + 8 <= a < b + 32) h0 h3).
  { unfold h3.
    do 5 (eapply Page.frame_trans;
          [|apply Page.frame_store; intros a Ha; simpl; lia]).
    apply Page.frame_refl. }
  assert (Hfr : Page.frame (fun a => b <= a < b + PAGE_SIZE) h h5).
  { apply Page.frame_trans with h4.
    - apply Page.frame_trans with h3.
      + apply Page.frame_trans with h0.
        * unfold h0. apply Page.frame_store_bytes. intros a Ha. simpl.
          change (Z.of_nat (length IS_POOL)) with 8 in Ha. nia.
        * eapply Page.frame_weaken; [|exact Hfr03]. intros a Ha. simpl in *. nia.
      + eapply Page.frame_weaken; [|exact Hfr4].
        intros a Ha. simpl in *. unfold first in *. nia.
    - unfold h5. apply Page.frame_store. intros a Ha. simpl.
      unfold first in *. nia. }
  split; [exact Hfr|].
  assert (Hup : forall a, a + 8 <= first -> Mem.load h5 a = Mem.load h3 a).
  { intros a Ha. unfold h5. rewrite Mem.load_store_ne by (unfold first in *; nia).
    apply (Page.frame_load _ h3 h4 a Hfr4). intros a' Ha'. simpl. lia. }
  assert (Hhead : Mem.load h5 (b + 24) = first).
  { rewrite Hup by (unfold first; lia).
    unfold h3. rewrite Mem.load_store_eq. apply to_size_t_small. unfold first. nia. }
  assert (Hocc : Mem.load h5 (b + 8) = 0).
  { rewrite Hup by (unfold first; lia).
    unfold h3. rewrite !Mem.load_store_ne by lia.
    rewrite Mem.load_store_eq. reflexivity. }
  split; [split; [|split; [|split]]|split].
  - offsets. rewrite Hhead.
    assert (Hfl : Page.flist h5 (Page.slot (layout_of PAGE_SIZE lp) b 0)
              (Page.slots_from (layout_of PAGE_SIZE lp) b 0
                 (Z.of_nat (Z.to_nat (m_poolSize lp - 1)) + 1))).
    { apply (Page.flist_slots _ HL); [exact Hg|lia| |].
      - intros j Hj. unfold h5.
        assert (Hsj : Page.slot (layout_of PAGE_SIZE lp) b j = first + j * m_sizeOfObjects lp)
          by (unfold Page.slot, first; offsets; lia).
        rewrite Hsj. rewrite Mem.load_store_ne by nia.
        rewrite Hlinks by lia. unfold Page.slot, first. offsets. lia.
      - unfold h5.
        replace (Page.slot (layout_of PAGE_SIZE lp) b (0 + Z.of_nat (Z.to_nat (m_poolSize lp - 1))))
          with last by (unfold Page.slot, first in *; offsets; nia).
        rewrite Mem.load_store_eq. reflexivity. }
    replace (Z.of_nat (Z.to_nat (m_poolSize lp - 1)) + 1) with (m_poolSize lp) in Hfl by lia.
    replace (Page.slot (layout_of PAGE_SIZE lp) b 0) with first in Hfl
      by (unfold Page.slot, first; offsets; lia).
    exact Hfl.
  - apply (Page.slots_from_NoDup _ HL).
  - apply Page.slots_from_is_slot; offsets; lia.
  - offsets. rewrite Hocc. rewrite Page.slots_from_length by lia. lia.
  - transitivity (Mem.load_bytes 8 h0 (b + 0)).
    + apply Mem.load_bytes_ext. intros i Hi. change (Z.of_nat 8) with 8 in Hi.
      unfold h5. rewrite Mem.load8_store_out by (unfold first in *; nia).
      rewrite (Hfr4 i) by (unfold first; lia).
      apply Hfr03. lia.
    + unfold h0. apply (Mem.load_bytes_store_bytes IS_POOL).
      repeat constructor; cbv; intuition discriminate.
  - rewrite Hup by (unfold first; lia).
    unfold h3. rewrite Mem.load_store_ne by lia.
    rewrite Mem.load_store_eq. apply to_size_t_small. nia.
Qed.

Definition Inv (st : machine) (live : gset Z) : Prop :=
  exists F,
    Page.set_inv (layout_of PAGE_SIZE (this st)) F (heap st) (allocated st)
                 (m_freePools (this st)) (m_freePool (this st)) live.

Lemma glp2_Inv_init h t_sizeOfObjects : Inv (init PAGE_SIZE h t_sizeOfObjects) ∅.
Proof.
  exists (fun _ => []). cbn. split; [|split; [|split]].
  - intros b Hb. set_solver.
  - set_solver.
  - now left.
  - intros p. split; [set_solver|]. intros (b & Hb & _). set_solver.
Qed.

Lemma glp2_allocate_spec st F live fresh :
  let L := layout_of PAGE_SIZE (this st) in
  Page.layout_ok L ->
  Page.set_inv L F (heap st) (allocated st) (m_freePools (this st))
               (m_freePool (this st)) live ->
  (needs_page st -> Page.good_page L fresh /\ fresh ∉ allocated st) ->
  exists st' p b l,
    allocate st fresh = (st', p) /\
    this st' = set_pools (this st) (m_freePools (this st')) (m_freePool (this st')) /\
    Page.set_inv L (<[b := l]> F) (heap st') (allocated st')
                 (m_freePools (this st')) (m_freePool (this st'))
                 ({[p]} ∪ live) /\
    (p ∉ live) /\ Page.is_slot L b p /\ p <> 0 /\ b ∈ allocated st' /\
    (allocated st' = allocated st \/ allocated st' = {[fresh]} ∪ allocated st).
Proof.
  intros L HL Hinv Hneed.
  assert (Hinv0 := Hinv). destruct Hinv0 as (Hpages & Hsub & Hfpool & Hlive).
  unfold allocate.
  destruct (Z.eqb_spec (m_freePool (this st)) 0) as [Hc0|Hc]; cbn [negb].
  2:{ destruct Hfpool as [|Hin]; [contradiction|].
    destruct (glp2_nextFree_spec st F live _ HL Hinv Hin)
      as (x & l & st' & Hrun & HFb & Hthis & HA & Hinv' & Hxl & Hxs & Hx0).
    exists st', x, (m_freePool (this st)), l.
    repeat (split; [assumption|]). split; [rewrite HA; set_solver|]. now left. }
  destruct (Nat.ltb_spec 0 (size (m_freePools (this st)))) as [Hsz|Hsz].
  { assert (Hne : m_freePools (this st) <> ∅).
    { intros E. rewrite E in Hsz. rewrite size_empty in Hsz. lia. }
    pose proof (set_begin_elem _ Hne) as Hin.
    destruct (glp2_nextFree_spec st F live _ HL Hinv Hin)
      as (x & l & st' & Hrun & HFb & Hthis & HA & Hinv' & Hxl & Hxs & Hx0).
    exists st', x, (set_begin (m_freePools (this st))), l.
    repeat (split; [assumption|]). split; [rewrite HA; set_solver|]. now left. }
  assert (Hempty : m_freePools (this st) = ∅).
  { assert (Hz : size (m_freePools (this st)) = 0%nat) by lia.
    apply size_empty_inv in Hz. now apply leibniz_equiv in Hz. }
  destruct (Hneed (conj Hc0 Hempty)) as (Hfresh & HfA).
  destruct (init_pool_spec (this st) (heap st) fresh HL Hfresh) as (Hfr & Hpinv & _).
  set (h1 := init_pool (this st) (heap st) fresh) in *.
  set (st1 := Machine h1 ({[fresh]} ∪ allocated st)
                (set_pools (this st) ({[fresh]} ∪ m_freePools (this st)) fresh)).
  pose proof (Page.set_inv_construct L HL F (heap st) h1 (allocated st)
               (m_freePools (this st)) (m_freePool (this st)) live fresh
               Hinv HfA Hfresh Hfr Hpinv) as Hinv1.
  set (F1 := <[fresh := Page.slots_from L fresh 0 (Page.capacity L)]> F) in *.
  assert (Hin1 : fresh ∈ m_freePools (this st1)) by (cbn; set_solver).
  destruct (glp2_nextFree_spec st1 F1 live fresh HL Hinv1 Hin1)
    as (x & l & st' & Hrun & HFb & Hthis & HA & Hinv' & Hxl & Hxs & Hx0).
  exists st', x, fresh, l.
  split; [exact Hrun|].
  split; [rewrite Hthis; destruct (this st); reflexivity|].
  split.
  { eapply Page.set_inv_ext; [|exact Hinv'].
    intros b0. unfold F1. destruct (decide (b0 = fresh)) as [->|Hne].
    - now rewrite !fn_lookup_insert.
    - now rewrite !fn_lookup_insert_ne by congruence. }
  repeat (split; [assumption|]).
  split; [rewrite HA; cbn; set_solver|]. right. exact HA.
Qed.

Lemma glp2_deallocate_spec st F live p :
  let L := layout_of PAGE_SIZE (this st) in
  Page.layout_ok L ->
  Page.set_inv L F (heap st) (allocated st) (m_freePools (this st))
               (m_freePool (this st)) live ->
  p ∈ live ->
  exists b,
    b ∈ allocated st /\ Page.is_slot L b p /\ (p ∉ F b) /\
    getPoolHeader PAGE_SIZE p = b /\
    1 <= Mem.load (heap st) (b + off_sizeOfPool) /\
    let st' := deallocate PAGE_SIZE st p in
    this st' = set_pools (this st) (m_freePools (this st')) (m_freePool (this st')) /\
    Mem.load (heap st') (b + off_sizeOfPool)
      = Mem.load (heap st) (b + off_sizeOfPool) - 1 /\
    if decide (Mem.load (heap st') (b + off_sizeOfPool) = 0)
    then
      allocated st' = allocated st ∖ {[b]} /\
      Page.set_inv L F (heap st') (allocated st') (m_freePools (this st'))
                   (m_freePool (this st')) (live ∖ {[p]}) /\
      (forall q, q ∈ live ∖ {[p]} -> ~ Page.is_slot L b q)
    else
      allocated st' = allocated st /\
      m_freePool (this st') = b /\
      Page.set_inv L (<[b := p :: F b]> F) (heap st') (allocated st')
                   (m_freePools (this st')) (m_freePool (this st'))
                   (live ∖ {[p]}).
Proof.
  intros L HL Hinv Hp.
  destruct (Page.set_inv_live_page L F _ _ _ _ _ _ Hinv Hp) as (b & HbA & Hg & Hps & Hpl).
  assert (Hinv0 := Hinv). destruct Hinv0 as (Hpages & Hsub & Hfpool & Hlive).
  destruct (Hpages b HbA) as (_ & Hpinv & Hbfp).
  pose proof (Page.slot_bounds L HL b p Hps) as Hpb.
  pose proof (Page.live_slot_occupied L HL _ _ _ _ Hpinv Hps Hpl) as Hocc1.
  pose proof (glp2_capacity_small (this st) b HL Hg) as Hcap.
  pose proof (glp2_slot_page (this st) b p HL Hg Hps) as Hmask.
  assert (HLc := HL). destruct HLc as (? & ? & ? & ? & ? & ? & ? & ?).
  assert (Hgc := Hg). destruct Hgc as (Hb0 & Hbhi & Hbal).
  exists b. repeat (split; [assumption|]).
  unfold deallocate. unfold getPoolHeader in Hmask. rewrite Hmask.
  assert (Hpinv0 := Hpinv). destruct Hpinv0 as (_ & _ & _ & Hocc).
  pose proof (Mem.load_range (heap st) (b + 24)) as Hrh.
  subst L. offsets.
  set (h1 := Mem.store (heap st) p 0).
  assert (Hh1 : Mem.load h1 (b + 24) = Mem.load (heap st) (b + 24)).
  { unfold h1. rewrite Mem.load_store_ne by lia. reflexivity. }
  rewrite Hh1.
  set (h3 := if Mem.load (heap st) (b + 24) =? 0 then Mem.store h1 (b + 24) p
             else Mem.store (Mem.store h1 p (Mem.load (heap st) (b + 24))) (b + 24) p).
  assert (Hh3fr : Page.frame (fun a => b <= a < b + 32 \/ p <= a < p + 8) (heap st) h3).
  { unfold h3, h1. destruct (_ =? 0);
      repeat (eapply Page.frame_trans;
              [|apply Page.frame_store; intros a Ha; simpl; lia]);
      apply Page.frame_refl. }
  assert (Hh3head : Mem.load h3 (b + 24) = p).
  { unfold h3. destruct (_ =? 0); rewrite Mem.load_store_eq;
      apply to_size_t_small; lia. }
  assert (Hh3p : Mem.load h3 p = Mem.load (heap st) (b + 24)).
  { unfold h3, h1. destruct (Z.eqb_spec (Mem.load (heap st) (b + 24)) 0) as [E|E].
    - rewrite Mem.load_store_ne by lia. rewrite Mem.load_store_eq. now rewrite E.
    - rewrite Mem.load_store_ne by lia. rewrite Mem.load_store_eq.
      apply to_size_t_small. lia. }
  assert (Hh3occ : Mem.load h3 (b + 8) = Mem.load (heap st) (b + 8)).
  { unfold h3, h1. destruct (_ =? 0); rewrite !Mem.load_store_ne by lia; reflexivity. }
  rewrite Hh3occ.
  assert (Hoccv : to_size_t (Mem.load (heap st) (b + 8) - 1)
                  = Mem.load (heap st) (b + 8) - 1)
    by (apply to_size_t_small; lia).
  rewrite Hoccv.
  set (h4 := Mem.store h3 (b + 8) (Mem.load (heap st) (b + 8) - 1)).
  assert (Hh4occ : Mem.load h4 (b + 8) = Mem.load (heap st) (b + 8) - 1).
  { unfold h4. rewrite Mem.load_store_eq. exact Hoccv. }
  assert (Hh4fr : Page.frame (fun a => b <= a < b + 32 \/ p <= a < p + 8) (heap st) h4).
  { eapply Page.frame_trans; [exact Hh3fr|].
    apply Page.frame_store. intros a Ha. simpl. lia. }
  assert (Hcap1 : to_size_t (m_poolSize (this st) - 1) = m_poolSize (this st) - 1)
    by (apply to_size_t_small; lia).
  rewrite Hcap1.
  destruct (Z.eqb_spec (Mem.load (heap st) (b + 8) - 1) 0) as [Hz|Hnz];
    cbn [heap allocated this set_pools m_freePools m_freePool];
    (split; [reflexivity|]); (split; [exact Hh4occ|]);
    rewrite Hh4occ;
    destruct (decide (Mem.load (heap st) (b + 8) - 1 = 0)) as [Hd|Hd];
    try contradiction.
  - split; [reflexivity|].
    eapply (Page.set_inv_release (layout_of PAGE_SIZE (this st)) HL);
      try eassumption.
    + offsets. lia.
    + eapply Page.frame_weaken; [|exact Hh4fr]. intros a Ha. simpl in *. offsets. lia.
    + reflexivity.
    + apply begin_or_null_elem.
  - split; [reflexivity|]. split; [reflexivity|].
    assert (Hfp : (if Mem.load (heap st) (b + 8) - 1 =? m_poolSize (this st) - 1
                   then {[b]} ∪ m_freePools (this st)
                   else m_freePools (this st))
                  = (if decide (Mem.load h4 (b + 8) = m_poolSize (this st) - 1)
                     then {[b]} ∪ m_freePools (this st) else m_freePools (this st))).
    { destruct (Z.eqb_spec (Mem.load (heap st) (b + 8) - 1) (m_poolSize (this st) - 1));
        destruct (decide (Mem.load h4 (b + 8) = m_poolSize (this st) - 1));
        try reflexivity; exfalso; lia. }
    rewrite Hfp.
    assert (Hpush := Page.set_inv_push (layout_of PAGE_SIZE (this st)) HL F (heap st) h4
               (allocated st) (m_freePools (this st))
               (if decide (Mem.load h4 (b + 8) = m_poolSize (this st) - 1)
                then {[b]} ∪ m_freePools (this st) else m_freePools (this st))
               (m_freePool (this st)) live b p Hinv Hp HbA Hps).
    offsets. apply Hpush.
    + exact Hh4fr.
    + unfold h4. rewrite Mem.load_store_ne by lia. exact Hh3head.
    + unfold h4. rewrite Mem.load_store_ne by lia. exact Hh3p.
    + exact Hh4occ.
    + reflexivity.
Qed.

Lemma glp2_Inv_allocate st live fresh st' p :
  Page.layout_ok (layout_of PAGE_SIZE (this st)) -> Inv st live ->
  (needs_page st ->
   Page.good_page (layout_of PAGE_SIZE (this st)) fresh /\ fresh ∉ allocated st) ->
  allocate st fresh = (st', p) ->
  Inv st' ({[p]} ∪ live) /\
  layout_of PAGE_SIZE (this st') = layout_of PAGE_SIZE (this st) /\
  (p ∉ live) /\ p <> 0 /\ allocated st ⊆ allocated st'.
Proof.
  intros HL (F & Hinv) Hg Hal.
  destruct (glp2_allocate_spec st F live fresh HL Hinv Hg)
    as (st1 & p1 & b & l & Hal1 & Hthis & Hinv' & Hpl & Hps & Hp0 & HbA & HA).
  rewrite Hal in Hal1. injection Hal1 as <- <-.
  assert (Hlay : layout_of PAGE_SIZE (this st') = layout_of PAGE_SIZE (this st))
    by (rewrite Hthis; reflexivity).
  split; [exists (<[b := l]> F); rewrite Hlay; exact Hinv'|].
  split; [exact Hlay|]. split; [exact Hpl|]. split; [exact Hp0|].
  destruct HA as [-> | ->]; set_solver.
Qed.

Lemma glp2_Inv_deallocate st live p :
  Page.layout_ok (layout_of PAGE_SIZE (this st)) -> Inv st live -> p ∈ live ->
  Inv (deallocate PAGE_SIZE st p) (live ∖ {[p]}) /\
  layout_of PAGE_SIZE (this (deallocate PAGE_SIZE st p)) = layout_of PAGE_SIZE (this st).
Proof.
  intros HL (F & Hinv) Hp.
  destruct (glp2_deallocate_spec st F live p HL Hinv Hp)
    as (b & HbA & Hps & Hpl & Hmask & Hocc & Hthis & Hcnt & Hcases).
  assert (Hlay : layout_of PAGE_SIZE (this (deallocate PAGE_SIZE st p))
                 = layout_of PAGE_SIZE (this st)) by (rewrite Hthis; reflexivity).
  split; [|exact Hlay]. rewrite <- Hlay in Hcases.
  destruct (decide _).
  - destruct Hcases as (_ & Hinv' & _). now exists F.
  - destruct Hcases as (_ & _ & Hinv'). now exists (<[b := p :: F b]> F).
Qed.

Lemma glp2_exec_Inv st live ops st' live' ps :
  exec PAGE_SIZE st live ops st' live' ps ->
  Page.layout_ok (layout_of PAGE_SIZE (this st)) -> Inv st live ->
  Inv st' live' /\
  layout_of PAGE_SIZE (this st') = layout_of PAGE_SIZE (this st).
Proof.
  induction 1 as [| st live fresh st1 p ops st' live' ps Hg Hal _ IH
                  | st live p ops st' live' ps Hp _ IH]; intros HL Hinv.
  - auto.
  - destruct (glp2_Inv_allocate st live fresh st1 p HL Hinv Hg Hal) as (Hinv1 & Hlay & _).
    rewrite <- Hlay in HL. destruct (IH HL Hinv1) as (Hinv' & Hlay').
    split; [exact Hinv'|congruence].
  - destruct (glp2_Inv_deallocate st live p HL Hinv Hp) as (Hinv1 & Hlay).
    rewrite <- Hlay in HL. destruct (IH HL Hinv1) as (Hinv' & Hlay').
    split; [exact Hinv'|congruence].
Qed.

(** The constructor leaves room for every slot it counts. *)
Lemma new_layout_ok t_sizeOfObjects :
  PAGE_SIZE < 2 ^ SIZE_BITS ->
  (if t_sizeOfObjects <? sizeof_NodeG2 then sizeof_NodeG2 else t_sizeOfObjects)
    + sizeof_PoolHeaderG2 <= PAGE_SIZE ->
  Page.layout_ok (layout_of PAGE_SIZE (new_GlobalLinkedPool2 PAGE_SIZE t_sizeOfObjects)).
Proof.
  intros Hlt Hfit. unfold new_GlobalLinkedPool2, Page.layout_ok. offsets.
  cbn [m_sizeOfObjects m_poolSize].
  set (s := if t_sizeOfObjects <? 8 then 8 else t_sizeOfObjects) in *.
  assert (Hs : 8 <= s) by (unfold s; destruct (Z.ltb_spec t_sizeOfObjects 8); lia).
  rewrite to_size_t_small by lia.
  assert (Hq : 1 <= (PAGE_SIZE - 32) / s).
  { apply Z.div_le_lower_bound; lia. }
  pose proof (Z.mul_div_le (PAGE_SIZE - 32) s ltac:(lia)).
  repeat split; try lia.
Qed.

(** Pages are given back by [deallocate] only, and only the page of the
    slot deallocated, exactly when its counter drops to 0; no slot of that
    page is then held by a client. *)
Lemma release_spec st live p :
  Page.layout_ok (layout_of PAGE_SIZE (this st)) -> Inv st live -> p ∈ live ->
  let b := getPoolHeader PAGE_SIZE p in
  let st' := deallocate PAGE_SIZE st p in
  b ∈ allocated st /\
  1 <= Mem.load (heap st) (b + off_sizeOfPool) /\
  Mem.load (heap st') (b + off_sizeOfPool)
    = Mem.load (heap st) (b + off_sizeOfPool) - 1 /\
  (forall b', b' ∈ allocated st ->
     (b' ∉ allocated st' <-> b' = b /\ Mem.load (heap st') (b + off_sizeOfPool) = 0)) /\
  allocated st' ⊆ allocated st /\
  (b ∉ allocated st' ->
   forall q, q ∈ live -> q <> p -> getPoolHeader PAGE_SIZE q <> b).
Proof.
  intros HL (F & Hinv) Hp b st'.
  destruct (glp2_deallocate_spec st F live p HL Hinv Hp)
    as (b0 & HbA & Hps & Hpl & Hmask & Hocc & Hthis & Hcnt & Hcases).
  subst b st'. rewrite Hmask.
  split; [exact HbA|]. split; [exact Hocc|]. split; [exact Hcnt|].
  destruct (decide (Mem.load (heap (deallocate PAGE_SIZE st p)) (b0 + off_sizeOfPool) = 0))
    as [Hz|Hnz].
  - destruct Hcases as (HA & _ & Hnone). rewrite HA.
    split; [|split].
    + intros b' Hb'. rewrite elem_of_difference, elem_of_singleton. split.
      * intros Hn. split; [|exact Hz].
        destruct (decide (b' = b0)); [assumption|]. exfalso. apply Hn. now split.
      * intros (-> & _) (_ & Hne). now apply Hne.
    + intros x Hx. apply elem_of_difference in Hx. tauto.
    + intros _ q Hq Hqp Hsame.
      destruct (Page.set_inv_live_page _ F _ _ _ _ _ _ Hinv Hq)
        as (bq & HbqA & Hgq & Hqs & _).
      rewrite (glp2_slot_page (this st) bq q HL Hgq Hqs) in Hsame. subst bq.
      apply (Hnone q); [|exact Hqs].
      apply elem_of_difference. split; [exact Hq|].
      rewrite elem_of_singleton. exact Hqp.
  - destruct Hcases as (HA & _). rewrite HA.
    split; [|split].
    + intros b' Hb'. split; [contradiction|]. intros (_ & Hz). contradiction.
    + intros x Hx. exact Hx.
    + intros Hn. contradiction.
Qed.

(** *** What the operations write

    [nextFree] writes the counter and the head of the page it is given,
    [deallocate] those of the page of its argument and the first word of the
    slot; nothing else is written.  These facts need no invariant. *)

(** The page [allocate] takes the slot from. *)
Definition alloc_page (st : machine) (fresh : Z) : Z :=
  if negb (m_freePool (this st) =? 0) then m_freePool (this st)
  else if (0 <? size (m_freePools (this st)))%nat then set_begin (m_freePools (this st))
  else fresh.

(** The counter and the head of the header at [b]. *)
Definition header_fields (b a : Z) : Prop :=
  b + off_sizeOfPool <= a < b + off_sizeOfPool + 8 \/
  b + off_head <= a < b + off_head + 8.

Lemma glp2_nextFree_frame st b :
  Page.frame (header_fields b) (heap st) (heap (fst (nextFree st b))) /\
  allocated (fst (nextFree st b)) = allocated st /\
  m_sizeOfObjects (this (fst (nextFree st b))) = m_sizeOfObjects (this st) /\
  m_poolSize (this (fst (nextFree st b))) = m_poolSize (this st).
Proof.
  unfold nextFree, header_fields.
  destruct (negb (Mem.load (heap st) (b + off_head) =? 0)); cbn [fst];
    [|split; [apply Page.frame_refl|repeat split]].
  destruct (_ =? m_poolSize (this st)); cbn [fst heap allocated this set_pools
                                           m_sizeOfObjects m_poolSize];
    (split; [|repeat split]);
    (eapply Page.frame_trans; apply Page.frame_store; intros a Ha; simpl; lia).
Qed.

Lemma glp2_allocate_frame st fresh :
  let L := layout_of PAGE_SIZE (this st) in
  let b := alloc_page st fresh in
  let st' := fst (allocate st fresh) in
  Page.layout_ok L ->
  (needs_page st -> Page.good_page L fresh) ->
  m_sizeOfObjects (this st') = m_sizeOfObjects (this st) /\
  m_poolSize (this st') = m_poolSize (this st) /\
  ((~ needs_page st /\ allocated st' = allocated st /\
    (b = m_freePool (this st) \/ b ∈ m_freePools (this st)) /\
    Page.frame (header_fields b) (heap st) (heap st'))
   \/
   (needs_page st /\ b = fresh /\ allocated st' = {[fresh]} ∪ allocated st /\
    Page.frame (fun a => fresh <= a < fresh + PAGE_SIZE) (heap st) (heap st') /\
    Mem.load_bytes 8 (heap st') (fresh + off_isPool) = IS_POOL /\
    Mem.load (heap st') (fresh + off_sizeOfObjects) = m_sizeOfObjects (this st))).
Proof.
  intros L b st' HL Hneed. subst b st'. unfold allocate, alloc_page.
  destruct (Z.eqb_spec (m_freePool (this st)) 0) as [Hc0|Hc]; cbn [negb].
  2:{ destruct (glp2_nextFree_frame st (m_freePool (this st))) as (Hfr & HA & Hs & Hc').
    split; [exact Hs|]. split; [exact Hc'|]. left.
    split; [intros (Hz & _); contradiction|]. split; [exact HA|].
    split; [now left|exact Hfr]. }
  destruct (Nat.ltb_spec 0 (size (m_freePools (this st)))) as [Hsz|Hsz].
  { destruct (glp2_nextFree_frame st (set_begin (m_freePools (this st))))
      as (Hfr & HA & Hs & Hc').
    assert (Hne : m_freePools (this st) <> ∅).
    { intros E. rewrite E in Hsz. rewrite size_empty in Hsz. lia. }
    split; [exact Hs|]. split; [exact Hc'|]. left.
    split; [intros (_ & Hz); contradiction|]. split; [exact HA|].
    split; [right; now apply set_begin_elem|exact Hfr]. }
  assert (Hempty : m_freePools (this st) = ∅).
  { assert (Hz : size (m_freePools (this st)) = 0%nat) by lia.
    apply size_empty_inv in Hz. now apply leibniz_equiv in Hz. }
  pose proof (Hneed (conj Hc0 Hempty)) as Hfresh.
  destruct (init_pool_spec (this st) (heap st) fresh HL Hfresh)
    as (Hfr0 & _ & Htag & Hsz0).
  set (st1 := Machine (init_pool (this st) (heap st) fresh) ({[fresh]} ∪ allocated st)
                (set_pools (this st) ({[fresh]} ∪ m_freePools (this st)) fresh)).
  destruct (glp2_nextFree_frame st1 fresh) as (Hfr & HA & Hs & Hc').
  split; [exact Hs|]. split; [exact Hc'|]. right.
  assert (HLc := HL). destruct HLc as (? & ? & ? & ? & ? & ? & ? & ?).
  split; [split; assumption|]. split; [reflexivity|]. split; [exact HA|].
  subst L. offsets. split; [|split].
  - eapply Page.frame_trans; [exact Hfr0|].
    eapply Page.frame_weaken; [|exact Hfr]. unfold header_fields. offsets.
    intros a Ha. simpl in *. nia.
  - rewrite <- Htag. apply Mem.load_bytes_ext. intros i Hi.
    change (Z.of_nat 8) with 8 in Hi. apply Hfr. unfold header_fields. offsets. lia.
  - rewrite <- Hsz0. apply (Page.frame_load _ _ _ _ Hfr).
    intros a Ha. unfold header_fields. offsets. lia.
Qed.

Lemma glp2_deallocate_frame st p :
  let b := getPoolHeader PAGE_SIZE p in
  let st' := deallocate PAGE_SIZE st p in
  Page.frame (fun a => p <= a < p + 8 \/ header_fields b a) (heap st) (heap st') /\
  m_sizeOfObjects (this st') = m_sizeOfObjects (this st) /\
  m_poolSize (this st') = m_poolSize (this st).
Proof.
  intros b st'. subst st'. unfold deallocate. fold (getPoolHeader PAGE_SIZE p). fold b.
  unfold header_fields.
  set (h1 := Mem.store (heap st) p 0).
  set (h3 := if Mem.load h1 (b + off_head) =? 0 then Mem.store h1 (b + off_head) p
             else Mem.store (Mem.store h1 p (Mem.load h1 (b + off_head))) (b + off_head) p).
  assert (Hfr3 : Page.frame (fun a => p <= a < p + 8 \/
                    (b + off_sizeOfPool <= a < b + off_sizeOfPool + 8 \/
                     b + off_head <= a < b + off_head + 8)) (heap st) h3).
  { unfold h3, h1. destruct (_ =? 0);
      repeat (eapply Page.frame_trans;
              [|apply Page.frame_store; intros a Ha; simpl; lia]);
      apply Page.frame_refl. }
  set (h4 := Mem.store h3 (b + off_sizeOfPool) _).
  assert (Hfr4 : Page.frame (fun a => p <= a < p + 8 \/
                    (b + off_sizeOfPool <= a < b + off_sizeOfPool + 8 \/
                     b + off_head <= a < b + off_head + 8)) (heap st) h4).
  { eapply Page.frame_trans; [exact Hfr3|].
    apply Page.frame_store. intros a Ha. simpl. lia. }
  destruct (to_size_t (Mem.load h3 (b + off_sizeOfPool) - 1) =? 0);
    cbn [heap this set_pools m_sizeOfObjects m_poolSize];
    (split; [exact Hfr4|split; reflexivity]).
Qed.

(** *** Headers stay tagged, and pages are given back

    Besides the invariant of the set of pages, every page of the pool holds
    a slot of a client, and its header keeps the tag [IS_POOL] and the size
    of the pool's objects, which [custom_delete] reads. *)
Definition tagged (lp : GlobalLinkedPool2) (h : gmap Z Z) (b : Z) : Prop :=
  Mem.load_bytes 8 h (b + off_isPool) = IS_POOL /\
  Mem.load h (b + off_sizeOfObjects) = m_sizeOfObjects lp.

Definition Inv2 (st : machine) (live : gset Z) : Prop :=
  exists F,
    Page.set_inv (layout_of PAGE_SIZE (this st)) F (heap st) (allocated st)
                 (m_freePools (this st)) (m_freePool (this st)) live /\
    forall b, b ∈ allocated st ->
      1 <= Mem.load (heap st) (b + off_sizeOfPool) /\ tagged (this st) (heap st) b.

Lemma tagged_frame lp h h' b :
  (forall a, b <= a < b + 8 \/ b + 16 <= a < b + 24 -> Mem.load8 h' a = Mem.load8 h a) ->
  tagged lp h b -> tagged lp h' b.
Proof.
  intros Hsame (Ht & Hs). unfold tagged, off_isPool, off_sizeOfObjects in *. split.
  - rewrite <- Ht. apply Mem.load_bytes_ext. intros i Hi.
    change (Z.of_nat 8) with 8 in Hi. apply Hsame. lia.
  - rewrite <- Hs. unfold Mem.load. f_equal. apply Mem.load_bytes_ext. intros i Hi.
    change (Z.of_nat 8) with 8 in Hi. apply Hsame. lia.
Qed.

Lemma tagged_ext lp lp' h b :
  m_sizeOfObjects lp' = m_sizeOfObjects lp -> tagged lp h b -> tagged lp' h b.
Proof. intros E (Ht & Hs). split; [exact Ht|]. now rewrite E. Qed.

Lemma Inv2_init h t_sizeOfObjects : Inv2 (init PAGE_SIZE h t_sizeOfObjects) ∅.
Proof.
  destruct (glp2_Inv_init h t_sizeOfObjects) as (F & Hinv).
  exists F. split; [exact Hinv|].
  intros b Hb. cbn in Hb. exfalso. revert Hb. apply not_elem_of_empty.
Qed.

(** The slot [allocate] returns lies in [alloc_page]. *)
Lemma glp2_allocate_page st F live fresh :
  let L := layout_of PAGE_SIZE (this st) in
  Page.layout_ok L ->
  Page.set_inv L F (heap st) (allocated st) (m_freePools (this st))
               (m_freePool (this st)) live ->
  (needs_page st -> Page.good_page L fresh /\ fresh ∉ allocated st) ->
  Page.is_slot L (alloc_page st fresh) (snd (allocate st fresh)) /\
  Page.good_page L (alloc_page st fresh).
Proof.
  intros L HL Hinv Hneed.
  assert (Hinv0 := Hinv). destruct Hinv0 as (Hpages & Hsub & Hfpool & Hlive).
  unfold allocate, alloc_page.
  destruct (Z.eqb_spec (m_freePool (this st)) 0) as [Hc0|Hc]; cbn [negb].
  2:{ destruct Hfpool as [|Hin]; [contradiction|].
    destruct (glp2_nextFree_spec st F live _ HL Hinv Hin)
      as (x & l & st' & Hrun & _ & _ & _ & _ & _ & Hxs & _).
    rewrite Hrun. split; [exact Hxs|]. apply Hpages, Hsub, Hin. }
  destruct (Nat.ltb_spec 0 (size (m_freePools (this st)))) as [Hsz|Hsz].
  { assert (Hne : m_freePools (this st) <> ∅).
    { intros E. rewrite E in Hsz. rewrite size_empty in Hsz. lia. }
    pose proof (set_begin_elem _ Hne) as Hin.
    destruct (glp2_nextFree_spec st F live _ HL Hinv Hin)
      as (x & l & st' & Hrun & _ & _ & _ & _ & _ & Hxs & _).
    rewrite Hrun. split; [exact Hxs|]. apply Hpages, Hsub, Hin. }
  assert (Hempty : m_freePools (this st) = ∅).
  { assert (Hz : size (m_freePools (this st)) = 0%nat) by lia.
    apply size_empty_inv in Hz. now apply leibniz_equiv in Hz. }
  destruct (Hneed (conj Hc0 Hempty)) as (Hfresh & HfA).
  destruct (init_pool_spec (this st) (heap st) fresh HL Hfresh) as (Hfr & Hpinv & _).
  set (h1 := init_pool (this st) (heap st) fresh) in *.
  set (st1 := Machine h1 ({[fresh]} ∪ allocated st)
                (set_pools (this st) ({[fresh]} ∪ m_freePools (this st)) fresh)).
  pose proof (Page.set_inv_construct L HL F (heap st) h1 (allocated st)
               (m_freePools (this st)) (m_freePool (this st)) live fresh
               Hinv HfA Hfresh Hfr Hpinv) as Hinv1.
  set (F1 := <[fresh := Page.slots_from L fresh 0 (Page.capacity L)]> F) in *.
  assert (Hin1 : fresh ∈ m_freePools (this st1))
    by (cbn; apply elem_of_union_l, elem_of_singleton; reflexivity).
  destruct (glp2_nextFree_spec st1 F1 live fresh HL Hinv1 Hin1)
    as (x & l & st' & Hrun & _ & _ & _ & _ & _ & Hxs & _).
  fold st1. rewrite Hrun. split; [exact Hxs|exact Hfresh].
Qed.

Lemma Inv2_allocate st live fresh st' p :
  Page.layout_ok (layout_of PAGE_SIZE (this st)) -> Inv2 st live ->
  (needs_page st ->
   Page.good_page (layout_of PAGE_SIZE (this st)) fresh /\ fresh ∉ allocated st) ->
  allocate st fresh = (st', p) ->
  Inv2 st' ({[p]} ∪ live).
Proof.
  intros HL (F & Hinv & Htag) Hg Hal.
  destruct (glp2_allocate_spec st F live fresh HL Hinv Hg)
    as (st1 & p1 & b & l & Hal1 & Hthis & Hinv' & Hpl & Hps & Hp0 & HbA & HA).
  rewrite Hal in Hal1. injection Hal1 as <- <-.
  assert (Hlay : layout_of PAGE_SIZE (this st') = layout_of PAGE_SIZE (this st))
    by (rewrite Hthis; reflexivity).
  exists (<[b := l]> F). rewrite Hlay. split; [exact Hinv'|].
  pose proof (glp2_allocate_frame st fresh HL (fun H => proj1 (Hg H))) as Hfr.
  destruct (glp2_allocate_page st F live fresh HL Hinv Hg) as (Hbp & Hgbp).
  cbv zeta in Hfr. rewrite Hal in Hfr, Hbp. cbn [fst snd] in Hfr, Hbp.
  destruct Hfr as (Hso & _ & Hfr).
  pose proof Hinv as (Hpages & Hsub & Hfpool & _).
  pose proof Hinv' as (Hpages' & _ & _ & Hlive').
  destruct (Hpages' b HbA) as (Hgb & _).
  pose proof (Page.is_slot_page _ HL _ _ p Hgb Hgbp Hps Hbp) as Hbeq.
  rewrite <- Hbeq in Hfr, Hbp, Hgbp. clear Hbeq.
  pose proof (Page.pages_apart _ HL) as Hapart.
  assert (HLc := HL). destruct HLc as (? & ? & ? & ? & ? & ? & ? & ?).
  assert (Hold : forall b0, b0 ∈ allocated st' -> b0 <> b -> b0 ∈ allocated st).
  { intros b0 Hb0 Hne.
    destruct Hfr as [(_ & HA' & _)|(_ & Hbf & HA' & _)]; rewrite HA' in Hb0;
      [exact Hb0|].
    apply elem_of_union in Hb0 as [Hb0|Hb0]; [|exact Hb0].
    apply elem_of_singleton in Hb0. congruence. }
  intros b0 Hb0. destruct (Hpages' b0 Hb0) as (Hg0 & Hpinv0 & _). split.
  - destruct (decide (b0 = b)) as [->|Hne].
    + apply (Page.live_slot_occupied _ HL _ _ _ p Hpinv0 Hps).
      assert (Hin : p ∈ {[p]} ∪ live)
        by (apply elem_of_union_l, elem_of_singleton; reflexivity).
      apply Hlive' in Hin as (b1 & Hb1 & Hs1 & Hn1).
      destruct (Hpages' b1 Hb1) as (Hg1 & _).
      pose proof (Page.is_slot_page _ HL b b1 p Hg0 Hg1 Hps Hs1) as E.
      rewrite <- E in Hn1. exact Hn1.
    + pose proof (Page.set_inv_occupied _ _ _ _ _ _ _ b0 Hinv' Hb0) as Ho'.
      rewrite fn_lookup_insert_ne in Ho' by congruence.
      pose proof (Page.set_inv_occupied _ _ _ _ _ _ _ b0 Hinv (Hold b0 Hb0 Hne)) as Ho.
      change (Page.occ_off (layout_of PAGE_SIZE (this st))) with off_sizeOfPool in Ho, Ho'.
      rewrite Ho', <- Ho. apply Htag, Hold; assumption.
  - destruct Hfr as [(_ & HA' & _ & Hfr)|(_ & Hbf & HA' & Hfr & Ht & Hs)].
    + assert (Hb0A : b0 ∈ allocated st) by (rewrite <- HA'; exact Hb0).
      destruct (Htag b0 Hb0A) as (_ & Ht0).
      apply (tagged_ext (this st)); [exact Hso|].
      apply (tagged_frame (this st) (heap st)); [|exact Ht0].
      intros a Ha. apply Hfr. unfold header_fields. offsets.
      destruct (decide (b0 = b)) as [->|Hne]; [lia|].
      pose proof (Hapart b0 b Hg0 Hgbp Hne). offsets. lia.
    + destruct (decide (b0 = b)) as [->|Hne].
      * rewrite Hbf. split; [exact Ht|]. now rewrite Hso.
      * destruct (Htag b0 (Hold b0 Hb0 Hne)) as (_ & Ht0).
        apply (tagged_ext (this st)); [exact Hso|].
        apply (tagged_frame (this st) (heap st)); [|exact Ht0].
        intros a Ha. apply Hfr. rewrite <- Hbf.
        pose proof (Hapart b0 b Hg0 Hgbp Hne). offsets. lia.
Qed.

Lemma Inv2_deallocate st live p :
  Page.layout_ok (layout_of PAGE_SIZE (this st)) -> Inv2 st live -> p ∈ live ->
  Inv2 (deallocate PAGE_SIZE st p) (live ∖ {[p]}).
Proof.
  intros HL (F & Hinv & Htag) Hp.
  destruct (glp2_deallocate_spec st F live p HL Hinv Hp)
    as (b & HbA & Hps & Hpl & Hmask & Hocc1 & Hthis & Hcnt & Hcases).
  assert (Hlay : layout_of PAGE_SIZE (this (deallocate PAGE_SIZE st p))
                 = layout_of PAGE_SIZE (this st)) by (rewrite Hthis; reflexivity).
  destruct (glp2_deallocate_frame st p) as (Hfr & Hso & _).
  rewrite Hmask in Hfr.
  pose proof Hinv as (Hpages & _).
  destruct (Hpages b HbA) as (Hgb & _).
  pose proof (Page.slot_bounds _ HL b p Hps) as Hpb.
  pose proof (Page.pages_apart _ HL) as Hapart.
  pose proof (Mem.load_range (heap (deallocate PAGE_SIZE st p)) (b + off_sizeOfPool)) as Hr.
  assert (HLc := HL). destruct HLc as (? & ? & ? & ? & ? & ? & ? & ?).
  assert (Htags : forall b0, b0 ∈ allocated st ->
            tagged (this (deallocate PAGE_SIZE st p)) (heap (deallocate PAGE_SIZE st p)) b0).
  { intros b0 Hb0. destruct (Htag b0 Hb0) as (_ & Ht0 & Hs0).
    destruct (Hpages b0 Hb0) as (Hg0 & _).
    apply (tagged_ext (this st)); [exact Hso|].
    apply (tagged_frame (this st) (heap st)); [|split; assumption].
    intros a Ha. apply Hfr. unfold header_fields. offsets.
    destruct (decide (b0 = b)) as [->|Hne]; [lia|].
    pose proof (Hapart b0 b Hg0 Hgb Hne). offsets. lia. }
  destruct (decide (Mem.load (heap (deallocate PAGE_SIZE st p)) (b + off_sizeOfPool) = 0))
    as [Hz|Hnz].
  - destruct Hcases as (HA & Hinv' & _).
    exists F. rewrite Hlay. split; [exact Hinv'|].
    intros b0 Hb0.
    pose proof (Page.set_inv_occupied _ _ _ _ _ _ _ b0 Hinv' Hb0) as Ho'.
    rewrite HA in Hb0. apply elem_of_difference in Hb0 as (Hb0 & _).
    pose proof (Page.set_inv_occupied _ _ _ _ _ _ _ b0 Hinv Hb0) as Ho.
    change (Page.occ_off (layout_of PAGE_SIZE (this st))) with off_sizeOfPool in Ho, Ho'.
    split; [rewrite Ho', <- Ho; apply Htag, Hb0|apply Htags, Hb0].
  - destruct Hcases as (HA & _ & Hinv').
    exists (<[b := p :: F b]> F). rewrite Hlay. split; [exact Hinv'|].
    intros b0 Hb0. rewrite HA in Hb0. split; [|apply Htags, Hb0].
    destruct (decide (b0 = b)) as [->|Hne]; [lia|].
    assert (Hb0' : b0 ∈ allocated (deallocate PAGE_SIZE st p)) by (rewrite HA; exact Hb0).
    pose proof (Page.set_inv_occupied _ _ _ _ _ _ _ b0 Hinv' Hb0') as Ho'.
    rewrite fn_lookup_insert_ne in Ho' by congruence.
    pose proof (Page.set_inv_occupied _ _ _ _ _ _ _ b0 Hinv Hb0) as Ho.
    change (Page.occ_off (layout_of PAGE_SIZE (this st))) with off_sizeOfPool in Ho, Ho'.
    rewrite Ho', <- Ho. apply Htag, Hb0.
Qed.

Lemma exec_Inv2 st live ops st' live' ps :
  exec PAGE_SIZE st live ops st' live' ps ->
  Page.layout_ok (layout_of PAGE_SIZE (this st)) -> Inv2 st live ->
  Inv2 st' live' /\ layout_of PAGE_SIZE (this st') = layout_of PAGE_SIZE (this st).
Proof.
  induction 1 as [| st live fresh st1 p ops st' live' ps Hg Hal _ IH
                  | st live p ops st' live' ps Hp _ IH]; intros HL Hinv.
  - auto.
  - assert (Hinv0 : Inv st live) by (destruct Hinv as (F & H & _); now exists F).
    destruct (glp2_Inv_allocate st live fresh st1 p HL Hinv0 Hg Hal) as (_ & Hlay & _).
    destruct IH as (Hinv' & Hlay').
    + now rewrite Hlay.
    + eapply Inv2_allocate; eassumption.
    + split; [exact Hinv'|congruence].
  - assert (Hinv0 : Inv st live) by (destruct Hinv as (F & H & _); now exists F).
    destruct (glp2_Inv_deallocate st live p HL Hinv0 Hp) as (_ & Hlay).
    destruct IH as (Hinv' & Hlay').
    + now rewrite Hlay.
    + now apply Inv2_deallocate.
    + split; [exact Hinv'|congruence].
Qed.

(** *** Several pools on one memory

    A dispatcher runs each pool on the memory and the set of pages all pools
    share.  The pool's own pages are a subset of that set, which the
    operations neither read nor test; and they write only inside the pool's
    own pages. *)







End Proofs.

End GlobalLinkedPool2.

(** ** The dispatchers of custom_new_delete2.h

    The file holds two header-only dispatchers.  Both keep one pool per size
    class in the vector [__allocators] of [__threshold >> __logOfVoid]
    pointers, null until the class is first used; they differ in
    [getAllocatorsIndex] and in the pool class. *)

Module CustomNew2.

Definition numberOfAllocators : Z := Z.shiftr threshold logOfVoid.

(** [getAllocatorsIndex] of the first dispatcher (lines 29-31). *)
Definition getAllocatorsIndex (size : Z) : Z :=
  to_size_t (Z.shiftr size logOfVoid - 1).

(** [getAllocatorsIndex] of the second dispatcher (lines 113-118). *)
Definition getAllocatorsIndex_guarded (size : Z) : Z :=
  if size =? 0 then 0 else to_size_t (Z.shiftr size logOfVoid - 1).

Record state := State {
  heap : gmap Z Z;
  allocated : gset Z;
  allocators : list (option GlobalLinkedPool2.GlobalLinkedPool2)
}.

(** [__allocators] before the first allocation. *)
Definition no_allocators : list (option GlobalLinkedPool2.GlobalLinkedPool2) :=
  replicate (Z.to_nat numberOfAllocators) None.

(** [v[i]] of a [std::vector]; [None] when [i] is not an index of [v]. *)
Definition vector_at {A : Type} (v : list A) (i : Z) : option A :=
  if (0 <=? i) && (i <? Z.of_nat (length v)) then v !! Z.to_nat i else None.

Section Dispatcher.

Variable PAGE_SIZE : Z.

(** The index function, by which the two dispatchers differ. *)
Variable index : Z -> Z.

Definition run_pool (st : state) (i : nat)
    (poolAlloc : GlobalLinkedPool2.GlobalLinkedPool2) (fresh : Z) : state * Z :=
  let '(m, p) :=
    GlobalLinkedPool2.allocate
      (GlobalLinkedPool2.Machine (heap st) (allocated st) poolAlloc) fresh in
  (State (GlobalLinkedPool2.heap m) (GlobalLinkedPool2.allocated m)
         (<[i := Some (GlobalLinkedPool2.this m)]> (allocators st)), p).

(** [ret] is the answer of the system: of [std::malloc] on the large path,
    of [aligned_alloc] (if called) on the small one.  [None] stands for an
    access outside [__allocators], which the C++ standard leaves undefined. *)
Definition custom_new_no_throw (st : state) (size : Z) (ret : Z)
  : option (state * Z) :=
  if size >? threshold then Some (st, ret)
  else
    let remainder := Z.land size mod_mask in
    let size :=
      if remainder =? 0 then size
      else Z.land (to_size_t (size + mod_mask)) (to_size_t (Z.lnot mod_mask)) in
    let i := index size in
    match vector_at (allocators st) i with
    | None => None
    | Some (Some poolAlloc) => Some (run_pool st (Z.to_nat i) poolAlloc ret)
    | Some None =>
        let newPool := GlobalLinkedPool2.new_GlobalLinkedPool2 PAGE_SIZE size in
        Some (run_pool st (Z.to_nat i) newPool ret)
    end.

End Dispatcher.

(** *** [custom_delete] of the first dispatcher (lines 66-87) *)

Section Delete.

Variable PAGE_SIZE : Z.
Variable index : Z -> Z.

(** The loop of [is_equal]: [n] more bytes, from position [i] on. *)
Fixpoint is_equal_loop (n : nat) (h : gmap Z Z) (s : Z) (s2 : list Z) (i : nat) : bool :=
  match n with
  | O => true
  | S k =>
      if negb (Mem.load8 h (s + Z.of_nat i) =? nth i s2 0) then false
      else is_equal_loop k h s s2 (S i)
  end.

(** [is_equal(s, s2)], with [s] in memory: the first seven bytes agree. *)
Definition is_equal (h : gmap Z Z) (s : Z) (s2 : list Z) : bool :=
  is_equal_loop 7 h s s2 0.

(** What [custom_delete] did with the pointer: handed it to [std::free], or
    to [deallocate] of a pool. *)
Inductive deleted :=
| Freed (ptr : Z)
| Deallocated.

(** [None] stands for an access outside [__allocators] or a call through a
    null entry of it, which the C++ standard leaves undefined. *)
Definition custom_delete (st : state) (ptr : Z) : option (state * deleted) :=
  let ph := getPoolHeader PAGE_SIZE ptr in
  if negb (is_equal (heap st) (ph + GlobalLinkedPool2.off_isPool) GlobalLinkedPool2.IS_POOL)
  then Some (st, Freed ptr)
  else
    let i := index (Mem.load (heap st) (ph + GlobalLinkedPool2.off_sizeOfObjects)) in
    match vector_at (allocators st) i with
    | Some (Some poolAlloc) =>
        let m :=
          GlobalLinkedPool2.deallocate PAGE_SIZE
            (GlobalLinkedPool2.Machine (heap st) (allocated st) poolAlloc) ptr in
        Some (State (GlobalLinkedPool2.heap m) (GlobalLinkedPool2.allocated m)
                    (<[Z.to_nat i := Some (GlobalLinkedPool2.this m)]> (allocators st)),
              Deallocated)
    | _ => None
    end.

End Delete.

(** *** Runs of the first dispatcher

    The program before its first allocation, and the calls clients make:
    [New size ret] is [custom_new_no_throw(size)], answered by the system
    with [ret] ([std::malloc] for a large size, else [aligned_alloc] if a
    pool needs a page); [Delete ptr] is [custom_delete(ptr)]. *)
Definition init (h : gmap Z Z) : state := State h ∅ no_allocators.

Inductive op :=
| New (size ret : Z)
| Delete (ptr : Z).

(** What [aligned_alloc(PAGE_SIZE, PAGE_SIZE)] returns on success. *)
Definition good_page (PAGE_SIZE b : Z) : Prop :=
  0 < b /\ b + PAGE_SIZE <= 2 ^ SIZE_BITS /\ b mod PAGE_SIZE = 0.

(** [exec st live ops st' live' ps]: from [st], with the pool slots [live]
    held by clients, the calls [ops] lead to [st'] and [live'] and return
    [ps].  The system offers pages it has not handed out, and clients delete
    only pool slots they hold. *)
Inductive exec (PAGE_SIZE : Z)
  : state -> gset Z -> list op -> state -> gset Z -> list Z -> Prop :=
| exec_nil st live : exec PAGE_SIZE st live [] st live []
| exec_new st live size ret st1 p ops st' live' ps :
    1 <= size <= threshold ->
    good_page PAGE_SIZE ret -> ret ∉ allocated st ->
    custom_new_no_throw PAGE_SIZE getAllocatorsIndex st size ret = Some (st1, p) ->
    exec PAGE_SIZE st1 ({[p]} ∪ live) ops st' live' ps ->
    exec PAGE_SIZE st live (New size ret :: ops) st' live' (p :: ps)
| exec_new_large st live size ret st1 p ops st' live' ps :
    threshold < size ->
    custom_new_no_throw PAGE_SIZE getAllocatorsIndex st size ret = Some (st1, p) ->
    exec PAGE_SIZE st1 live ops st' live' ps ->
    exec PAGE_SIZE st live (New size ret :: ops) st' live' (p :: ps)
| exec_delete st live ptr st1 d ops st' live' ps :
    ptr ∈ live ->
    custom_delete PAGE_SIZE getAllocatorsIndex st ptr = Some (st1, d) ->
    exec PAGE_SIZE st1 (live ∖ {[ptr]}) ops st' live' ps ->
    exec PAGE_SIZE st live (Delete ptr :: ops) st' live' ps.

(** *** Size classes *)

(** The rounding of [custom_new_no_throw] (lines 38-40). *)
Definition round_up (size : Z) : Z :=
  if Z.land size mod_mask =? 0 then size
  else Z.land (to_size_t (size + mod_mask)) (to_size_t (Z.lnot mod_mask)).







(** *** The pools of the dispatcher keep to their own pages *)

Section Proofs.

Variable PAGE_SIZE : Z.
Variable lg : Z.
Hypothesis Hlg : 0 <= lg.
Hypothesis HPAGE : PAGE_SIZE = 2 ^ lg.
(** A page holds at least one object of the largest class, and its size is
    a [size_t]. *)
Hypothesis Hmin : 32 + threshold <= PAGE_SIZE.
Hypothesis Hmax : PAGE_SIZE < 2 ^ SIZE_BITS.




















End Proofs.


End CustomNew2.

(** * The claims *)

(** ** The null guard of the scalar [operator delete] *)

(** C10: the scalar [operator delete] overloads return at once on a null
    pointer: [custom_delete] is not entered, nothing is read or logged and
    the whole state is what it was; for any other pointer they are
    [custom_delete].  The array overloads have no guard: they are
    [custom_delete] for every argument, null included, and [custom_delete]
    on null does read memory (16 bytes below address 0). *)
Theorem operator_delete_null_guard (PAGE_SIZE off_sizeOfSlot : Z) (w : CustomNew.world) :
  CustomNew.operator_delete PAGE_SIZE off_sizeOfSlot w 0 = w /\
  CustomNew.operator_delete_nothrow PAGE_SIZE off_sizeOfSlot w 0 = w /\
  (forall t_ptr, t_ptr <> 0 ->
     CustomNew.operator_delete PAGE_SIZE off_sizeOfSlot w t_ptr
       = CustomNew.custom_delete PAGE_SIZE off_sizeOfSlot w t_ptr /\
     CustomNew.operator_delete_nothrow PAGE_SIZE off_sizeOfSlot w t_ptr
       = CustomNew.custom_delete PAGE_SIZE off_sizeOfSlot w t_ptr) /\
  (forall t_ptr,
     CustomNew.operator_delete_array PAGE_SIZE off_sizeOfSlot w t_ptr
       = CustomNew.custom_delete PAGE_SIZE off_sizeOfSlot w t_ptr /\
     CustomNew.operator_delete_array_nothrow PAGE_SIZE off_sizeOfSlot w t_ptr
       = CustomNew.custom_delete PAGE_SIZE off_sizeOfSlot w t_ptr) /\
  (exists n rest,
     CustomNew.log (CustomNew.operator_delete_array PAGE_SIZE off_sizeOfSlot w 0)
       = CustomNew.log w
         ++ CustomNew.EvRead (to_size_t (0 - CustomNew.sizeof_MallocHeader)) n :: rest).
Proof.
  split; [reflexivity|]. split; [reflexivity|]. split; [|split].
  - intros t_ptr Hne. unfold CustomNew.operator_delete, CustomNew.operator_delete_nothrow.
    destruct (Z.eqb_spec t_ptr 0) as [|_]; [contradiction|]. split; reflexivity.
  - intros t_ptr. split; reflexivity.
  - unfold CustomNew.operator_delete_array, CustomNew.custom_delete.
    destruct (strcmp_lit _ _ _) as [is_malloc n]. exists n.
    destruct is_malloc; cbn [CustomNew.emit CustomNew.log CustomNew.heap].
    + eexists. rewrite <- app_assoc. reflexivity.
    + eexists. rewrite <- !app_assoc. reflexivity.
Qed.


(** * Further properties of the pools and dispatchers *)

(** ** [LinkedPool<T>] *)



(** X2: on a page obtained from [aligned_alloc], [constructPoolHeader] sets
    the counter of occupied slots to zero and links every slot of the page,
    in ascending order, into a null-terminated list starting at the header's
    [head.next]; it writes nowhere outside the page. *)
Theorem construct_pool_header_links_slots (PAGE_SIZE lg : Z)
    (lp : LinkedPool.LinkedPool) (h : gmap Z Z) (b : Z) :
  0 <= lg -> PAGE_SIZE = 2 ^ lg ->
  let L := LinkedPool.layout_of PAGE_SIZE lp in
  Page.layout_ok L -> Page.good_page L b ->
  let h' := LinkedPool.constructPoolHeader lp h b in
  Mem.load h' (b + LinkedPool.off_occupiedSlots) = 0 /\
  Page.walk (S (Z.to_nat (LinkedPool.m_poolSize lp))) h'
            (Mem.load h' (b + LinkedPool.off_head))
    = Page.slot L b <$> seqZ 0 (LinkedPool.m_poolSize lp) /\
  (forall a, ~ (b <= a < b + PAGE_SIZE) -> Mem.load8 h' a = Mem.load8 h a).
Proof.
  intros Hlg HP L HL Hb h'.
  destruct (LinkedPool.constructPoolHeader_spec PAGE_SIZE lg Hlg HP lp h b HL Hb)
    as (Hframe & Hfl & Hnd & Hall & Hocc).
  fold h' in Hframe, Hfl, Hocc. fold L in Hfl, Hocc.
  assert (Hcap : 1 <= LinkedPool.m_poolSize lp)
    by (destruct HL as (_ & _ & _ & _ & _ & _ & Hc & _); exact Hc).
  pose proof (Page.slots_from_length L b 0 (LinkedPool.m_poolSize lp) ltac:(lia)) as Hlen.
  split; [|split].
  - change (Page.occ_off L) with LinkedPool.off_occupiedSlots in Hocc.
    change (Page.capacity L) with (LinkedPool.m_poolSize lp) in Hocc. lia.
  - change (Page.head_off L) with LinkedPool.off_head in Hfl.
    apply Page.walk_flist; [exact Hfl|].
    unfold Page.slots_from in Hlen. lia.
  - exact Hframe.
Qed.

Lemma construct_pool_header_links_slots_witness :
  let lp := LinkedPool.new_LinkedPool 4096 16 8 in
  let h' := LinkedPool.constructPoolHeader lp ∅ 65536 in
  Mem.load h' 65536 = 0 /\
  Page.walk 256 h' (Mem.load h' (65536 + 8))
    = (fun i => 65536 + 16 + i * 16) <$> seqZ 0 255.
Proof.
  intros lp h'.
  assert (HL : Page.layout_ok (LinkedPool.layout_of 4096 lp))
    by (vm_compute; intuition discriminate).
  assert (Hb : Page.good_page (LinkedPool.layout_of 4096 lp) 65536)
    by (vm_compute; intuition discriminate).
  destruct (construct_pool_header_links_slots 4096 12 lp ∅ 65536
              ltac:(lia) eq_refl HL Hb) as (Hocc & Hwalk & _).
  split; [exact Hocc|exact Hwalk].
Defined.

(** X3: in every state a [LinkedPool<T>] reaches from its construction
    through calls of [allocate] and [deallocate] (clients deallocating only
    slots they hold), each page obtained and not freed has a well-formed
    header: its free list is a null-terminated list without repetition of
    slots of that page, the counter of occupied slots plus the length of the
    free list is the pool size, the counter is at least one, a slot of the
    page is held by a client exactly when it is not in the free list, and
    the page is registered in [m_freePools] exactly when its free list is
    not empty.  The cached [m_freePool] is null or registered, and every slot
    held by a client lies in the unfreed page that [deallocate] computes
    from it by masking. *)
Theorem linked_pool_run_invariant (PAGE_SIZE lg : Z) (h : gmap Z Z)
    (sizeofT alignofT : Z) (ops : list LinkedPool.op)
    (st : LinkedPool.machine) (live : gset Z) (ps : list Z) :
  0 <= lg -> PAGE_SIZE = 2 ^ lg ->
  let st0 := LinkedPool.init PAGE_SIZE h sizeofT alignofT in
  let L := LinkedPool.layout_of PAGE_SIZE (LinkedPool.this st0) in
  Page.layout_ok L ->
  LinkedPool.exec PAGE_SIZE st0 ∅ ops st live ps ->
  let lp := LinkedPool.this st in
  LinkedPool.layout_of PAGE_SIZE lp = L /\
  (forall b, b ∈ LinkedPool.allocated st ->
     Page.good_page L b /\
     1 <= Mem.load (LinkedPool.heap st) (b + LinkedPool.off_occupiedSlots) /\
     exists l,
       Page.flist (LinkedPool.heap st)
                  (Mem.load (LinkedPool.heap st) (b + LinkedPool.off_head)) l /\
       NoDup l /\ Forall (Page.is_slot L b) l /\
       Mem.load (LinkedPool.heap st) (b + LinkedPool.off_occupiedSlots)
         + Z.of_nat (length l) = LinkedPool.m_poolSize lp /\
       (forall p, Page.is_slot L b p -> (p ∈ live <-> p ∉ l)) /\
       (b ∈ LinkedPool.m_freePools lp <-> l <> [])) /\
  LinkedPool.m_freePools lp ⊆ LinkedPool.allocated st /\
  (LinkedPool.m_freePool lp = 0 \/
   LinkedPool.m_freePool lp ∈ LinkedPool.m_freePools lp) /\
  (forall p, p ∈ live ->
     getPoolHeader PAGE_SIZE p ∈ LinkedPool.allocated st /\
     Page.is_slot L (getPoolHeader PAGE_SIZE p) p).
Proof.
  intros Hlg HP st0 L HL Hex lp.
  destruct (LinkedPool.exec_Inv PAGE_SIZE lg Hlg HP _ _ _ _ _ _ Hex HL
              (LinkedPool.Inv_init PAGE_SIZE lg Hlg HP h sizeofT alignofT))
    as (_ & Hlay).
  destruct (LinkedPool.exec_Inv1 PAGE_SIZE lg Hlg HP _ _ _ _ _ _ Hex HL
              (LinkedPool.Inv1_init PAGE_SIZE lg Hlg HP h sizeofT alignofT))
    as (F & Hinv & Hocc1).
  fold lp in Hlay, Hinv. fold L in Hlay. rewrite Hlay in Hinv.
  pose proof Hinv as (Hpages & Hsub & Hfpool & Hlive).
  split; [exact Hlay|]. split; [|split; [exact Hsub|split; [exact Hfpool|]]].
  - intros b Hb. destruct (Hpages b Hb) as (Hg & (Hfl & Hnd & Hall & Hocc) & Hreg).
    split; [exact Hg|]. split; [apply Hocc1, Hb|].
    exists (F b). split; [exact Hfl|]. split; [exact Hnd|]. split; [exact Hall|].
    split.
    { replace (LinkedPool.m_poolSize lp) with (Page.capacity L)
        by (rewrite <- Hlay; reflexivity). exact Hocc. }
    split; [|exact Hreg].
    intros p Hp. rewrite Hlive. split.
    + intros (b' & Hb' & Hp' & Hn).
      destruct (Hpages b' Hb') as (Hg' & _).
      now rewrite (Page.is_slot_page L HL b b' p Hg Hg' Hp Hp').
    + intros Hn. exists b. auto.
  - intros p Hp.
    destruct (Page.set_inv_live_page L F _ _ _ _ _ p Hinv Hp) as (b & Hb & Hg & Hs & _).
    assert (Hm : getPoolHeader PAGE_SIZE p = b).
    { apply (LinkedPool.slot_page PAGE_SIZE lg Hlg HP lp b p); rewrite Hlay; assumption. }
    rewrite Hm. split; assumption.
Qed.

(** The states a new pool reaches keep the layout of their pages and the
    invariant of their set of pages. *)
Lemma linked_pool_reachable (PAGE_SIZE lg : Z) (h : gmap Z Z)
    (sizeofT alignofT : Z) (ops : list LinkedPool.op)
    (st : LinkedPool.machine) (live : gset Z) (ps : list Z) :
  0 <= lg -> PAGE_SIZE = 2 ^ lg ->
  let L := LinkedPool.layout_of PAGE_SIZE
             (LinkedPool.this (LinkedPool.init PAGE_SIZE h sizeofT alignofT)) in
  Page.layout_ok L ->
  LinkedPool.exec PAGE_SIZE (LinkedPool.init PAGE_SIZE h sizeofT alignofT) ∅ ops st live ps ->
  LinkedPool.layout_of PAGE_SIZE (LinkedPool.this st) = L /\
  exists F,
    Page.set_inv L F (LinkedPool.heap st) (LinkedPool.allocated st)
                 (LinkedPool.m_freePools (LinkedPool.this st))
                 (LinkedPool.m_freePool (LinkedPool.this st)) live /\
    forall b, b ∈ LinkedPool.allocated st ->
              1 <= Mem.load (LinkedPool.heap st) (b + LinkedPool.off_occupiedSlots).
Proof.
  intros Hlg HP L HL Hex.
  destruct (LinkedPool.exec_Inv PAGE_SIZE lg Hlg HP _ _ _ _ _ _ Hex HL
              (LinkedPool.Inv_init PAGE_SIZE lg Hlg HP h sizeofT alignofT))
    as (_ & Hlay).
  destruct (LinkedPool.exec_Inv1 PAGE_SIZE lg Hlg HP _ _ _ _ _ _ Hex HL
              (LinkedPool.Inv1_init PAGE_SIZE lg Hlg HP h sizeofT alignofT))
    as (F & Hinv & Hocc1).
  fold L in Hlay. split; [exact Hlay|]. exists F. rewrite Hlay in Hinv. auto.
Qed.

(** X4: in every state a pool reaches, [allocate] returns a non-null slot
    that no client holds, lying in a page the pool owns afterwards (the one
    found by masking the pointer).  It obtains a page from the system
    exactly when the cached pool is null and no pool is registered as having
    a free slot, and then returns the first slot of the new page; otherwise
    the set of pages is unchanged. *)
Theorem linked_pool_allocate_new_slot (PAGE_SIZE lg : Z) (h : gmap Z Z)
    (sizeofT alignofT : Z) (ops : list LinkedPool.op)
    (st : LinkedPool.machine) (live : gset Z) (ps : list Z) (fresh : Z) :
  0 <= lg -> PAGE_SIZE = 2 ^ lg ->
  let L := LinkedPool.layout_of PAGE_SIZE
             (LinkedPool.this (LinkedPool.init PAGE_SIZE h sizeofT alignofT)) in
  Page.layout_ok L ->
  LinkedPool.exec PAGE_SIZE (LinkedPool.init PAGE_SIZE h sizeofT alignofT) ∅ ops st live ps ->
  (LinkedPool.needs_page st ->
   Page.good_page L fresh /\ fresh ∉ LinkedPool.allocated st) ->
  let st' := fst (LinkedPool.allocate st fresh) in
  let p := snd (LinkedPool.allocate st fresh) in
  p <> 0 /\ (p ∉ live) /\
  getPoolHeader PAGE_SIZE p ∈ LinkedPool.allocated st' /\
  Page.is_slot L (getPoolHeader PAGE_SIZE p) p /\
  (LinkedPool.needs_page st ->
   LinkedPool.allocated st' = {[fresh]} ∪ LinkedPool.allocated st /\
   p = Page.slot L fresh 0) /\
  (~ LinkedPool.needs_page st -> LinkedPool.allocated st' = LinkedPool.allocated st).
Proof.
  intros Hlg HP L HL Hex Hneed st' p.
  destruct (linked_pool_reachable PAGE_SIZE lg h sizeofT alignofT ops st live ps
              Hlg HP HL Hex) as (Hlay & F & Hinv & _).
  fold L in Hlay, Hinv.
  assert (HL' : Page.layout_ok (LinkedPool.layout_of PAGE_SIZE (LinkedPool.this st)))
    by (rewrite Hlay; exact HL).
  assert (Hinv0 : Page.set_inv (LinkedPool.layout_of PAGE_SIZE (LinkedPool.this st)) F
                    (LinkedPool.heap st) (LinkedPool.allocated st)
                    (LinkedPool.m_freePools (LinkedPool.this st))
                    (LinkedPool.m_freePool (LinkedPool.this st)) live)
    by (rewrite Hlay; exact Hinv).
  assert (Hneed' : LinkedPool.needs_page st ->
            Page.good_page (LinkedPool.layout_of PAGE_SIZE (LinkedPool.this st)) fresh /\
            fresh ∉ LinkedPool.allocated st) by (rewrite Hlay; exact Hneed).
  pose proof (LinkedPool.allocate_spec PAGE_SIZE lg Hlg HP st F live fresh HL' Hinv0 Hneed')
    as Hspec.
  cbv zeta in Hspec. rewrite Hlay in Hspec.
  destruct Hspec as (st1 & p1 & b & l & Hal & _ & Hinv' & Hpl & Hps & Hp0 & Hcases).
  subst st' p. rewrite Hal. cbn [fst snd].
  assert (HbA : b ∈ LinkedPool.allocated st1).
  { destruct Hcases as [(HA & _ & Hbfp & _)|(HA & -> & _)]; rewrite HA.
    - destruct Hinv as (_ & Hsub & _). apply Hsub, Hbfp.
    - apply elem_of_union_l, elem_of_singleton. reflexivity. }
  assert (Hg : Page.good_page L b)
    by (destruct Hinv' as (Hpages & _); apply (Hpages b HbA)).
  assert (Hm : getPoolHeader PAGE_SIZE p1 = b).
  { apply (LinkedPool.slot_page PAGE_SIZE lg Hlg HP (LinkedPool.this st) b p1);
      rewrite Hlay; assumption. }
  rewrite Hm.
  split; [exact Hp0|]. split; [exact Hpl|]. split; [exact HbA|]. split; [exact Hps|].
  destruct Hcases as [(HA & _ & Hbfp & _)|(HA & -> & Hsl & Hfp0 & Hfpool0 & _)].
  - split; [|intros _; exact HA].
    intros (_ & Hfirst). exfalso.
    pose proof (LinkedPool.pool_first_null PAGE_SIZE lg st F live Hinv0 Hfirst) as He.
    rewrite He in Hbfp. revert Hbfp. apply not_elem_of_empty.
  - split.
    + intros _. split; [exact HA|].
      rewrite Page.slots_from_cons in Hsl.
      * now injection Hsl.
      * destruct HL' as (_ & _ & _ & _ & _ & _ & Hc & _). cbn in Hc. lia.
    + intros Hn. exfalso. apply Hn. split; [exact Hfpool0|].
      rewrite Hfp0. reflexivity.
Qed.

(** X5: in every state a pool reaches, [deallocate] of a slot a client holds
    acts on the page that owns the slot.  If that page's counter of occupied
    slots is 1, no other slot of the page is held, and the page is freed and
    unregistered without a write to memory.  Otherwise the page is kept, the
    slot becomes the head of the page's free list with the old head as its
    successor, the counter drops by one, and the page is registered and
    becomes the cached pool. *)
Theorem linked_pool_deallocate_page (PAGE_SIZE lg : Z) (h : gmap Z Z)
    (sizeofT alignofT : Z) (ops : list LinkedPool.op)
    (st : LinkedPool.machine) (live : gset Z) (ps : list Z) (p : Z) :
  0 <= lg -> PAGE_SIZE = 2 ^ lg ->
  let L := LinkedPool.layout_of PAGE_SIZE
             (LinkedPool.this (LinkedPool.init PAGE_SIZE h sizeofT alignofT)) in
  Page.layout_ok L ->
  LinkedPool.exec PAGE_SIZE (LinkedPool.init PAGE_SIZE h sizeofT alignofT) ∅ ops st live ps ->
  p ∈ live ->
  let b := getPoolHeader PAGE_SIZE p in
  let st' := LinkedPool.deallocate PAGE_SIZE st p in
  let occ := Mem.load (LinkedPool.heap st) (b + LinkedPool.off_occupiedSlots) in
  b ∈ LinkedPool.allocated st /\ Page.is_slot L b p /\
  (occ = 1 ->
     LinkedPool.allocated st' = LinkedPool.allocated st ∖ {[b]} /\
     LinkedPool.heap st' = LinkedPool.heap st /\
     (b ∉ LinkedPool.m_freePools (LinkedPool.this st')) /\
     (forall q, q ∈ live -> q <> p -> getPoolHeader PAGE_SIZE q <> b)) /\
  (occ <> 1 ->
     LinkedPool.allocated st' = LinkedPool.allocated st /\
     Mem.load (LinkedPool.heap st') (b + LinkedPool.off_head) = p /\
     Mem.load (LinkedPool.heap st') p
       = Mem.load (LinkedPool.heap st) (b + LinkedPool.off_head) /\
     Mem.load (LinkedPool.heap st') (b + LinkedPool.off_occupiedSlots) = occ - 1 /\
     b ∈ LinkedPool.m_freePools (LinkedPool.this st') /\
     LinkedPool.m_freePool (LinkedPool.this st') = b).
Proof.
  intros Hlg HP L HL Hex Hp b st' occ.
  destruct (linked_pool_reachable PAGE_SIZE lg h sizeofT alignofT ops st live ps
              Hlg HP HL Hex) as (Hlay & F & Hinv & _).
  fold L in Hlay, Hinv.
  assert (HL' : Page.layout_ok (LinkedPool.layout_of PAGE_SIZE (LinkedPool.this st)))
    by (rewrite Hlay; exact HL).
  assert (Hinv0 : Page.set_inv (LinkedPool.layout_of PAGE_SIZE (LinkedPool.this st)) F
                    (LinkedPool.heap st) (LinkedPool.allocated st)
                    (LinkedPool.m_freePools (LinkedPool.this st))
                    (LinkedPool.m_freePool (LinkedPool.this st)) live)
    by (rewrite Hlay; exact Hinv).
  pose proof (LinkedPool.deallocate_spec PAGE_SIZE lg Hlg HP st F live p HL' Hinv0 Hp)
    as Hspec.
  cbv zeta in Hspec. rewrite Hlay in Hspec.
  destruct Hspec as (b0 & HbA & Hps & Hpl & Hmask & Hocc & _ & Hcases).
  fold b in Hmask. subst b0. fold st' in Hcases. fold occ in Hcases, Hocc.
  split; [exact HbA|]. split; [exact Hps|].
  pose proof Hinv as (Hpages & _).
  destruct (Hpages b HbA) as (Hg & (Hfl & _) & _).
  destruct (decide (occ = 1)) as [E|E].
  - split; [|intros Hn; contradiction]. intros _.
    destruct Hcases as (HA & Hh & Hinv' & Hlast).
    split; [exact HA|]. split; [exact Hh|]. split.
    + intros Hin. destruct Hinv' as (_ & Hsub & _). apply Hsub in Hin.
      rewrite HA in Hin. apply elem_of_difference in Hin as (_ & Hin).
      apply Hin, elem_of_singleton. reflexivity.
    + intros q Hq Hqp Hqb.
      apply (Hlast q).
      * apply elem_of_difference. split; [exact Hq|].
        intros Hs. apply elem_of_singleton in Hs. contradiction.
      * destruct (Page.set_inv_live_page L F _ _ _ _ _ q Hinv Hq)
          as (bq & Hbq & Hgq & Hsq & _).
        assert (Hm : getPoolHeader PAGE_SIZE q = bq).
        { apply (LinkedPool.slot_page PAGE_SIZE lg Hlg HP (LinkedPool.this st) bq q);
            rewrite Hlay; assumption. }
        rewrite <- Hqb, Hm. exact Hsq.
  - split; [intros Hn; contradiction|]. intros _.
    destruct Hcases as (HA & Hfpool & Hfp & Hinv').
    destruct Hinv' as (Hpages' & _).
    assert (HbA' : b ∈ LinkedPool.allocated st') by (rewrite HA; exact HbA).
    destruct (Hpages' b HbA') as (_ & (Hfl' & _ & _ & Hocc') & _).
    rewrite fn_lookup_insert in Hfl', Hocc'.
    destruct Hfl' as (Hhead & _ & Hrest).
    change (Page.head_off L) with LinkedPool.off_head in Hhead, Hfl.
    change (Page.occ_off L) with LinkedPool.off_occupiedSlots in Hocc'.
    destruct (Hpages b HbA) as (_ & (_ & _ & _ & Hocc0) & _).
    change (Page.occ_off L) with LinkedPool.off_occupiedSlots in Hocc0.
    fold occ in Hocc0.
    split; [exact HA|]. split; [exact Hhead|]. split; [|split; [|split]].
    + destruct (F b) as [|x t]; simpl in Hfl, Hrest.
      * congruence.
      * destruct Hfl as (-> & _). destruct Hrest as (-> & _). reflexivity.
    + cbn [length] in Hocc'. lia.
    + rewrite Hfp. apply elem_of_union_l, elem_of_singleton. reflexivity.
    + exact Hfpool.
Qed.

(** While a page is being handed out slot by slot, no page is obtained. *)
Lemma exec_page_kept (PAGE_SIZE lg : Z) (Hlg : 0 <= lg) (HP : PAGE_SIZE = 2 ^ lg)
    (fs : list Z) : forall st F live b i st' live' ps,
  Page.layout_ok (LinkedPool.layout_of PAGE_SIZE (LinkedPool.this st)) ->
  LinkedPool.fresh_run PAGE_SIZE st F live (Some (b, i)) ->
  i + Z.of_nat (length fs) <= LinkedPool.m_poolSize (LinkedPool.this st) ->
  LinkedPool.exec PAGE_SIZE st live (LinkedPool.Allocate <$> fs) st' live' ps ->
  LinkedPool.allocated st' = LinkedPool.allocated st.
Proof.
  assert (HP' : id (PAGE_SIZE = 2 ^ lg)) by exact HP. clear HP.
  induction fs as [|f fs IH]; intros st F live b i st' live' ps HL Hfr Hn Hex.
  - inversion Hex; subst. reflexivity.
  - cbn [fmap list_fmap] in Hex.
    inversion Hex as [| st0 live0 fresh st1 p ops st2 live2 ps2 Hg Hal Hrest |]; subst.
    destruct (LinkedPool.fresh_run_allocate PAGE_SIZE lg Hlg HP' st F live (Some (b, i)) f
                HL Hfr Hg) as (st1' & F1 & Hstep).
    cbn [LinkedPool.next_slot] in Hstep.
    destruct Hstep as (Hal' & Hlay & Hfr1 & _ & _ & _ & _ & Hi & _ & HA & _).
    rewrite Hal in Hal'. injection Hal' as <- Hp.
    assert (Hcapeq : LinkedPool.m_poolSize (LinkedPool.this st1)
                     = LinkedPool.m_poolSize (LinkedPool.this st))
      by (change (Page.capacity (LinkedPool.layout_of PAGE_SIZE (LinkedPool.this st1))
                  = Page.capacity (LinkedPool.layout_of PAGE_SIZE (LinkedPool.this st)));
          now rewrite Hlay).
    destruct fs as [|f' fs].
    + inversion Hrest; subst. exact HA.
    + cbn [length] in Hn.
      destruct (decide (i + 1 < LinkedPool.m_poolSize (LinkedPool.this st))); [|lia].
      rewrite <- HA.
      rewrite <- Hp in Hfr1.
      apply (IH st1 F1 ({[p]} ∪ live) b (i + 1) st' live' ps2).
      * now rewrite Hlay.
      * exact Hfr1.
      * rewrite Hcapeq. cbn [length]. lia.
      * exact Hrest.
Qed.

(** A new pool hands out the slots of its first page in ascending order. *)
Lemma exec_fill_page (PAGE_SIZE lg : Z) (Hlg : 0 <= lg) (HP : PAGE_SIZE = 2 ^ lg)
    (h : gmap Z Z) (sizeofT alignofT f1 : Z) (fs : list Z) :
  let st0 := LinkedPool.init PAGE_SIZE h sizeofT alignofT in
  let L := LinkedPool.layout_of PAGE_SIZE (LinkedPool.this st0) in
  let n := 1 + Z.of_nat (length fs) in
  Page.layout_ok L -> Page.good_page L f1 ->
  n <= LinkedPool.m_poolSize (LinkedPool.this st0) ->
  exists st live F,
    LinkedPool.exec PAGE_SIZE st0 ∅ (LinkedPool.Allocate <$> f1 :: fs) st live
                    (Page.slots_from L f1 0 n) /\
    LinkedPool.allocated st = {[f1]} /\
    LinkedPool.layout_of PAGE_SIZE (LinkedPool.this st) = L /\
    LinkedPool.fresh_run PAGE_SIZE st F live
      (if decide (n < LinkedPool.m_poolSize (LinkedPool.this st0))
       then Some (f1, n) else None).
Proof.
  intros st0 L n HL Hg Hn.
  assert (Hneed : LinkedPool.needs_page st0 ->
            Page.good_page L f1 /\ f1 ∉ LinkedPool.allocated st0).
  { intros _. split; [exact Hg|]. apply not_elem_of_empty. }
  destruct (LinkedPool.fresh_run_allocate PAGE_SIZE lg Hlg HP st0 _ ∅ None f1 HL
              (LinkedPool.fresh_run_init PAGE_SIZE lg Hlg HP h sizeofT alignofT) Hneed)
    as (st1 & F1 & Hstep).
  cbn [LinkedPool.next_slot] in Hstep. fold L in Hstep.
  destruct Hstep as (Hal & Hlay & Hfr1 & _ & _ & _ & _ & _ & _ & HA & _).
  assert (HA1 : LinkedPool.allocated st1 = {[f1]}).
  { rewrite HA. apply leibniz_equiv. intros x.
    rewrite elem_of_union, elem_of_singleton.
    split; [intros [->|Hx]; [reflexivity|]|intros ->; now left].
    exfalso. revert Hx. apply not_elem_of_empty. }
  assert (Hcapeq : LinkedPool.m_poolSize (LinkedPool.this st1)
                   = LinkedPool.m_poolSize (LinkedPool.this st0))
    by (change (Page.capacity (LinkedPool.layout_of PAGE_SIZE (LinkedPool.this st1))
                = Page.capacity L); now rewrite Hlay).
  subst n.
  rewrite Page.slots_from_cons by lia.
  replace (1 + Z.of_nat (length fs) - 1) with (Z.of_nat (length fs)) by lia.
  cbn [fmap list_fmap].
  destruct fs as [|f' fs].
  - cbn [length Z.of_nat] in *. rewrite Page.slots_from_nil by lia.
    exists st1, ({[Page.slot L f1 0]} ∪ ∅), F1.
    split; [eapply LinkedPool.exec_alloc; [exact Hneed|exact Hal|constructor]|].
    split; [exact HA1|]. split; [exact Hlay|].
    replace (1 + 0) with (0 + 1) by lia. exact Hfr1.
  - assert (Hlt : 0 + 1 < LinkedPool.m_poolSize (LinkedPool.this st0))
      by (cbn [length] in Hn; lia).
    destruct (decide (0 + 1 < LinkedPool.m_poolSize (LinkedPool.this st0)));
      [|contradiction].
    assert (HL1 : Page.layout_ok (LinkedPool.layout_of PAGE_SIZE (LinkedPool.this st1)))
      by (rewrite Hlay; exact HL).
    assert (Hn1 : 0 + 1 + Z.of_nat (length (f' :: fs))
                  <= LinkedPool.m_poolSize (LinkedPool.this st1))
      by (rewrite Hcapeq; lia).
    destruct (LinkedPool.exec_first_page PAGE_SIZE lg Hlg HP (f' :: fs) st1 F1 _ f1 (0 + 1)
                HL1 Hfr1 Hn1) as (st' & F' & Hex & Hlay' & Hfr' & _).
    pose proof (exec_page_kept PAGE_SIZE lg Hlg HP (f' :: fs) st1 F1 _ f1 (0 + 1) _ _ _
                  HL1 Hfr1 Hn1 Hex) as HA'.
    rewrite Hlay in Hex, Hfr'. rewrite Hcapeq in Hfr'.
    replace (0 + 1 + Z.of_nat (length (f' :: fs)))
      with (1 + Z.of_nat (length (f' :: fs))) in Hfr' by lia.
    eexists st', _, F'.
    split; [eapply LinkedPool.exec_alloc; [exact Hneed|exact Hal|exact Hex]|].
    split; [congruence|]. split; [congruence|]. exact Hfr'.
Qed.

(** X6: when [deallocate] does not free the page (its counter of occupied
    slots is not 1), the next [allocate] returns the slot just given back,
    without obtaining a page. *)
Theorem linked_pool_reuses_freed_slot (PAGE_SIZE lg : Z) (h : gmap Z Z)
    (sizeofT alignofT : Z) (ops : list LinkedPool.op)
    (st : LinkedPool.machine) (live : gset Z) (ps : list Z) (p fresh : Z) :
  0 <= lg -> PAGE_SIZE = 2 ^ lg ->
  let L := LinkedPool.layout_of PAGE_SIZE
             (LinkedPool.this (LinkedPool.init PAGE_SIZE h sizeofT alignofT)) in
  Page.layout_ok L ->
  LinkedPool.exec PAGE_SIZE (LinkedPool.init PAGE_SIZE h sizeofT alignofT) ∅ ops st live ps ->
  p ∈ live ->
  Mem.load (LinkedPool.heap st)
           (getPoolHeader PAGE_SIZE p + LinkedPool.off_occupiedSlots) <> 1 ->
  let st1 := LinkedPool.deallocate PAGE_SIZE st p in
  snd (LinkedPool.allocate st1 fresh) = p /\
  LinkedPool.allocated (fst (LinkedPool.allocate st1 fresh)) = LinkedPool.allocated st.
Proof.
  intros Hlg HP L HL Hex Hp Hocc st1.
  destruct (linked_pool_reachable PAGE_SIZE lg h sizeofT alignofT ops st live ps
              Hlg HP HL Hex) as (Hlay & F & Hinv & _).
  fold L in Hlay, Hinv.
  assert (HL' : Page.layout_ok (LinkedPool.layout_of PAGE_SIZE (LinkedPool.this st)))
    by (rewrite Hlay; exact HL).
  assert (Hinv0 : Page.set_inv (LinkedPool.layout_of PAGE_SIZE (LinkedPool.this st)) F
                    (LinkedPool.heap st) (LinkedPool.allocated st)
                    (LinkedPool.m_freePools (LinkedPool.this st))
                    (LinkedPool.m_freePool (LinkedPool.this st)) live)
    by (rewrite Hlay; exact Hinv).
  pose proof (LinkedPool.deallocate_spec PAGE_SIZE lg Hlg HP st F live p HL' Hinv0 Hp)
    as Hspec.
  cbv zeta in Hspec. rewrite Hlay in Hspec.
  destruct Hspec as (b & HbA & Hps & Hpl & Hmask & _ & Hthis & Hcases).
  rewrite Hmask in Hocc. fold st1 in Hthis, Hcases.
  destruct (decide (Mem.load (LinkedPool.heap st) (b + LinkedPool.off_occupiedSlots) = 1))
    as [E|_]; [contradiction|].
  destruct Hcases as (HA & Hfpool & _ & Hinv1).
  assert (Hlay1 : LinkedPool.layout_of PAGE_SIZE (LinkedPool.this st1) = L)
    by (rewrite Hthis; exact Hlay).
  assert (Hb0 : b <> 0).
  { destruct Hinv as (Hpages & _). destruct (Hpages b HbA) as ((Hpos & _) & _). lia. }
  assert (Hneed : LinkedPool.needs_page st1 ->
            Page.good_page (LinkedPool.layout_of PAGE_SIZE (LinkedPool.this st1)) fresh /\
            fresh ∉ LinkedPool.allocated st1).
  { intros (Hz & _). congruence. }
  rewrite <- Hlay1 in Hinv1.
  assert (HL1 : Page.layout_ok (LinkedPool.layout_of PAGE_SIZE (LinkedPool.this st1)))
    by (rewrite Hlay1; exact HL).
  destruct (LinkedPool.allocate_spec PAGE_SIZE lg Hlg HP st1 _ _ fresh HL1 Hinv1 Hneed)
    as (st2 & p2 & b2 & l & Hal & _ & _ & _ & _ & _ & Hc).
  rewrite Hal. cbn [fst snd].
  destruct Hc as [(HA2 & HFb & _ & Hcached & _)|(_ & _ & _ & _ & Hz & _)];
    [|congruence].
  rewrite Hfpool in Hcached. rewrite (Hcached Hb0) in HFb.
  rewrite fn_lookup_insert in HFb. injection HFb as <- _.
  split; [reflexivity|congruence].
Qed.

(** X7: a pool whose clients have given back every slot they took holds no
    page: each page obtained from the system has been freed, no page is
    registered and the cached pool is null. *)
Theorem linked_pool_no_leak (PAGE_SIZE lg : Z) (h : gmap Z Z)
    (sizeofT alignofT : Z) (ops : list LinkedPool.op)
    (st : LinkedPool.machine) (live : gset Z) (ps : list Z) :
  0 <= lg -> PAGE_SIZE = 2 ^ lg ->
  Page.layout_ok (LinkedPool.layout_of PAGE_SIZE
                    (LinkedPool.this (LinkedPool.init PAGE_SIZE h sizeofT alignofT))) ->
  LinkedPool.exec PAGE_SIZE (LinkedPool.init PAGE_SIZE h sizeofT alignofT) ∅ ops st live ps ->
  live = ∅ ->
  LinkedPool.allocated st = ∅ /\
  LinkedPool.m_freePools (LinkedPool.this st) = ∅ /\
  LinkedPool.m_freePool (LinkedPool.this st) = 0.
Proof.
  intros Hlg HP HL Hex ->.
  destruct (linked_pool_reachable PAGE_SIZE lg h sizeofT alignofT ops st ∅ ps
              Hlg HP HL Hex) as (_ & F & Hinv & Hocc).
  exact (Page.set_inv_no_leak _ HL F _ _ _ _ Hinv Hocc).
Qed.

(** X8: the first [n] allocations from a new pool, for [n] up to the pool
    size, are served by one page obtained at the first call and return its
    slots in ascending order of address: the [k]-th returns the address of
    the page plus the padded header plus [k] slot sizes. *)
Theorem linked_pool_first_page_in_order (PAGE_SIZE lg : Z) (h : gmap Z Z)
    (sizeofT alignofT f1 : Z) (fs : list Z) :
  0 <= lg -> PAGE_SIZE = 2 ^ lg ->
  let st0 := LinkedPool.init PAGE_SIZE h sizeofT alignofT in
  let lp := LinkedPool.this st0 in
  let L := LinkedPool.layout_of PAGE_SIZE lp in
  let n := 1 + Z.of_nat (length fs) in
  Page.layout_ok L -> Page.good_page L f1 ->
  n <= LinkedPool.m_poolSize lp ->
  exists st live,
    LinkedPool.exec PAGE_SIZE st0 ∅ (LinkedPool.Allocate <$> f1 :: fs) st live
      ((fun k => f1 + (LinkedPool.sizeof_PoolHeader + LinkedPool.m_headerPadding lp)
                 + k * LinkedPool.m_slotSize lp) <$> seqZ 0 n) /\
    LinkedPool.allocated st = {[f1]}.
Proof.
  intros Hlg HP st0 lp L n HL Hg Hn.
  destruct (exec_fill_page PAGE_SIZE lg Hlg HP h sizeofT alignofT f1 fs HL Hg Hn)
    as (st & live & _ & Hex & HA & _).
  exists st, live. split; [exact Hex|exact HA].
Qed.

(** X9: once the first page of a new pool is full, the next allocation
    obtains a second page and returns its first slot; the pool then owns
    both pages. *)
Theorem linked_pool_full_page_spills (PAGE_SIZE lg : Z) (h : gmap Z Z)
    (sizeofT alignofT f1 f2 : Z) (fs : list Z) :
  0 <= lg -> PAGE_SIZE = 2 ^ lg ->
  let st0 := LinkedPool.init PAGE_SIZE h sizeofT alignofT in
  let lp := LinkedPool.this st0 in
  let L := LinkedPool.layout_of PAGE_SIZE lp in
  Page.layout_ok L -> Page.good_page L f1 -> Page.good_page L f2 -> f2 <> f1 ->
  1 + Z.of_nat (length fs) = LinkedPool.m_poolSize lp ->
  exists st live,
    LinkedPool.exec PAGE_SIZE st0 ∅
      (LinkedPool.Allocate <$> (f1 :: fs) ++ [f2]) st live
      ((Page.slot L f1 <$> seqZ 0 (LinkedPool.m_poolSize lp)) ++ [Page.slot L f2 0]) /\
    LinkedPool.allocated st = {[f2]} ∪ {[f1]} /\
    getPoolHeader PAGE_SIZE (Page.slot L f2 0) = f2.
Proof.
  intros Hlg HP st0 lp L HL Hg1 Hg2 Hne Hn.
  destruct (exec_fill_page PAGE_SIZE lg Hlg HP h sizeofT alignofT f1 fs HL Hg1
              ltac:(fold st0 lp; lia))
    as (st & live & F & Hex & HA & Hlay & Hfr).
  fold st0 lp L in Hex, Hlay, Hfr. rewrite Hn in Hex, Hfr.
  destruct (decide (LinkedPool.m_poolSize lp < LinkedPool.m_poolSize lp)); [lia|].
  assert (HLs : Page.layout_ok (LinkedPool.layout_of PAGE_SIZE (LinkedPool.this st)))
    by (rewrite Hlay; exact HL).
  assert (Hneed : LinkedPool.needs_page st ->
            Page.good_page (LinkedPool.layout_of PAGE_SIZE (LinkedPool.this st)) f2 /\
            f2 ∉ LinkedPool.allocated st).
  { intros _. rewrite Hlay, HA. split; [exact Hg2|].
    intros Hin. apply elem_of_singleton in Hin. contradiction. }
  destruct (LinkedPool.fresh_run_allocate PAGE_SIZE lg Hlg HP st F live None f2 HLs Hfr Hneed)
    as (st2 & F2 & Hstep).
  cbn [LinkedPool.next_slot] in Hstep. rewrite Hlay in Hstep.
  destruct Hstep as (Hal & _ & _ & _ & _ & _ & _ & Hi & _ & HA2 & _).
  exists st2, ({[Page.slot L f2 0]} ∪ live).
  split; [|split].
  - rewrite fmap_app.
    eapply LinkedPool.exec_app; [exact Hex|].
    eapply LinkedPool.exec_alloc; [exact Hneed|exact Hal|constructor].
  - rewrite HA2, HA. reflexivity.
  - apply (LinkedPool.slot_page PAGE_SIZE lg Hlg HP lp f2); [exact HL|exact Hg2|].
    exists 0. split; [|reflexivity].
    destruct HL as (_ & _ & _ & _ & _ & _ & Hc & _).
    subst L. cbn [Page.capacity LinkedPool.layout_of] in Hc |- *. lia.
Qed.

(** X10: in a run of allocations only from a new pool, no pointer is
    returned twice, none is null, and two consecutive results that lie in
    the same page differ by exactly the slot size. *)
Theorem linked_pool_allocations_strided (PAGE_SIZE lg : Z) (h : gmap Z Z)
    (sizeofT alignofT : Z) (ops : list LinkedPool.op)
    (st : LinkedPool.machine) (live : gset Z) (ps : list Z) :
  0 <= lg -> PAGE_SIZE = 2 ^ lg ->
  let st0 := LinkedPool.init PAGE_SIZE h sizeofT alignofT in
  Page.layout_ok (LinkedPool.layout_of PAGE_SIZE (LinkedPool.this st0)) ->
  LinkedPool.exec PAGE_SIZE st0 ∅ ops st live ps ->
  Forall LinkedPool.is_Allocate ops ->
  NoDup ps /\ (forall p, p ∈ ps -> p <> 0) /\
  forall (k : nat) p q,
    ps !! k = Some p -> ps !! S k = Some q ->
    getPoolHeader PAGE_SIZE p = getPoolHeader PAGE_SIZE q ->
    q = p + LinkedPool.m_slotSize (LinkedPool.this st0).
Proof.
  intros Hlg HP st0 HL Hex Hops.
  destruct (LinkedPool.exec_allocations PAGE_SIZE lg Hlg HP _ _ _ _ _ _ Hex HL
              (LinkedPool.Inv_init PAGE_SIZE lg Hlg HP h sizeofT alignofT) Hops)
    as (Hnd & Hnz & _).
  split; [exact Hnd|]. split; [intros p Hp; apply (Hnz p Hp)|].
  apply (LinkedPool.strided_lookup PAGE_SIZE _ ps None).
  apply (LinkedPool.fresh_run_exec PAGE_SIZE lg Hlg HP _ _ _ _ _ _ Hex _ None None HL
           (LinkedPool.fresh_run_init PAGE_SIZE lg Hlg HP h sizeofT alignofT) Hops).
  intros q Hq. discriminate.
Qed.

(** X11: slots given back are reused last in, first out (test_interleaving):
    of five slots A..E taken from a new pool, B and then E are given back;
    the next two allocations return E and then B. *)
Theorem linked_pool_interleaving (PAGE_SIZE lg : Z) (h : gmap Z Z)
    (sizeofT alignofT f1 f2 f3 f4 f5 f6 f7 : Z) :
  0 <= lg -> PAGE_SIZE = 2 ^ lg ->
  let st0 := LinkedPool.init PAGE_SIZE h sizeofT alignofT in
  let L := LinkedPool.layout_of PAGE_SIZE (LinkedPool.this st0) in
  Page.layout_ok L -> 5 <= LinkedPool.m_poolSize (LinkedPool.this st0) ->
  Page.good_page L f1 ->
  let A := Page.slot L f1 0 in
  let B := Page.slot L f1 1 in
  let C := Page.slot L f1 2 in
  let D := Page.slot L f1 3 in
  let E := Page.slot L f1 4 in
  exists st' live',
    LinkedPool.exec PAGE_SIZE st0 ∅
      [LinkedPool.Allocate f1; LinkedPool.Allocate f2; LinkedPool.Allocate f3;
       LinkedPool.Allocate f4; LinkedPool.Allocate f5;
       LinkedPool.Deallocate B; LinkedPool.Deallocate E;
       LinkedPool.Allocate f6; LinkedPool.Allocate f7]
      st' live' [A; B; C; D; E; E; B].
Proof.
  intros Hlg HP st0 L HL H5 Hg.
  exact (LinkedPool.interleaving PAGE_SIZE lg Hlg HP h sizeofT alignofT
           f1 f2 f3 f4 f5 f6 f7 HL H5 Hg).
Qed.

(** *** Instances: a pool of 16-byte objects on 4 KiB pages

    The pool has 255 slots of 16 bytes per page, the first 16 bytes after
    the page's address; the system answers the first [aligned_alloc] with
    the page 65536. *)

(** Builds the run of a list of calls on a closed state by evaluation. *)
Ltac exec_step :=
  lazymatch goal with
  | |- LinkedPool.exec _ _ _ [] _ _ _ => apply LinkedPool.exec_nil
  | |- LinkedPool.exec _ ?st _ (LinkedPool.Allocate ?f :: _) _ _ _ =>
      eapply (LinkedPool.exec_alloc _ st _ f (fst (LinkedPool.allocate st f)));
      [ let Hnp := fresh "Hnp" in
        intros Hnp;
        first [ destruct Hnp as [Hnp _]; vm_compute in Hnp; discriminate
              | split; [ vm_compute; intuition discriminate
                       | apply (bool_decide_unpack _); vm_compute; exact I ] ]
      | etransitivity; [apply surjective_pairing|];
        f_equal; vm_compute; reflexivity
      | ]
  | |- LinkedPool.exec _ _ _ (LinkedPool.Deallocate _ :: _) _ _ _ =>
      apply LinkedPool.exec_dealloc;
      [ apply (bool_decide_unpack _); vm_compute; exact I | ]
  end.

Ltac layout_facts := vm_compute; intuition discriminate.

Lemma linked_pool_run_invariant_witness :
  exists st live,
    LinkedPool.exec 4096 (LinkedPool.init 4096 ∅ 16 8) ∅
      [LinkedPool.Allocate 65536; LinkedPool.Allocate 0; LinkedPool.Allocate 0;
       LinkedPool.Deallocate 65568; LinkedPool.Allocate 0]
      st live [65552; 65568; 65584; 65568] /\
    LinkedPool.m_freePools (LinkedPool.this st) ⊆ LinkedPool.allocated st /\
    forall p, p ∈ live -> getPoolHeader 4096 p ∈ LinkedPool.allocated st.
Proof.
  eassert (Hex : LinkedPool.exec 4096 (LinkedPool.init 4096 ∅ 16 8) ∅
             [LinkedPool.Allocate 65536; LinkedPool.Allocate 0; LinkedPool.Allocate 0;
              LinkedPool.Deallocate 65568; LinkedPool.Allocate 0]
             _ _ [65552; 65568; 65584; 65568]) by (repeat exec_step).
  assert (HL : Page.layout_ok (LinkedPool.layout_of 4096
                 (LinkedPool.this (LinkedPool.init 4096 ∅ 16 8)))) by layout_facts.
  destruct (linked_pool_run_invariant 4096 12 ∅ 16 8 _ _ _ _ ltac:(lia) eq_refl HL Hex)
    as (_ & _ & Hsub & _ & Hlive).
  eexists _, _. split; [exact Hex|].
  split; [exact Hsub|]. intros p Hp. apply (Hlive p Hp).
Defined.

Lemma linked_pool_allocate_new_slot_witness :
  let st0 := LinkedPool.init 4096 ∅ 16 8 in
  snd (LinkedPool.allocate st0 65536) = 65552 /\
  LinkedPool.allocated (fst (LinkedPool.allocate st0 65536)) = {[65536]} ∪ ∅.
Proof.
  intros st0.
  assert (HL : Page.layout_ok (LinkedPool.layout_of 4096 (LinkedPool.this st0)))
    by layout_facts.
  assert (Hg : Page.good_page (LinkedPool.layout_of 4096 (LinkedPool.this st0)) 65536)
    by layout_facts.
  assert (Hnp : LinkedPool.needs_page st0) by (split; reflexivity).
  destruct (linked_pool_allocate_new_slot 4096 12 ∅ 16 8 [] st0 ∅ [] 65536
              ltac:(lia) eq_refl HL (LinkedPool.exec_nil 4096 st0 ∅)
              (fun _ => conj Hg (not_elem_of_empty 65536)))
    as (_ & _ & _ & _ & Hnew & _).
  destruct (Hnew Hnp) as (HA & Hp). split; [exact Hp|exact HA].
Defined.

Lemma linked_pool_deallocate_page_witness :
  let st1 := fst (LinkedPool.allocate (LinkedPool.init 4096 ∅ 16 8) 65536) in
  let st' := LinkedPool.deallocate 4096 st1 65552 in
  LinkedPool.allocated st' = LinkedPool.allocated st1 ∖ {[65536]} /\
  LinkedPool.heap st' = LinkedPool.heap st1.
Proof.
  intros st1 st'.
  assert (HL : Page.layout_ok (LinkedPool.layout_of 4096
                 (LinkedPool.this (LinkedPool.init 4096 ∅ 16 8)))) by layout_facts.
  assert (Hex : LinkedPool.exec 4096 (LinkedPool.init 4096 ∅ 16 8) ∅
                  [LinkedPool.Allocate 65536] st1 ({[65552]} ∪ ∅) [65552])
    by (repeat exec_step).
  assert (Hp : 65552 ∈ ({[65552]} ∪ ∅ : gset Z))
    by (apply (bool_decide_unpack _); vm_compute; exact I).
  destruct (linked_pool_deallocate_page 4096 12 ∅ 16 8 _ st1 _ _ 65552
              ltac:(lia) eq_refl HL Hex Hp) as (_ & _ & Hlast & _).
  assert (Hocc : Mem.load (LinkedPool.heap st1)
                   (getPoolHeader 4096 65552 + LinkedPool.off_occupiedSlots) = 1)
    by (vm_compute; reflexivity).
  destruct (Hlast Hocc) as (HA & Hh & _). split; [exact HA|exact Hh].
Defined.

Lemma linked_pool_reuses_freed_slot_witness :
  let st1 := fst (LinkedPool.allocate (LinkedPool.init 4096 ∅ 16 8) 65536) in
  let st2 := fst (LinkedPool.allocate st1 0) in
  snd (LinkedPool.allocate (LinkedPool.deallocate 4096 st2 65552) 0) = 65552.
Proof.
  intros st1 st2.
  assert (HL : Page.layout_ok (LinkedPool.layout_of 4096
                 (LinkedPool.this (LinkedPool.init 4096 ∅ 16 8)))) by layout_facts.
  assert (Hex : LinkedPool.exec 4096 (LinkedPool.init 4096 ∅ 16 8) ∅
                  [LinkedPool.Allocate 65536; LinkedPool.Allocate 0] st2
                  ({[65568]} ∪ ({[65552]} ∪ ∅)) [65552; 65568])
    by (repeat exec_step).
  assert (Hp : 65552 ∈ ({[65568]} ∪ ({[65552]} ∪ ∅) : gset Z))
    by (apply (bool_decide_unpack _); vm_compute; exact I).
  assert (Hocc : Mem.load (LinkedPool.heap st2)
                   (getPoolHeader 4096 65552 + LinkedPool.off_occupiedSlots) <> 1)
    by (vm_compute; discriminate).
  exact (proj1 (linked_pool_reuses_freed_slot 4096 12 ∅ 16 8 _ st2 _ _ 65552 0
                  ltac:(lia) eq_refl HL Hex Hp Hocc)).
Defined.

Lemma linked_pool_no_leak_witness :
  let st1 := fst (LinkedPool.allocate (LinkedPool.init 4096 ∅ 16 8) 65536) in
  LinkedPool.allocated st1 = {[65536]} ∪ ∅ /\
  LinkedPool.allocated (LinkedPool.deallocate 4096 st1 65552) = ∅.
Proof.
  intros st1.
  assert (HL : Page.layout_ok (LinkedPool.layout_of 4096
                 (LinkedPool.this (LinkedPool.init 4096 ∅ 16 8)))) by layout_facts.
  assert (Hex : LinkedPool.exec 4096 (LinkedPool.init 4096 ∅ 16 8) ∅
                  [LinkedPool.Allocate 65536; LinkedPool.Deallocate 65552]
                  (LinkedPool.deallocate 4096 st1 65552)
                  (({[65552]} ∪ ∅) ∖ {[65552]}) [65552])
    by (repeat exec_step).
  assert (Hlive : ({[65552]} ∪ ∅) ∖ {[65552]} = (∅ : gset Z))
    by (vm_compute; reflexivity).
  split; [reflexivity|].
  exact (proj1 (linked_pool_no_leak 4096 12 ∅ 16 8 _ _ _ _
                  ltac:(lia) eq_refl HL Hex Hlive)).
Defined.

Lemma linked_pool_first_page_in_order_witness :
  exists st live,
    LinkedPool.exec 4096 (LinkedPool.init 4096 ∅ 16 8) ∅
      [LinkedPool.Allocate 65536; LinkedPool.Allocate 0; LinkedPool.Allocate 0]
      st live [65552; 65568; 65584] /\
    LinkedPool.allocated st = {[65536]}.
Proof.
  assert (HL : Page.layout_ok (LinkedPool.layout_of 4096
                 (LinkedPool.this (LinkedPool.init 4096 ∅ 16 8)))) by layout_facts.
  assert (Hg : Page.good_page (LinkedPool.layout_of 4096
                 (LinkedPool.this (LinkedPool.init 4096 ∅ 16 8))) 65536) by layout_facts.
  assert (Hn : 1 + Z.of_nat (length [0; 0])
               <= LinkedPool.m_poolSize (LinkedPool.this (LinkedPool.init 4096 ∅ 16 8)))
    by (vm_compute; discriminate).
  exact (linked_pool_first_page_in_order 4096 12 ∅ 16 8 65536 [0; 0]
           ltac:(lia) eq_refl HL Hg Hn).
Defined.

Lemma linked_pool_full_page_spills_witness :
  exists st live,
    LinkedPool.exec 4096 (LinkedPool.init 4096 ∅ 16 8) ∅
      (LinkedPool.Allocate <$> (65536 :: replicate 254 0) ++ [131072]) st live
      (((fun k => 65552 + k * 16) <$> seqZ 0 255) ++ [131088]) /\
    LinkedPool.allocated st = {[131072]} ∪ {[65536]}.
Proof.
  assert (HL : Page.layout_ok (LinkedPool.layout_of 4096
                 (LinkedPool.this (LinkedPool.init 4096 ∅ 16 8)))) by layout_facts.
  assert (Hg1 : Page.good_page (LinkedPool.layout_of 4096
                  (LinkedPool.this (LinkedPool.init 4096 ∅ 16 8))) 65536) by layout_facts.
  assert (Hg2 : Page.good_page (LinkedPool.layout_of 4096
                  (LinkedPool.this (LinkedPool.init 4096 ∅ 16 8))) 131072) by layout_facts.
  assert (Hn : 1 + Z.of_nat (length (replicate 254 0))
               = LinkedPool.m_poolSize (LinkedPool.this (LinkedPool.init 4096 ∅ 16 8)))
    by (vm_compute; reflexivity).
  destruct (linked_pool_full_page_spills 4096 12 ∅ 16 8 65536 131072 (replicate 254 0)
              ltac:(lia) eq_refl HL Hg1 Hg2 ltac:(lia) Hn)
    as (st & live & Hex & HA & _).
  exists st, live. split; [exact Hex|exact HA].
Defined.

Lemma linked_pool_allocations_strided_witness :
  NoDup [65552; 65568; 65584] /\
  forall (k : nat) p q,
    [65552; 65568; 65584] !! k = Some p -> [65552; 65568; 65584] !! S k = Some q ->
    getPoolHeader 4096 p = getPoolHeader 4096 q -> q = p + 16.
Proof.
  assert (HL : Page.layout_ok (LinkedPool.layout_of 4096
                 (LinkedPool.this (LinkedPool.init 4096 ∅ 16 8)))) by layout_facts.
  eassert (Hex : LinkedPool.exec 4096 (LinkedPool.init 4096 ∅ 16 8) ∅
             [LinkedPool.Allocate 65536; LinkedPool.Allocate 0; LinkedPool.Allocate 0]
             _ _ [65552; 65568; 65584]) by (repeat exec_step).
  assert (Hops : Forall LinkedPool.is_Allocate
                   [LinkedPool.Allocate 65536; LinkedPool.Allocate 0; LinkedPool.Allocate 0])
    by (repeat constructor).
  destruct (linked_pool_allocations_strided 4096 12 ∅ 16 8 _ _ _ _
              ltac:(lia) eq_refl HL Hex Hops) as (Hnd & _ & Hstride).
  split; [exact Hnd|exact Hstride].
Defined.

Lemma linked_pool_interleaving_witness :
  exists st' live',
    LinkedPool.exec 4096 (LinkedPool.init 4096 ∅ 16 8) ∅
      [LinkedPool.Allocate 65536; LinkedPool.Allocate 0; LinkedPool.Allocate 0;
       LinkedPool.Allocate 0; LinkedPool.Allocate 0;
       LinkedPool.Deallocate 65568; LinkedPool.Deallocate 65616;
       LinkedPool.Allocate 0; LinkedPool.Allocate 0]
      st' live' [65552; 65568; 65584; 65600; 65616; 65616; 65568].
Proof.
  assert (HL : Page.layout_ok (LinkedPool.layout_of 4096
                 (LinkedPool.this (LinkedPool.init 4096 ∅ 16 8)))) by layout_facts.
  assert (Hg : Page.good_page (LinkedPool.layout_of 4096
                 (LinkedPool.this (LinkedPool.init 4096 ∅ 16 8))) 65536) by layout_facts.
  assert (H5 : 5 <= LinkedPool.m_poolSize (LinkedPool.this (LinkedPool.init 4096 ∅ 16 8)))
    by (vm_compute; discriminate).
  exact (linked_pool_interleaving 4096 12 ∅ 16 8 65536 0 0 0 0 0 0
           ltac:(lia) eq_refl HL H5 Hg).
Defined.


(** ** [GlobalLinkedPool2] *)

(** The states a new pool reaches keep their layout, the invariant of the
    set of pages, a held slot in every page and the tags of the headers. *)
Lemma global_pool_reachable (PAGE_SIZE lg : Z) (h : gmap Z Z) (t_sizeOfObjects : Z)
    (ops : list GlobalLinkedPool2.op) (st : GlobalLinkedPool2.machine)
    (live : gset Z) (ps : list Z) :
  0 <= lg -> PAGE_SIZE = 2 ^ lg ->
  let L := GlobalLinkedPool2.layout_of PAGE_SIZE
             (GlobalLinkedPool2.this (GlobalLinkedPool2.init PAGE_SIZE h t_sizeOfObjects)) in
  Page.layout_ok L ->
  GlobalLinkedPool2.exec PAGE_SIZE (GlobalLinkedPool2.init PAGE_SIZE h t_sizeOfObjects) ∅
                         ops st live ps ->
  GlobalLinkedPool2.layout_of PAGE_SIZE (GlobalLinkedPool2.this st) = L /\
  exists F,
    Page.set_inv L F (GlobalLinkedPool2.heap st) (GlobalLinkedPool2.allocated st)
                 (GlobalLinkedPool2.m_freePools (GlobalLinkedPool2.this st))
                 (GlobalLinkedPool2.m_freePool (GlobalLinkedPool2.this st)) live /\
    forall b, b ∈ GlobalLinkedPool2.allocated st ->
      1 <= Mem.load (GlobalLinkedPool2.heap st) (b + GlobalLinkedPool2.off_sizeOfPool) /\
      GlobalLinkedPool2.tagged (GlobalLinkedPool2.this st) (GlobalLinkedPool2.heap st) b.
Proof.
  intros Hlg HP L HL Hex.
  destruct (GlobalLinkedPool2.exec_Inv2 PAGE_SIZE lg Hlg HP _ _ _ _ _ _ Hex HL
              (GlobalLinkedPool2.Inv2_init PAGE_SIZE lg Hlg HP h t_sizeOfObjects))
    as ((F & Hinv & Htag) & Hlay).
  fold L in Hlay. split; [exact Hlay|]. exists F. rewrite Hlay in Hinv. auto.
Qed.

(** X12: the constructor of [GlobalLinkedPool2] gives objects smaller than a
    pointer slots of 8 bytes (so the default constructor builds the pool of
    8-byte objects), and counts as many slots as fit in a page behind the
    32-byte header: all of them fit, one more would not. *)
Theorem global_pool_constructor_capacity (PAGE_SIZE t_sizeOfObjects : Z) :
  32 <= PAGE_SIZE < 2 ^ 64 ->
  let lp := GlobalLinkedPool2.new_GlobalLinkedPool2 PAGE_SIZE t_sizeOfObjects in
  let s := GlobalLinkedPool2.m_sizeOfObjects lp in
  let n := GlobalLinkedPool2.m_poolSize lp in
  s = Z.max 8 t_sizeOfObjects /\
  0 <= n /\
  GlobalLinkedPool2.sizeof_PoolHeaderG2 + n * s <= PAGE_SIZE /\
  PAGE_SIZE < GlobalLinkedPool2.sizeof_PoolHeaderG2 + (n + 1) * s /\
  (t_sizeOfObjects <= 8 ->
   lp = GlobalLinkedPool2.new_GlobalLinkedPool2_default PAGE_SIZE).
Proof.
  intros HP lp s n. subst n s lp.
  unfold GlobalLinkedPool2.new_GlobalLinkedPool2,
    GlobalLinkedPool2.new_GlobalLinkedPool2_default,
    GlobalLinkedPool2.sizeof_PoolHeaderG2, GlobalLinkedPool2.sizeof_NodeG2.
  cbn [GlobalLinkedPool2.m_sizeOfObjects GlobalLinkedPool2.m_poolSize].
  set (s := if t_sizeOfObjects <? 8 then 8 else t_sizeOfObjects).
  assert (Hs : s = Z.max 8 t_sizeOfObjects)
    by (unfold s; destruct (Z.ltb_spec t_sizeOfObjects 8); lia).
  rewrite to_size_t_small by (unfold SIZE_BITS; lia).
  pose proof (Z.div_mod (PAGE_SIZE - 32) s ltac:(lia)) as E.
  pose proof (Z.mod_pos_bound (PAGE_SIZE - 32) s ltac:(lia)) as Hr.
  assert (Hq : 0 <= (PAGE_SIZE - 32) / s) by (apply Z.div_pos; lia).
  split; [exact Hs|]. split; [exact Hq|]. split; [nia|]. split; [nia|].
  intros Hle. replace s with 8 by lia. reflexivity.
Qed.

Lemma global_pool_constructor_capacity_witness :
  let lp := GlobalLinkedPool2.new_GlobalLinkedPool2 4096 24 in
  GlobalLinkedPool2.m_sizeOfObjects lp = 24 /\
  32 + GlobalLinkedPool2.m_poolSize lp * 24 <= 4096 /\
  4096 < 32 + (GlobalLinkedPool2.m_poolSize lp + 1) * 24.
Proof.
  destruct (global_pool_constructor_capacity 4096 24 ltac:(lia))
    as (Hs & _ & Hfit & Hmax & _).
  split; [exact Hs|]. split; [exact Hfit|exact Hmax].
Defined.

(** X13: when [allocate] has obtained a page, the lines that initialise its
    metadata leave a header tagged with [IS_POOL], holding the size of the
    pool's objects and a counter of 0, whose list links all the slots of the
    page in ascending order, the first right behind the header, and ends in
    null; no byte outside the page is written. *)
Theorem global_pool_new_page_header (PAGE_SIZE lg : Z)
    (lp : GlobalLinkedPool2.GlobalLinkedPool2) (h : gmap Z Z) (b : Z) :
  0 <= lg -> PAGE_SIZE = 2 ^ lg ->
  let L := GlobalLinkedPool2.layout_of PAGE_SIZE lp in
  Page.layout_ok L -> Page.good_page L b ->
  let h' := GlobalLinkedPool2.init_pool lp h b in
  Mem.load_bytes 8 h' (b + GlobalLinkedPool2.off_isPool) = GlobalLinkedPool2.IS_POOL /\
  Mem.load h' (b + GlobalLinkedPool2.off_sizeOfPool) = 0 /\
  Mem.load h' (b + GlobalLinkedPool2.off_sizeOfObjects)
    = GlobalLinkedPool2.m_sizeOfObjects lp /\
  Page.walk (S (Z.to_nat (GlobalLinkedPool2.m_poolSize lp))) h'
            (Mem.load h' (b + GlobalLinkedPool2.off_head))
    = (fun k => b + GlobalLinkedPool2.sizeof_PoolHeaderG2
                + k * GlobalLinkedPool2.m_sizeOfObjects lp)
      <$> seqZ 0 (GlobalLinkedPool2.m_poolSize lp) /\
  (forall a, ~ (b <= a < b + PAGE_SIZE) -> Mem.load8 h' a = Mem.load8 h a).
Proof.
  intros Hlg HP L HL Hb h'.
  destruct (GlobalLinkedPool2.init_pool_spec PAGE_SIZE lg Hlg HP lp h b HL Hb)
    as (Hframe & (Hfl & Hnd & Hall & Hocc) & Htag & Hsz).
  fold h' in Hframe, Hfl, Hocc, Htag, Hsz. fold L in Hfl, Hocc.
  assert (Hcap : 1 <= GlobalLinkedPool2.m_poolSize lp)
    by (destruct HL as (_ & _ & _ & _ & _ & _ & Hc & _); exact Hc).
  pose proof (Page.slots_from_length L b 0 (GlobalLinkedPool2.m_poolSize lp) ltac:(lia))
    as Hlen.
  split; [exact Htag|]. split; [|split; [exact Hsz|split; [|exact Hframe]]].
  - change (Page.occ_off L) with GlobalLinkedPool2.off_sizeOfPool in Hocc.
    change (Page.capacity L) with (GlobalLinkedPool2.m_poolSize lp) in Hocc. lia.
  - change (Page.head_off L) with GlobalLinkedPool2.off_head in Hfl.
    change (Page.walk (S (Z.to_nat (GlobalLinkedPool2.m_poolSize lp))) h'
              (Mem.load h' (b + GlobalLinkedPool2.off_head))
            = Page.slots_from L b 0 (GlobalLinkedPool2.m_poolSize lp)).
    apply (Page.walk_flist h' _ _ _ Hfl). lia.
Qed.

Lemma global_pool_new_page_header_witness :
  let lp := GlobalLinkedPool2.new_GlobalLinkedPool2 4096 16 in
  let h' := GlobalLinkedPool2.init_pool lp ∅ 65536 in
  Mem.load_bytes 8 h' 65536 = [95; 95; 112; 111; 111; 108; 95; 0] /\
  Mem.load h' (65536 + 16) = 16 /\
  Page.walk 255 h' (Mem.load h' (65536 + 24))
    = (fun k => 65536 + 32 + k * 16) <$> seqZ 0 254.
Proof.
  intros lp h'.
  assert (HL : Page.layout_ok (GlobalLinkedPool2.layout_of 4096 lp)) by layout_facts.
  assert (Hb : Page.good_page (GlobalLinkedPool2.layout_of 4096 lp) 65536) by layout_facts.
  destruct (global_pool_new_page_header 4096 12 lp ∅ 65536 ltac:(lia) eq_refl HL Hb)
    as (Htag & _ & Hsz & Hwalk & _).
  split; [exact Htag|]. split; [exact Hsz|exact Hwalk].
Defined.

(** X14: in every state a [GlobalLinkedPool2] reaches from its construction
    through [allocate] and [deallocate] (clients deallocating only slots they
    hold), each page obtained and not freed keeps its header: the tag
    [IS_POOL] and the size of the pool's objects are what the initialisation
    wrote, the free list is a null-terminated list without repetition of
    slots of the page, the counter plus the length of the free list is the
    pool size and the counter is at least 1.  A slot of the page is held
    exactly when it is not in the free list, the page is in [m_freePools]
    exactly when its free list is not empty, [m_freePool] is null or in
    [m_freePools], and every held slot lies in the unfreed page that
    [getPoolHeader] computes from it. *)
Theorem global_pool_run_invariant (PAGE_SIZE lg : Z) (h : gmap Z Z) (t_sizeOfObjects : Z)
    (ops : list GlobalLinkedPool2.op) (st : GlobalLinkedPool2.machine)
    (live : gset Z) (ps : list Z) :
  0 <= lg -> PAGE_SIZE = 2 ^ lg ->
  let st0 := GlobalLinkedPool2.init PAGE_SIZE h t_sizeOfObjects in
  let L := GlobalLinkedPool2.layout_of PAGE_SIZE (GlobalLinkedPool2.this st0) in
  Page.layout_ok L ->
  GlobalLinkedPool2.exec PAGE_SIZE st0 ∅ ops st live ps ->
  let lp := GlobalLinkedPool2.this st in
  let hp := GlobalLinkedPool2.heap st in
  GlobalLinkedPool2.layout_of PAGE_SIZE lp = L /\
  (forall b, b ∈ GlobalLinkedPool2.allocated st ->
     Page.good_page L b /\
     Mem.load_bytes 8 hp (b + GlobalLinkedPool2.off_isPool) = GlobalLinkedPool2.IS_POOL /\
     Mem.load hp (b + GlobalLinkedPool2.off_sizeOfObjects)
       = GlobalLinkedPool2.m_sizeOfObjects lp /\
     1 <= Mem.load hp (b + GlobalLinkedPool2.off_sizeOfPool) /\
     exists l,
       Page.flist hp (Mem.load hp (b + GlobalLinkedPool2.off_head)) l /\
       NoDup l /\ Forall (Page.is_slot L b) l /\
       Mem.load hp (b + GlobalLinkedPool2.off_sizeOfPool) + Z.of_nat (length l)
         = GlobalLinkedPool2.m_poolSize lp /\
       (forall p, Page.is_slot L b p -> (p ∈ live <-> p ∉ l)) /\
       (b ∈ GlobalLinkedPool2.m_freePools lp <-> l <> [])) /\
  GlobalLinkedPool2.m_freePools lp ⊆ GlobalLinkedPool2.allocated st /\
  (GlobalLinkedPool2.m_freePool lp = 0 \/
   GlobalLinkedPool2.m_freePool lp ∈ GlobalLinkedPool2.m_freePools lp) /\
  (forall p, p ∈ live ->
     getPoolHeader PAGE_SIZE p ∈ GlobalLinkedPool2.allocated st /\
     Page.is_slot L (getPoolHeader PAGE_SIZE p) p).
Proof.
  intros Hlg HP st0 L HL Hex lp hp. subst st0.
  destruct (global_pool_reachable PAGE_SIZE lg h t_sizeOfObjects ops st live ps
              Hlg HP HL Hex) as (Hlay & F & Hinv & Htag).
  fold L in Hlay, Hinv. fold lp in Hlay, Hinv, Htag. fold hp in Hinv, Htag.
  pose proof Hinv as (Hpages & Hsub & Hfpool & Hlive).
  split; [exact Hlay|]. split; [|split; [exact Hsub|split; [exact Hfpool|]]].
  - intros b Hb. destruct (Hpages b Hb) as (Hg & (Hfl & Hnd & Hall & Hocc) & Hreg).
    destruct (Htag b Hb) as (Hone & Ht & Hs).
    split; [exact Hg|]. split; [exact Ht|]. split; [exact Hs|]. split; [exact Hone|].
    exists (F b). split; [exact Hfl|]. split; [exact Hnd|]. split; [exact Hall|].
    split.
    { replace (GlobalLinkedPool2.m_poolSize lp) with (Page.capacity L)
        by (rewrite <- Hlay; reflexivity). exact Hocc. }
    split; [|exact Hreg].
    intros p Hp. rewrite Hlive. split.
    + intros (b' & Hb' & Hp' & Hn).
      destruct (Hpages b' Hb') as (Hg' & _).
      now rewrite (Page.is_slot_page L HL b b' p Hg Hg' Hp Hp').
    + intros Hn. exists b. auto.
  - intros p Hp.
    destruct (Page.set_inv_live_page L F _ _ _ _ _ p Hinv Hp) as (b & Hb & Hg & Hs & _).
    assert (Hm : getPoolHeader PAGE_SIZE p = b).
    { apply (GlobalLinkedPool2.glp2_slot_page PAGE_SIZE lg Hlg HP lp b p);
        rewrite Hlay; assumption. }
    rewrite Hm. split; assumption.
Qed.

(** X15: in every state a [GlobalLinkedPool2] reaches, [allocate] returns a
    non-null slot that no client holds, in a page the pool owns afterwards.
    It obtains a page from the system exactly when [m_freePool] is null and
    [m_freePools] is empty, and the slot then lies in the new page;
    otherwise the set of pages is unchanged. *)
Theorem global_pool_allocate_new_slot (PAGE_SIZE lg : Z) (h : gmap Z Z)
    (t_sizeOfObjects : Z) (ops : list GlobalLinkedPool2.op)
    (st : GlobalLinkedPool2.machine) (live : gset Z) (ps : list Z) (fresh : Z) :
  0 <= lg -> PAGE_SIZE = 2 ^ lg ->
  let L := GlobalLinkedPool2.layout_of PAGE_SIZE
             (GlobalLinkedPool2.this (GlobalLinkedPool2.init PAGE_SIZE h t_sizeOfObjects)) in
  Page.layout_ok L ->
  GlobalLinkedPool2.exec PAGE_SIZE (GlobalLinkedPool2.init PAGE_SIZE h t_sizeOfObjects) ∅
                         ops st live ps ->
  (GlobalLinkedPool2.needs_page st ->
   Page.good_page L fresh /\ fresh ∉ GlobalLinkedPool2.allocated st) ->
  let st' := fst (GlobalLinkedPool2.allocate st fresh) in
  let p := snd (GlobalLinkedPool2.allocate st fresh) in
  p <> 0 /\ (p ∉ live) /\
  getPoolHeader PAGE_SIZE p ∈ GlobalLinkedPool2.allocated st' /\
  Page.is_slot L (getPoolHeader PAGE_SIZE p) p /\
  (GlobalLinkedPool2.needs_page st ->
   GlobalLinkedPool2.allocated st' = {[fresh]} ∪ GlobalLinkedPool2.allocated st /\
   getPoolHeader PAGE_SIZE p = fresh) /\
  (~ GlobalLinkedPool2.needs_page st ->
   GlobalLinkedPool2.allocated st' = GlobalLinkedPool2.allocated st).
Proof.
  intros Hlg HP L HL Hex Hneed st' p.
  destruct (global_pool_reachable PAGE_SIZE lg h t_sizeOfObjects ops st live ps
              Hlg HP HL Hex) as (Hlay & F & Hinv & _).
  fold L in Hlay, Hinv.
  assert (HL' : Page.layout_ok (GlobalLinkedPool2.layout_of PAGE_SIZE
                                  (GlobalLinkedPool2.this st)))
    by (rewrite Hlay; exact HL).
  rewrite <- Hlay in Hinv, Hneed.
  destruct (GlobalLinkedPool2.glp2_allocate_spec PAGE_SIZE lg Hlg HP st F live fresh
              HL' Hinv Hneed)
    as (st1 & p1 & b & l & Hal & _ & Hinv' & Hpl & Hps & Hp0 & HbA & _).
  pose proof (GlobalLinkedPool2.glp2_allocate_frame PAGE_SIZE lg Hlg HP st fresh HL'
                (fun H => proj1 (Hneed H))) as Hfr.
  destruct (GlobalLinkedPool2.glp2_allocate_page PAGE_SIZE lg Hlg HP st F live fresh
              HL' Hinv Hneed) as (Hbp & Hgbp).
  cbv zeta in Hfr. subst st' p. rewrite Hal in *. cbn [fst snd] in *.
  destruct (proj1 Hinv' b HbA) as (Hgb & _).
  pose proof (Page.is_slot_page _ HL' _ _ p1 Hgb Hgbp Hps Hbp) as Hbeq.
  assert (Hm : getPoolHeader PAGE_SIZE p1 = b)
    by (apply (GlobalLinkedPool2.glp2_slot_page PAGE_SIZE lg Hlg HP
                 (GlobalLinkedPool2.this st) b p1); assumption).
  rewrite Hm. rewrite Hlay in Hps.
  split; [exact Hp0|]. split; [exact Hpl|]. split; [exact HbA|]. split; [exact Hps|].
  destruct Hfr as (_ & _ & [(Hnn & HA & _)|(Hn & Hbf & HA & _)]).
  - split; [intros Hn; contradiction|intros _; exact HA].
  - split; [intros _; split; [exact HA|congruence]|intros Hnn; contradiction].
Qed.

(** X16: in every state a [GlobalLinkedPool2] reaches, [deallocate] of a
    held slot works on the page that owns the slot and decrements its
    counter, which was at least 1.  If the counter was 1, no other slot of
    the page is held and the page is freed and unregistered.  Otherwise the
    page is kept, the slot becomes the head of the page's free list with the
    old head as its successor, and the page is registered in [m_freePools]
    and becomes [m_freePool].  No other page is freed. *)
Theorem global_pool_deallocate_page (PAGE_SIZE lg : Z) (h : gmap Z Z)
    (t_sizeOfObjects : Z) (ops : list GlobalLinkedPool2.op)
    (st : GlobalLinkedPool2.machine) (live : gset Z) (ps : list Z) (p : Z) :
  0 <= lg -> PAGE_SIZE = 2 ^ lg ->
  let L := GlobalLinkedPool2.layout_of PAGE_SIZE
             (GlobalLinkedPool2.this (GlobalLinkedPool2.init PAGE_SIZE h t_sizeOfObjects)) in
  Page.layout_ok L ->
  GlobalLinkedPool2.exec PAGE_SIZE (GlobalLinkedPool2.init PAGE_SIZE h t_sizeOfObjects) ∅
                         ops st live ps ->
  p ∈ live ->
  let b := getPoolHeader PAGE_SIZE p in
  let st' := GlobalLinkedPool2.deallocate PAGE_SIZE st p in
  let occ := Mem.load (GlobalLinkedPool2.heap st) (b + GlobalLinkedPool2.off_sizeOfPool) in
  b ∈ GlobalLinkedPool2.allocated st /\ Page.is_slot L b p /\ 1 <= occ /\
  Mem.load (GlobalLinkedPool2.heap st') (b + GlobalLinkedPool2.off_sizeOfPool) = occ - 1 /\
  (occ = 1 ->
     GlobalLinkedPool2.allocated st' = GlobalLinkedPool2.allocated st ∖ {[b]} /\
     (b ∉ GlobalLinkedPool2.m_freePools (GlobalLinkedPool2.this st')) /\
     (forall q, q ∈ live -> q <> p -> getPoolHeader PAGE_SIZE q <> b)) /\
  (occ <> 1 ->
     GlobalLinkedPool2.allocated st' = GlobalLinkedPool2.allocated st /\
     Mem.load (GlobalLinkedPool2.heap st') (b + GlobalLinkedPool2.off_head) = p /\
     Mem.load (GlobalLinkedPool2.heap st') p
       = Mem.load (GlobalLinkedPool2.heap st) (b + GlobalLinkedPool2.off_head) /\
     b ∈ GlobalLinkedPool2.m_freePools (GlobalLinkedPool2.this st') /\
     GlobalLinkedPool2.m_freePool (GlobalLinkedPool2.this st') = b).
Proof.
  intros Hlg HP L HL Hex Hp b st' occ.
  destruct (global_pool_reachable PAGE_SIZE lg h t_sizeOfObjects ops st live ps
              Hlg HP HL Hex) as (Hlay & F & Hinv & _).
  fold L in Hlay, Hinv.
  assert (HL' : Page.layout_ok (GlobalLinkedPool2.layout_of PAGE_SIZE
                                  (GlobalLinkedPool2.this st)))
    by (rewrite Hlay; exact HL).
  assert (Hinv0 := Hinv). rewrite <- Hlay in Hinv0.
  pose proof (GlobalLinkedPool2.glp2_deallocate_spec PAGE_SIZE lg Hlg HP st F live p
                HL' Hinv0 Hp) as Hspec.
  cbv zeta in Hspec. rewrite Hlay in Hspec.
  destruct Hspec as (b0 & HbA & Hps & Hpl & Hmask & Hocc & _ & Hcnt & Hcases).
  fold b in Hmask. subst b0. fold st' in Hcnt, Hcases. fold occ in Hocc, Hcnt.
  split; [exact HbA|]. split; [exact Hps|]. split; [exact Hocc|]. split; [exact Hcnt|].
  pose proof Hinv as (Hpages & _).
  destruct (Hpages b HbA) as (Hg & (Hfl & _) & _).
  rewrite Hcnt in Hcases.
  destruct (decide (occ - 1 = 0)) as [E|E].
  - split; [|intros Hn; exfalso; lia]. intros _.
    destruct Hcases as (HA & Hinv' & Hlast).
    split; [exact HA|]. split.
    + intros Hin. destruct Hinv' as (_ & Hsub & _). apply Hsub in Hin.
      rewrite HA in Hin. apply elem_of_difference in Hin as (_ & Hin).
      apply Hin, elem_of_singleton. reflexivity.
    + intros q Hq Hqp Hqb.
      apply (Hlast q).
      * apply elem_of_difference. split; [exact Hq|].
        intros Hs. apply elem_of_singleton in Hs. contradiction.
      * destruct (Page.set_inv_live_page L F _ _ _ _ _ q Hinv Hq)
          as (bq & Hbq & Hgq & Hsq & _).
        assert (Hm : getPoolHeader PAGE_SIZE q = bq).
        { apply (GlobalLinkedPool2.glp2_slot_page PAGE_SIZE lg Hlg HP
                   (GlobalLinkedPool2.this st) bq q); rewrite Hlay; assumption. }
        rewrite <- Hqb, Hm. exact Hsq.
  - split; [intros Hn; exfalso; lia|]. intros _.
    destruct Hcases as (HA & Hfpool & Hinv').
    destruct Hinv' as (Hpages' & _).
    assert (HbA' : b ∈ GlobalLinkedPool2.allocated st') by (rewrite HA; exact HbA).
    destruct (Hpages' b HbA') as (_ & (Hfl' & _) & Hreg).
    rewrite fn_lookup_insert in Hfl', Hreg.
    destruct Hfl' as (Hhead & _ & Hrest).
    change (Page.head_off L) with GlobalLinkedPool2.off_head in Hhead, Hfl.
    split; [exact HA|]. split; [exact Hhead|]. split; [|split; [|exact Hfpool]].
    + destruct (F b) as [|x t]; cbn [Page.flist] in Hfl, Hrest.
      * congruence.
      * destruct Hfl as (-> & _). destruct Hrest as (-> & _). reflexivity.
    + apply Hreg. discriminate.
Qed.

(** X17: when [deallocate] does not free the page (its counter was not 1),
    the next [allocate] returns the slot just given back, without obtaining
    a page. *)
Theorem global_pool_reuses_freed_slot (PAGE_SIZE lg : Z) (h : gmap Z Z)
    (t_sizeOfObjects : Z) (ops : list GlobalLinkedPool2.op)
    (st : GlobalLinkedPool2.machine) (live : gset Z) (ps : list Z) (p fresh : Z) :
  0 <= lg -> PAGE_SIZE = 2 ^ lg ->
  let L := GlobalLinkedPool2.layout_of PAGE_SIZE
             (GlobalLinkedPool2.this (GlobalLinkedPool2.init PAGE_SIZE h t_sizeOfObjects)) in
  Page.layout_ok L ->
  GlobalLinkedPool2.exec PAGE_SIZE (GlobalLinkedPool2.init PAGE_SIZE h t_sizeOfObjects) ∅
                         ops st live ps ->
  p ∈ live ->
  Mem.load (GlobalLinkedPool2.heap st)
           (getPoolHeader PAGE_SIZE p + GlobalLinkedPool2.off_sizeOfPool) <> 1 ->
  let st1 := GlobalLinkedPool2.deallocate PAGE_SIZE st p in
  snd (GlobalLinkedPool2.allocate st1 fresh) = p /\
  GlobalLinkedPool2.allocated (fst (GlobalLinkedPool2.allocate st1 fresh))
    = GlobalLinkedPool2.allocated st.
Proof.
  intros Hlg HP L HL Hex Hp Hocc st1.
  destruct (global_pool_reachable PAGE_SIZE lg h t_sizeOfObjects ops st live ps
              Hlg HP HL Hex) as (Hlay & F & Hinv & _).
  fold L in Hlay, Hinv.
  assert (HL' : Page.layout_ok (GlobalLinkedPool2.layout_of PAGE_SIZE
                                  (GlobalLinkedPool2.this st)))
    by (rewrite Hlay; exact HL).
  assert (Hinv0 := Hinv). rewrite <- Hlay in Hinv0.
  pose proof (GlobalLinkedPool2.glp2_deallocate_spec PAGE_SIZE lg Hlg HP st F live p
                HL' Hinv0 Hp) as Hspec.
  cbv zeta in Hspec.
  destruct Hspec as (b & HbA & Hps & Hpl & Hmask & Hone & Hthis & Hcnt & Hcases).
  rewrite Hmask in Hocc. fold st1 in Hthis, Hcnt, Hcases.
  rewrite Hcnt in Hcases.
  destruct (decide (Mem.load (GlobalLinkedPool2.heap st)
                      (b + GlobalLinkedPool2.off_sizeOfPool) - 1 = 0))
    as [E|_]; [exfalso; lia|].
  destruct Hcases as (HA & Hfpool & Hinv1).
  assert (Hlay1 : GlobalLinkedPool2.layout_of PAGE_SIZE (GlobalLinkedPool2.this st1)
                  = GlobalLinkedPool2.layout_of PAGE_SIZE (GlobalLinkedPool2.this st))
    by (rewrite Hthis; reflexivity).
  assert (Hb0 : b <> 0).
  { destruct Hinv as (Hpages & _). destruct (Hpages b HbA) as ((Hpos & _) & _). lia. }
  rewrite <- Hlay1 in Hinv1.
  assert (HL1 : Page.layout_ok (GlobalLinkedPool2.layout_of PAGE_SIZE
                                  (GlobalLinkedPool2.this st1)))
    by (rewrite Hlay1; exact HL').
  assert (Hbfp : b ∈ GlobalLinkedPool2.m_freePools (GlobalLinkedPool2.this st1)).
  { destruct Hinv1 as (Hpages1 & _).
    assert (HbA1 : b ∈ GlobalLinkedPool2.allocated st1) by (rewrite HA; exact HbA).
    destruct (Hpages1 b HbA1) as (_ & _ & Hreg).
    apply Hreg. rewrite fn_lookup_insert. discriminate. }
  destruct (GlobalLinkedPool2.glp2_nextFree_spec PAGE_SIZE lg Hlg HP st1 _ _ b
              HL1 Hinv1 Hbfp)
    as (x & l & st2 & Hrun & HFb & _ & HA2 & _).
  rewrite fn_lookup_insert in HFb. injection HFb as <- _.
  assert (Hal : GlobalLinkedPool2.allocate st1 fresh = (st2, p)).
  { unfold GlobalLinkedPool2.allocate. rewrite Hfpool.
    destruct (Z.eqb_spec b 0) as [|_]; [contradiction|]. exact Hrun. }
  rewrite Hal. cbn [fst snd]. split; [reflexivity|congruence].
Qed.

(** X18: a [GlobalLinkedPool2] whose clients have given back every slot
    they took holds no page: each page obtained from the system has been
    freed, [m_freePools] is empty and [m_freePool] is null. *)
Theorem global_pool_no_leak (PAGE_SIZE lg : Z) (h : gmap Z Z) (t_sizeOfObjects : Z)
    (ops : list GlobalLinkedPool2.op) (st : GlobalLinkedPool2.machine)
    (live : gset Z) (ps : list Z) :
  0 <= lg -> PAGE_SIZE = 2 ^ lg ->
  Page.layout_ok (GlobalLinkedPool2.layout_of PAGE_SIZE
    (GlobalLinkedPool2.this (GlobalLinkedPool2.init PAGE_SIZE h t_sizeOfObjects))) ->
  GlobalLinkedPool2.exec PAGE_SIZE (GlobalLinkedPool2.init PAGE_SIZE h t_sizeOfObjects) ∅
                         ops st live ps ->
  live = ∅ ->
  GlobalLinkedPool2.allocated st = ∅ /\
  GlobalLinkedPool2.m_freePools (GlobalLinkedPool2.this st) = ∅ /\
  GlobalLinkedPool2.m_freePool (GlobalLinkedPool2.this st) = 0.
Proof.
  intros Hlg HP HL Hex ->.
  destruct (global_pool_reachable PAGE_SIZE lg h t_sizeOfObjects ops st ∅ ps
              Hlg HP HL Hex) as (_ & F & Hinv & Htag).
  apply (Page.set_inv_no_leak _ HL F _ _ _ _ Hinv).
  intros b Hb. apply (Htag b Hb).
Qed.

(** *** Instances: a pool of 16-byte objects on 4 KiB pages (254 slots per
    page, the first 32 bytes after the page's address) *)

Ltac glp2_exec_step :=
  lazymatch goal with
  | |- GlobalLinkedPool2.exec _ _ _ [] _ _ _ => apply GlobalLinkedPool2.exec_nil
  | |- GlobalLinkedPool2.exec _ ?st _ (GlobalLinkedPool2.Allocate ?f :: _) _ _ _ =>
      eapply (GlobalLinkedPool2.exec_alloc _ st _ f
                (fst (GlobalLinkedPool2.allocate st f)));
      [ let Hnp := fresh "Hnp" in
        intros Hnp;
        first [ destruct Hnp as [Hnp _]; vm_compute in Hnp; discriminate
              | split; [ vm_compute; intuition discriminate
                       | apply (bool_decide_unpack _); vm_compute; exact I ] ]
      | etransitivity; [apply surjective_pairing|];
        f_equal; vm_compute; reflexivity
      | ]
  | |- GlobalLinkedPool2.exec _ _ _ (GlobalLinkedPool2.Deallocate _ :: _) _ _ _ =>
      apply GlobalLinkedPool2.exec_dealloc;
      [ apply (bool_decide_unpack _); vm_compute; exact I | ]
  end.

Lemma global_pool_run_invariant_witness :
  exists st live,
    GlobalLinkedPool2.exec 4096 (GlobalLinkedPool2.init 4096 ∅ 16) ∅
      [GlobalLinkedPool2.Allocate 65536; GlobalLinkedPool2.Allocate 0;
       GlobalLinkedPool2.Allocate 0; GlobalLinkedPool2.Deallocate 65584;
       GlobalLinkedPool2.Allocate 0]
      st live [65568; 65584; 65600; 65584] /\
    forall b, b ∈ GlobalLinkedPool2.allocated st ->
      Mem.load_bytes 8 (GlobalLinkedPool2.heap st) (b + GlobalLinkedPool2.off_isPool)
        = GlobalLinkedPool2.IS_POOL /\
      Mem.load (GlobalLinkedPool2.heap st) (b + GlobalLinkedPool2.off_sizeOfObjects) = 16.
Proof.
  eassert (Hex : GlobalLinkedPool2.exec 4096 (GlobalLinkedPool2.init 4096 ∅ 16) ∅
             [GlobalLinkedPool2.Allocate 65536; GlobalLinkedPool2.Allocate 0;
              GlobalLinkedPool2.Allocate 0; GlobalLinkedPool2.Deallocate 65584;
              GlobalLinkedPool2.Allocate 0]
             _ _ [65568; 65584; 65600; 65584]) by (repeat glp2_exec_step).
  assert (HL : Page.layout_ok (GlobalLinkedPool2.layout_of 4096
                 (GlobalLinkedPool2.this (GlobalLinkedPool2.init 4096 ∅ 16))))
    by layout_facts.
  destruct (global_pool_run_invariant 4096 12 ∅ 16 _ _ _ _ ltac:(lia) eq_refl HL Hex)
    as (Hlay & Hpages & _).
  eexists _, _. split; [exact Hex|].
  intros b Hb. destruct (Hpages b Hb) as (_ & Ht & Hs & _).
  split; [exact Ht|]. rewrite Hs. vm_compute. reflexivity.
Defined.

Lemma global_pool_allocate_new_slot_witness :
  let st0 := GlobalLinkedPool2.init 4096 ∅ 16 in
  snd (GlobalLinkedPool2.allocate st0 65536) <> 0 /\
  getPoolHeader 4096 (snd (GlobalLinkedPool2.allocate st0 65536)) = 65536 /\
  GlobalLinkedPool2.allocated (fst (GlobalLinkedPool2.allocate st0 65536)) = {[65536]} ∪ ∅.
Proof.
  intros st0.
  assert (HL : Page.layout_ok (GlobalLinkedPool2.layout_of 4096
                                 (GlobalLinkedPool2.this st0))) by layout_facts.
  assert (Hg : Page.good_page (GlobalLinkedPool2.layout_of 4096
                                 (GlobalLinkedPool2.this st0)) 65536) by layout_facts.
  assert (Hnp : GlobalLinkedPool2.needs_page st0) by (split; reflexivity).
  destruct (global_pool_allocate_new_slot 4096 12 ∅ 16 [] st0 ∅ [] 65536
              ltac:(lia) eq_refl HL (GlobalLinkedPool2.exec_nil 4096 st0 ∅)
              (fun _ => conj Hg (not_elem_of_empty 65536)))
    as (Hp0 & _ & _ & _ & Hnew & _).
  destruct (Hnew Hnp) as (HA & Hp). split; [exact Hp0|]. split; [exact Hp|exact HA].
Defined.

Lemma global_pool_deallocate_page_witness :
  let st1 := fst (GlobalLinkedPool2.allocate (GlobalLinkedPool2.init 4096 ∅ 16) 65536) in
  let st' := GlobalLinkedPool2.deallocate 4096 st1 65568 in
  GlobalLinkedPool2.allocated st' = GlobalLinkedPool2.allocated st1 ∖ {[65536]} /\
  Mem.load (GlobalLinkedPool2.heap st') (65536 + GlobalLinkedPool2.off_sizeOfPool) = 1 - 1.
Proof.
  intros st1 st'.
  assert (HL : Page.layout_ok (GlobalLinkedPool2.layout_of 4096
                 (GlobalLinkedPool2.this (GlobalLinkedPool2.init 4096 ∅ 16))))
    by layout_facts.
  assert (Hex : GlobalLinkedPool2.exec 4096 (GlobalLinkedPool2.init 4096 ∅ 16) ∅
                  [GlobalLinkedPool2.Allocate 65536] st1 ({[65568]} ∪ ∅) [65568])
    by (repeat glp2_exec_step).
  assert (Hp : 65568 ∈ ({[65568]} ∪ ∅ : gset Z))
    by (apply (bool_decide_unpack _); vm_compute; exact I).
  destruct (global_pool_deallocate_page 4096 12 ∅ 16 _ st1 _ _ 65568
              ltac:(lia) eq_refl HL Hex Hp) as (_ & _ & _ & Hcnt & Hlast & _).
  assert (Hocc : Mem.load (GlobalLinkedPool2.heap st1)
                   (getPoolHeader 4096 65568 + GlobalLinkedPool2.off_sizeOfPool) = 1)
    by (vm_compute; reflexivity).
  destruct (Hlast Hocc) as (HA & _).
  split; [exact HA|]. rewrite Hocc in Hcnt. exact Hcnt.
Defined.

Lemma global_pool_reuses_freed_slot_witness :
  let st1 := fst (GlobalLinkedPool2.allocate (GlobalLinkedPool2.init 4096 ∅ 16) 65536) in
  let st2 := fst (GlobalLinkedPool2.allocate st1 0) in
  snd (GlobalLinkedPool2.allocate (GlobalLinkedPool2.deallocate 4096 st2 65568) 0) = 65568.
Proof.
  intros st1 st2.
  assert (HL : Page.layout_ok (GlobalLinkedPool2.layout_of 4096
                 (GlobalLinkedPool2.this (GlobalLinkedPool2.init 4096 ∅ 16))))
    by layout_facts.
  assert (Hex : GlobalLinkedPool2.exec 4096 (GlobalLinkedPool2.init 4096 ∅ 16) ∅
                  [GlobalLinkedPool2.Allocate 65536; GlobalLinkedPool2.Allocate 0] st2
                  ({[65584]} ∪ ({[65568]} ∪ ∅)) [65568; 65584])
    by (repeat glp2_exec_step).
  assert (Hp : 65568 ∈ ({[65584]} ∪ ({[65568]} ∪ ∅) : gset Z))
    by (apply (bool_decide_unpack _); vm_compute; exact I).
  assert (Hocc : Mem.load (GlobalLinkedPool2.heap st2)
                   (getPoolHeader 4096 65568 + GlobalLinkedPool2.off_sizeOfPool) <> 1)
    by (vm_compute; discriminate).
  exact (proj1 (global_pool_reuses_freed_slot 4096 12 ∅ 16 _ st2 _ _ 65568 0
                  ltac:(lia) eq_refl HL Hex Hp Hocc)).
Defined.

Lemma global_pool_no_leak_witness :
  let st1 := fst (GlobalLinkedPool2.allocate (GlobalLinkedPool2.init 4096 ∅ 16) 65536) in
  GlobalLinkedPool2.allocated st1 = {[65536]} ∪ ∅ /\
  GlobalLinkedPool2.allocated (GlobalLinkedPool2.deallocate 4096 st1 65568) = ∅.
Proof.
  intros st1.
  assert (HL : Page.layout_ok (GlobalLinkedPool2.layout_of 4096
                 (GlobalLinkedPool2.this (GlobalLinkedPool2.init 4096 ∅ 16))))
    by layout_facts.
  assert (Hex : GlobalLinkedPool2.exec 4096 (GlobalLinkedPool2.init 4096 ∅ 16) ∅
                  [GlobalLinkedPool2.Allocate 65536; GlobalLinkedPool2.Deallocate 65568]
                  (GlobalLinkedPool2.deallocate 4096 st1 65568)
                  (({[65568]} ∪ ∅) ∖ {[65568]}) [65568])
    by (repeat glp2_exec_step).
  assert (Hlive : ({[65568]} ∪ ∅) ∖ {[65568]} = (∅ : gset Z))
    by (vm_compute; reflexivity).
  split; [reflexivity|].
  exact (proj1 (global_pool_no_leak 4096 12 ∅ 16 _ _ _ _
                  ltac:(lia) eq_refl HL Hex Hlive)).
Defined.


(** ** The dispatcher of custom_new_delete2.h over [GlobalLinkedPool2] *)












(** ** The dispatcher of custom_new_delete.cpp *)

(** [strcmp] against a literal succeeds on memory that holds the literal
    and its terminator, after reading all of it. *)
Lemma strcmp_lit_match (lit : list Z) : forall m a,
  Mem.load_bytes (S (length lit)) m a = lit ++ [0] ->
  strcmp_lit m a lit = (true, S (length lit)).
Proof.
  induction lit as [|c t IH]; intros m a H.
  - cbn in H. injection H as H. cbn. now rewrite H.
  - cbn [length Mem.load_bytes app] in H. injection H as Hc Ht.
    cbn [strcmp_lit length]. rewrite Hc, Z.eqb_refl.
    now rewrite (IH m (a + 1) Ht).
Qed.

(** X22: on the large path (a size above [__threshold], [std::malloc]
    answering with a block at [ret]), [custom_new_no_throw] asks for 16
    bytes more than requested, writes only the 16 bytes of the header at
    [ret] and returns [ret + 16]; [custom_new] returns the same pointer.
    Whatever the client then writes outside those 16 bytes, [custom_delete]
    of the pointer reads the 15 bytes of the marker and hands [ret], the
    address [std::malloc] returned, to [free]; no pool is involved. *)
Theorem large_block_round_trip (PAGE_SIZE off_sizeOfSlot : Z) (w : CustomNew.world)
    (t_size t_alignment ret : Z) :
  threshold < t_size -> 0 < ret -> ret + CustomNew.sizeof_MallocHeader < 2 ^ SIZE_BITS ->
  let w1 := fst (CustomNew.custom_new_no_throw w t_size t_alignment ret) in
  let p := snd (CustomNew.custom_new_no_throw w t_size t_alignment ret) in
  p = ret + CustomNew.sizeof_MallocHeader /\
  CustomNew.custom_new w t_size t_alignment ret = (w1, CustomNew.Returned p) /\
  CustomNew.log w1
    = CustomNew.log w
      ++ [CustomNew.EvMalloc (to_size_t (t_size + CustomNew.sizeof_MallocHeader)) ret] /\
  (forall a, ~ (ret <= a < ret + CustomNew.sizeof_MallocHeader) ->
             Mem.load8 (CustomNew.heap w1) a = Mem.load8 (CustomNew.heap w) a) /\
  forall (h' : gmap Z Z) (l : list CustomNew.event),
    (forall a, ret <= a < ret + CustomNew.sizeof_MallocHeader ->
               Mem.load8 h' a = Mem.load8 (CustomNew.heap w1) a) ->
    CustomNew.custom_delete PAGE_SIZE off_sizeOfSlot (CustomNew.World h' l) p
    = CustomNew.World h' (l ++ [CustomNew.EvRead ret 15; CustomNew.EvFree ret]).
Proof.
  intros Hs Hret Hhi w1 p.
  unfold CustomNew.sizeof_MallocHeader, SIZE_BITS in *.
  assert (Hrun : CustomNew.custom_new_no_throw w t_size t_alignment ret
                 = (CustomNew.World
                      (Mem.store_bytes
                         (Mem.store_bytes (CustomNew.heap w) ret CustomNew.MallocHeader_validity)
                         ret (CustomNew.IsThIsMaLlOcD ++ [0]))
                      (CustomNew.log w ++ [CustomNew.EvMalloc (to_size_t (t_size + 16)) ret]),
                    ret + 16)).
  { unfold CustomNew.custom_new_no_throw.
    destruct (Z.gtb_spec t_size threshold) as [_|]; [|lia].
    unfold CustomNew.emit, CustomNew.sizeof_MallocHeader. cbn [CustomNew.heap CustomNew.log].
    rewrite (to_size_t_small (ret + 16)) by (unfold SIZE_BITS; lia). reflexivity. }
  subst w1 p. unfold CustomNew.custom_new. rewrite Hrun. cbn [fst snd CustomNew.heap CustomNew.log].
  split; [reflexivity|]. split.
  { destruct (Z.eqb_spec (ret + 16) 0); [lia|reflexivity]. }
  split; [reflexivity|]. split.
  { intros a Ha.
    rewrite !Mem.load8_store_bytes_out; [reflexivity| |];
      change (Z.of_nat (length CustomNew.MallocHeader_validity)) with 16;
      change (Z.of_nat (length (CustomNew.IsThIsMaLlOcD ++ [0]))) with 15; lia. }
  intros h' l Hsame.
  unfold CustomNew.custom_delete. cbn [CustomNew.heap].
  replace (to_size_t (ret + 16 - CustomNew.sizeof_MallocHeader)) with ret
    by (unfold CustomNew.sizeof_MallocHeader;
        rewrite to_size_t_small by (unfold SIZE_BITS; lia); lia).
  assert (Hbytes : Mem.load_bytes (S (length CustomNew.IsThIsMaLlOcD)) h' ret
                   = CustomNew.IsThIsMaLlOcD ++ [0]).
  { transitivity (Mem.load_bytes (length (CustomNew.IsThIsMaLlOcD ++ [0]))
                    (Mem.store_bytes
                       (Mem.store_bytes (CustomNew.heap w) ret CustomNew.MallocHeader_validity)
                       ret (CustomNew.IsThIsMaLlOcD ++ [0])) ret).
    - apply Mem.load_bytes_ext. intros i Hi.
      match type of Hi with
      | context [Z.of_nat ?n] => change (Z.of_nat n) with 15 in Hi
      end.
      apply Hsame. lia.
    - apply Mem.load_bytes_store_bytes.
      repeat constructor; cbv; intuition discriminate. }
  rewrite (strcmp_lit_match _ _ _ Hbytes).
  unfold CustomNew.emit. cbn [CustomNew.heap CustomNew.log].
  rewrite <- app_assoc. reflexivity.
Qed.

Lemma large_block_round_trip_witness :
  let w := CustomNew.World ∅ [] in
  snd (CustomNew.custom_new_no_throw w 200 8 4096) = 4112 /\
  CustomNew.custom_delete 4096 16
    (CustomNew.World (CustomNew.heap (fst (CustomNew.custom_new_no_throw w 200 8 4096))) [])
    4112
  = CustomNew.World (CustomNew.heap (fst (CustomNew.custom_new_no_throw w 200 8 4096)))
      [CustomNew.EvRead 4096 15; CustomNew.EvFree 4096].
Proof.
  intros w.
  destruct (large_block_round_trip 4096 16 w 200 8 4096
              ltac:(unfold threshold; lia) ltac:(lia)
              ltac:(unfold CustomNew.sizeof_MallocHeader, SIZE_BITS; lia))
    as (Hp & _ & _ & _ & Hdel).
  split; [exact Hp|].
  rewrite Hp in Hdel.
  exact (Hdel _ [] (fun a _ => eq_refl)).
Defined.

(** X23: on the small path of [custom_new_no_throw], a request of 1 to
    [__threshold] bytes with an alignment of 1, 2, 4, 8 or 16 is sent to a
    size class that is a multiple of 8 and of the alignment, at least the
    size asked for, less than 16 more, and at most [__threshold]; for an
    alignment up to 8 it is the size rounded up to a multiple of 8. *)
Theorem small_size_class_fits (t_size t_alignment : Z) :
  1 <= t_size <= threshold -> t_alignment ∈ [1; 2; 4; 8; 16] ->
  let c := CustomNew.small_size_class t_size t_alignment in
  t_size <= c < t_size + 16 /\ c <= threshold /\
  c mod 8 = 0 /\ c mod t_alignment = 0 /\
  (t_alignment <= 8 -> c = 8 * ((t_size + 7) / 8)).
Proof.
  intros Hs Ha.
  assert (Hsin : In t_size (seqZ 1 128))
    by (apply list_elem_of_In, elem_of_seqZ; unfold threshold in Hs; lia).
  assert (Hain : In t_alignment [1; 2; 4; 8; 16]) by (apply list_elem_of_In, Ha).
  clear Hs Ha.
  assert (Hall : forallb (fun s =>
            forallb (fun a =>
              let c := CustomNew.small_size_class s a in
              (s <=? c) && (c <? s + 16) && (c <=? threshold) &&
              (c mod 8 =? 0) && (c mod a =? 0) &&
              ((8 <? a) || (c =? 8 * ((s + 7) / 8))))
            [1; 2; 4; 8; 16]) (seqZ 1 128) = true)
    by (vm_compute; reflexivity).
  rewrite forallb_forall in Hall.
  pose proof (Hall t_size Hsin) as Hs'. rewrite forallb_forall in Hs'.
  pose proof (Hs' t_alignment Hain) as H. cbv zeta in H |- *.
  repeat (apply andb_prop in H as [H ?]).
  repeat match goal with
         | H : (_ <=? _) = true |- _ => apply Z.leb_le in H
         | H : (_ <? _) = true |- _ => apply Z.ltb_lt in H
         | H : (_ =? _) = true |- _ => apply Z.eqb_eq in H
         end.
  split; [lia|]. split; [assumption|]. split; [assumption|]. split; [assumption|].
  intros Hle.
  match goal with
  | Hor : (_ || _) = true |- _ =>
      apply orb_prop in Hor as [Hor|Hor];
      [apply Z.ltb_lt in Hor; lia|now apply Z.eqb_eq in Hor]
  end.
Qed.

Lemma small_size_class_fits_witness :
  CustomNew.small_size_class 40 16 = 48 /\
  CustomNew.small_size_class 40 16 mod 16 = 0.
Proof.
  destruct (small_size_class_fits 40 16 ltac:(unfold threshold; lia)
              ltac:(repeat constructor))
    as (_ & _ & _ & Hal & _).
  split; [reflexivity|exact Hal].
Defined.


(** ** Page arithmetic and index computations *)

(** X24: for a page size [2^k], [POOL_MASK] is the [size_t] with the low
    [k] bits clear, and [getPoolHeader] rounds a pointer down to the start
    of its page. *)
Theorem pool_mask_page_start (k p : Z) :
  0 <= k < 31 -> 0 <= p < 2 ^ SIZE_BITS ->
  POOL_MASK (2 ^ k) = 2 ^ SIZE_BITS - 2 ^ k /\
  getPoolHeader (2 ^ k) p = p - p mod 2 ^ k.
Proof.
  intros Hk Hp.
  assert (H2 : 0 < 2 ^ k) by (apply Z.pow_pos_nonneg; lia).
  assert (Hlt : 2 ^ k < 2 ^ SIZE_BITS)
    by (apply Z.pow_lt_mono_r; unfold SIZE_BITS; lia).
  split.
  - unfold POOL_MASK, to_size_t. rewrite Z.log2_pow2 by lia.
    rewrite Z.shiftl_mul_pow2, Z.shiftr_div_pow2 by lia.
    replace (-1 / 2 ^ k) with (-1)
      by (apply (Z.div_unique (-1) (2 ^ k) (-1) (2 ^ k - 1)); lia).
    symmetry. apply (Z.mod_unique _ _ (-1)); lia.
  - unfold getPoolHeader. rewrite POOL_MASK_land by lia.
    rewrite Z.shiftl_mul_pow2, Z.shiftr_div_pow2 by lia.
    pose proof (Z.div_mod p (2 ^ k) ltac:(lia)). lia.
Qed.

Lemma pool_mask_page_start_witness :
  POOL_MASK 4096 = 18446744073709547520 /\ getPoolHeader 4096 65552 = 65552 - 65552 mod 4096.
Proof.
  exact (pool_mask_page_start 12 65552 ltac:(lia) ltac:(unfold SIZE_BITS; lia)).
Defined.

(** X25: the index function of the second dispatcher of
    custom_new_delete2.h stays inside [__allocators] for every request from
    0 to [__threshold] bytes: the rounded size 0 gets index 0, where the
    first dispatcher's function wraps around to the largest [size_t], and
    from 1 byte on the two functions agree. *)
Theorem guarded_index_in_range (size : Z) :
  0 <= size <= threshold ->
  let i := CustomNew2.getAllocatorsIndex_guarded (CustomNew2.round_up size) in
  0 <= i < CustomNew2.numberOfAllocators /\
  (size = 0 -> i = 0 /\
     CustomNew2.getAllocatorsIndex (CustomNew2.round_up size) = 2 ^ SIZE_BITS - 1) /\
  (1 <= size -> i = CustomNew2.getAllocatorsIndex (CustomNew2.round_up size) /\
                i = (size + 7) / 8 - 1).
Proof.
  intros Hs.
  assert (Hsin : In size (seqZ 0 129))
    by (apply list_elem_of_In, elem_of_seqZ; unfold threshold in Hs; lia).
  clear Hs.
  assert (Hall : forallb (fun s =>
            let i := CustomNew2.getAllocatorsIndex_guarded (CustomNew2.round_up s) in
            let j := CustomNew2.getAllocatorsIndex (CustomNew2.round_up s) in
            (0 <=? i) && (i <? CustomNew2.numberOfAllocators) &&
            (if s =? 0 then (i =? 0) && (j =? 2 ^ SIZE_BITS - 1)
             else (i =? j) && (i =? (s + 7) / 8 - 1)))
            (seqZ 0 129) = true)
    by (vm_compute; reflexivity).
  rewrite forallb_forall in Hall.
  pose proof (Hall size Hsin) as H. cbv zeta in H |- *.
  apply andb_prop in H as [H Hc]. apply andb_prop in H as [H0 H1].
  apply Z.leb_le in H0. apply Z.ltb_lt in H1.
  split; [lia|].
  destruct (Z.eqb_spec size 0) as [E|E];
    apply andb_prop in Hc as [Hc1 Hc2];
    apply Z.eqb_eq in Hc1; apply Z.eqb_eq in Hc2.
  - split; [intros _; split; assumption|intros Hpos; lia].
  - split; [intros Hz; contradiction|intros _; split; assumption].
Qed.

Lemma guarded_index_in_range_witness :
  CustomNew2.getAllocatorsIndex_guarded (CustomNew2.round_up 0) = 0 /\
  CustomNew2.getAllocatorsIndex (CustomNew2.round_up 0) = 2 ^ SIZE_BITS - 1.
Proof.
  destruct (guarded_index_in_range 0 ltac:(unfold threshold; lia)) as (_ & Hz & _).
  exact (Hz eq_refl).
Defined.


(** ** [LinkedPool<T>]: the sizes the tests expect, and two full pages *)



(** X27: two pages are filled from a new pool, then the last slot of the
    second page and the last slot of the first page are given back
    (test_pools_fill_up).  The next allocation returns the slot given back
    last, which fills the first page again, and the one after it returns
    the slot given back first; no third page is obtained. *)
Theorem linked_pool_pools_fill_up (PAGE_SIZE lg : Z) (h : gmap Z Z)
    (sizeofT alignofT f1 f2 g1 g2 : Z) (fs1 fs2 : list Z) :
  0 <= lg -> PAGE_SIZE = 2 ^ lg ->
  let st0 := LinkedPool.init PAGE_SIZE h sizeofT alignofT in
  let L := LinkedPool.layout_of PAGE_SIZE (LinkedPool.this st0) in
  let n := LinkedPool.m_poolSize (LinkedPool.this st0) in
  Page.layout_ok L -> 2 <= n ->
  Page.good_page L f1 -> Page.good_page L f2 -> f2 <> f1 ->
  1 + Z.of_nat (length fs1) = n -> 1 + Z.of_nat (length fs2) = n ->
  let A := Page.slot L f2 (n - 1) in
  let B := Page.slot L f1 (n - 1) in
  exists st' live',
    LinkedPool.exec PAGE_SIZE st0 ∅
      ((LinkedPool.Allocate <$> f1 :: fs1) ++ (LinkedPool.Allocate <$> f2 :: fs2)
       ++ [LinkedPool.Deallocate A; LinkedPool.Deallocate B;
           LinkedPool.Allocate g1; LinkedPool.Allocate g2])
      st' live'
      (Page.slots_from L f1 0 n ++ Page.slots_from L f2 0 n ++ [B; A]) /\
    LinkedPool.allocated st' = {[f2]} ∪ {[f1]}.
Proof.
  intros Hlg HP st0 L n.
  assert (HLeq : LinkedPool.layout_of PAGE_SIZE (LinkedPool.this st0) = L) by reflexivity.
  assert (Hc0 : LinkedPool.m_poolSize (LinkedPool.this st0) = Page.capacity L) by reflexivity.
  assert (Hn : n = Page.capacity L) by reflexivity.
  assert (Hoff : Page.occ_off L = LinkedPool.off_occupiedSlots) by reflexivity.
  clearbody L n. subst n.
  intros HL Hcap Hg1 Hg2 Hne Hl1 Hl2 A B.
  assert (HAs : Page.is_slot L f2 A) by (exists (Page.capacity L - 1); split; [lia|reflexivity]).
  assert (HBs : Page.is_slot L f1 B) by (exists (Page.capacity L - 1); split; [lia|reflexivity]).
  assert (HAB : A <> B).
  { intros E. apply Hne. rewrite <- E in HBs.
    exact (Page.is_slot_page L HL f2 f1 A Hg2 Hg1 HAs HBs). }
  (* the first page is filled *)
  pose proof (exec_fill_page PAGE_SIZE lg Hlg HP h sizeofT alignofT f1 fs1) as Hfill.
  cbv zeta in Hfill. fold st0 in Hfill. rewrite HLeq, Hc0 in Hfill.
  destruct (Hfill HL Hg1 ltac:(lia)) as (st1 & live1 & F1 & Hex1 & HA1 & Hlay1 & Hfr1).
  clear Hfill. rewrite Hl1 in Hex1, Hfr1.
  destruct (decide (Page.capacity L < Page.capacity L)) as [|_]; [lia|].
  assert (Hc1 : LinkedPool.m_poolSize (LinkedPool.this st1) = Page.capacity L)
    by (change (Page.capacity (LinkedPool.layout_of PAGE_SIZE (LinkedPool.this st1))
                = Page.capacity L); now rewrite Hlay1).
  (* the second page is obtained *)
  assert (Hneed1 : LinkedPool.needs_page st1 ->
            Page.good_page (LinkedPool.layout_of PAGE_SIZE (LinkedPool.this st1)) f2 /\
            f2 ∉ LinkedPool.allocated st1).
  { intros _. rewrite Hlay1, HA1. split; [exact Hg2|].
    intros Hin. apply elem_of_singleton in Hin. contradiction. }
  pose proof (LinkedPool.fresh_run_allocate PAGE_SIZE lg Hlg HP st1 F1 live1 None f2) as Hstep.
  cbv zeta in Hstep. rewrite Hlay1, Hc1 in Hstep. rewrite Hlay1 in Hneed1.
  destruct (Hstep HL Hfr1 Hneed1) as (st2 & F2 & Hstep2). clear Hstep.
  cbn [LinkedPool.next_slot] in Hstep2.
  destruct Hstep2 as (Hal2 & Hlay2 & Hfr2 & _ & _ & _ & _ & _ & _ & HA2 & _).
  destruct (decide (0 + 1 < Page.capacity L)) as [_|]; [|lia].
  assert (Hc2 : LinkedPool.m_poolSize (LinkedPool.this st2) = Page.capacity L)
    by (change (Page.capacity (LinkedPool.layout_of PAGE_SIZE (LinkedPool.this st2))
                = Page.capacity L); now rewrite Hlay2).
  (* and filled *)
  assert (HL2 : Page.layout_ok (LinkedPool.layout_of PAGE_SIZE (LinkedPool.this st2)))
    by (rewrite Hlay2; exact HL).
  assert (Hn2 : 0 + 1 + Z.of_nat (length fs2)
                <= LinkedPool.m_poolSize (LinkedPool.this st2)) by (rewrite Hc2; lia).
  destruct (LinkedPool.exec_first_page PAGE_SIZE lg Hlg HP fs2 st2 F2 _ f2 (0 + 1)
              HL2 Hfr2 Hn2) as (st3 & F3 & Hex3 & Hlay3 & Hfr3 & _).
  pose proof (exec_page_kept PAGE_SIZE lg Hlg HP fs2 st2 F2 _ f2 (0 + 1) _ _ _
                HL2 Hfr2 Hn2 Hex3) as HA3.
  rewrite Hlay2 in Hex3, Hfr3, Hlay3. rewrite Hc2 in Hfr3.
  destruct (decide (0 + 1 + Z.of_nat (length fs2) < Page.capacity L)) as [|_]; [lia|].
  set (live3 := list_to_set (Page.slots_from L f2 (0 + 1) (Z.of_nat (length fs2)))
                ∪ ({[Page.slot L f2 0]} ∪ live1) : gset Z) in *.
  destruct Hfr3 as (Hinv3 & Hfpool3 & Hfp3). rewrite Hlay3 in Hinv3.
  rewrite HA2, HA1 in HA3.
  assert (Hf1A3 : f1 ∈ LinkedPool.allocated st3)
    by (rewrite HA3; apply elem_of_union_r, elem_of_singleton; reflexivity).
  assert (Hf2A3 : f2 ∈ LinkedPool.allocated st3)
    by (rewrite HA3; apply elem_of_union_l, elem_of_singleton; reflexivity).
  assert (Hfull : forall b, b ∈ LinkedPool.allocated st3 -> F3 b = []).
  { intros b Hb. destruct Hinv3 as (Hpages & _). destruct (Hpages b Hb) as (_ & _ & Hreg).
    destruct (F3 b) as [|x t] eqn:E; [reflexivity|]. exfalso.
    assert (Hin : b ∈ LinkedPool.m_freePools (LinkedPool.this st3))
      by (apply Hreg; discriminate).
    rewrite Hfp3 in Hin. revert Hin. apply not_elem_of_empty. }
  assert (Hheld : forall b p, b ∈ LinkedPool.allocated st3 -> Page.is_slot L b p -> p ∈ live3).
  { intros b p Hb Hp. destruct Hinv3 as (_ & _ & _ & Hlive). apply Hlive.
    exists b. split; [exact Hb|]. split; [exact Hp|].
    rewrite (Hfull b Hb). apply not_elem_of_nil. }
  assert (Hocc3 : forall b, b ∈ LinkedPool.allocated st3 ->
            Mem.load (LinkedPool.heap st3) (b + LinkedPool.off_occupiedSlots)
            = Page.capacity L).
  { intros b Hb.
    pose proof (Page.set_inv_occupied L F3 _ _ _ _ _ b Hinv3 Hb) as Ho.
    rewrite (Hfull b Hb), Hoff in Ho. cbn [length] in Ho. lia. }
  (* the last slot of the second page is given back *)
  assert (HA3l : A ∈ live3) by (apply (Hheld f2 A Hf2A3 HAs)).
  pose proof (LinkedPool.deallocate_spec PAGE_SIZE lg Hlg HP st3 F3 live3 A) as Hd.
  cbv zeta in Hd. rewrite Hlay3 in Hd.
  destruct (Hd HL Hinv3 HA3l) as (b & HbA & Hbs & _ & _ & _ & Hthis4 & Hcase4). clear Hd.
  assert (b = f2).
  { destruct Hinv3 as (Hpages & _). destruct (Hpages b HbA) as (Hgb & _).
    exact (Page.is_slot_page L HL b f2 A Hgb Hg2 Hbs HAs). }
  subst b. rewrite (Hocc3 f2 Hf2A3) in Hcase4.
  destruct (decide (Page.capacity L = 1)) as [|_]; [lia|].
  set (st4 := LinkedPool.deallocate PAGE_SIZE st3 A) in *.
  destruct Hcase4 as (HA4 & Hfpool4 & Hfp4 & Hinv4).
  assert (Hlay4 : LinkedPool.layout_of PAGE_SIZE (LinkedPool.this st4) = L)
    by (rewrite Hthis4; exact Hlay3).
  rewrite (Hfull f2 Hf2A3) in Hinv4.
  set (F4 := <[f2 := [A]]> F3) in *.
  (* the last slot of the first page is given back *)
  assert (HB4l : B ∈ live3 ∖ {[A]}).
  { apply elem_of_difference. split; [apply (Hheld f1 B Hf1A3 HBs)|].
    rewrite elem_of_singleton. congruence. }
  pose proof (LinkedPool.deallocate_spec PAGE_SIZE lg Hlg HP st4 F4 (live3 ∖ {[A]}) B) as Hd.
  cbv zeta in Hd. rewrite Hlay4 in Hd.
  destruct (Hd HL Hinv4 HB4l) as (b & HbA' & Hbs' & _ & _ & _ & Hthis5 & Hcase5). clear Hd.
  assert (b = f1).
  { destruct Hinv4 as (Hpages & _). destruct (Hpages b HbA') as (Hgb & _).
    exact (Page.is_slot_page L HL b f1 B Hgb Hg1 Hbs' HBs). }
  subst b.
  assert (Hocc4 : Mem.load (LinkedPool.heap st4) (f1 + LinkedPool.off_occupiedSlots)
                  = Page.capacity L).
  { pose proof (Page.set_inv_occupied L F4 _ _ _ _ _ f1 Hinv4 HbA') as Ho.
    unfold F4 in Ho. rewrite fn_lookup_insert_ne in Ho by congruence.
    rewrite (Hfull f1 Hf1A3), Hoff in Ho. cbn [length] in Ho. lia. }
  rewrite Hocc4 in Hcase5.
  destruct (decide (Page.capacity L = 1)) as [|_]; [lia|].
  set (st5 := LinkedPool.deallocate PAGE_SIZE st4 B) in *.
  destruct Hcase5 as (HA5 & Hfpool5 & Hfp5 & Hinv5).
  assert (Hlay5 : LinkedPool.layout_of PAGE_SIZE (LinkedPool.this st5) = L)
    by (rewrite Hthis5; exact Hlay4).
  assert (HF4f1 : F4 f1 = [])
    by (unfold F4; rewrite fn_lookup_insert_ne by congruence; apply (Hfull f1 Hf1A3)).
  rewrite HF4f1 in Hinv5.
  set (F5 := <[f1 := [B]]> F4) in *.
  assert (Hf10 : f1 <> 0) by (destruct Hg1; lia).
  assert (Hf20 : f2 <> 0) by (destruct Hg2; lia).
  (* the first allocation takes the slot given back last *)
  assert (Hneed5 : LinkedPool.needs_page st5 ->
            Page.good_page (LinkedPool.layout_of PAGE_SIZE (LinkedPool.this st5)) g1 /\
            g1 ∉ LinkedPool.allocated st5).
  { intros Hnp. exfalso. now apply (LinkedPool.not_needs_page st5 f1 Hfpool5 Hf10). }
  pose proof (LinkedPool.allocate_spec PAGE_SIZE lg Hlg HP st5 F5 ((live3 ∖ {[A]}) ∖ {[B]}) g1)
    as Ha.
  cbv zeta in Ha. rewrite Hlay5 in Ha. rewrite Hlay5 in Hneed5.
  destruct (Ha HL Hinv5 Hneed5)
    as (st6 & p6 & b6 & l6 & Hal6 & Hthis6 & Hinv6 & _ & _ & _ & Hcase6). clear Ha.
  destruct Hcase6 as [(HA6 & HF5 & _ & Hb6 & Hfp6 & Hfpool6)|(_ & _ & _ & _ & Hz & _)];
    [|congruence].
  assert (b6 = f1) by (rewrite <- Hfpool5; apply Hb6; congruence). subst b6.
  unfold F5 in HF5. rewrite fn_lookup_insert in HF5. injection HF5 as <- <-.
  destruct (decide (@nil Z = [])) as [_|]; [|contradiction].
  assert (Hset : LinkedPool.m_freePools (LinkedPool.this st5) ∖ {[f1]} = {[f2]}).
  { rewrite Hfp5, Hfp4, Hfp3. apply leibniz_equiv. intros x.
    rewrite elem_of_difference, !elem_of_union, !elem_of_singleton.
    split.
    - intros ([->|[->|Hx]] & Hn); [contradiction|reflexivity|].
      exfalso. revert Hx. apply not_elem_of_empty.
    - intros ->. split; [right; left; reflexivity|exact Hne]. }
  rewrite Hset in Hfp6, Hfpool6.
  assert (Hfirst : LinkedPool.pool_first {[f2]} = f2).
  { assert (Hnon : ({[f2]} : gset Z) <> ∅).
    { intros E. assert (Hin : f2 ∈ (∅ : gset Z))
        by (rewrite <- E; apply elem_of_singleton; reflexivity).
      revert Hin. apply not_elem_of_empty. }
    pose proof (set_begin_elem _ Hnon) as Hin. now apply elem_of_singleton in Hin. }
  rewrite Hfirst in Hfpool6.
  assert (Hlay6 : LinkedPool.layout_of PAGE_SIZE (LinkedPool.this st6) = L)
    by (rewrite Hthis6; exact Hlay5).
  (* the second one takes the slot given back first *)
  assert (Hneed6 : LinkedPool.needs_page st6 ->
            Page.good_page (LinkedPool.layout_of PAGE_SIZE (LinkedPool.this st6)) g2 /\
            g2 ∉ LinkedPool.allocated st6).
  { intros Hnp. exfalso. now apply (LinkedPool.not_needs_page st6 f2 Hfpool6 Hf20). }
  pose proof (LinkedPool.allocate_spec PAGE_SIZE lg Hlg HP st6 (<[f1 := []]> F5)
                ({[B]} ∪ (live3 ∖ {[A]}) ∖ {[B]}) g2) as Ha.
  cbv zeta in Ha. rewrite Hlay6 in Ha. rewrite Hlay6 in Hneed6.
  destruct (Ha HL Hinv6 Hneed6)
    as (st7 & p7 & b7 & l7 & Hal7 & _ & _ & _ & _ & _ & Hcase7). clear Ha.
  destruct Hcase7 as [(HA7 & HF6 & _ & Hb7 & _)|(_ & _ & _ & _ & Hz & _)];
    [|congruence].
  assert (b7 = f2) by (rewrite <- Hfpool6; apply Hb7; congruence). subst b7.
  rewrite fn_lookup_insert_ne in HF6 by congruence.
  unfold F5 in HF6. rewrite fn_lookup_insert_ne in HF6 by congruence.
  unfold F4 in HF6. rewrite fn_lookup_insert in HF6. injection HF6 as <- _.
  (* the run *)
  rewrite <- Hlay1 in Hneed1. rewrite <- Hlay5 in Hneed5. rewrite <- Hlay6 in Hneed6.
  exists st7, ({[A]} ∪ ({[B]} ∪ (live3 ∖ {[A]}) ∖ {[B]})).
  split; [|congruence].
  eapply LinkedPool.exec_app; [exact Hex1|].
  rewrite (Page.slots_from_cons L f2 0 (Page.capacity L)) by lia.
  replace (Page.capacity L - 1) with (Z.of_nat (length fs2)) by lia.
  cbn [fmap list_fmap app].
  eapply LinkedPool.exec_alloc; [exact Hneed1|exact Hal2|].
  eapply LinkedPool.exec_app; [exact Hex3|].
  eapply LinkedPool.exec_dealloc; [exact HA3l|].
  eapply LinkedPool.exec_dealloc; [exact HB4l|].
  eapply LinkedPool.exec_alloc; [exact Hneed5|exact Hal6|].
  eapply LinkedPool.exec_alloc; [exact Hneed6|exact Hal7|].
  constructor.
Qed.

Lemma linked_pool_pools_fill_up_witness :
  exists st' live',
    LinkedPool.exec 4096 (LinkedPool.init 4096 ∅ 16 8) ∅
      ((LinkedPool.Allocate <$> 65536 :: replicate 254 0)
       ++ (LinkedPool.Allocate <$> 131072 :: replicate 254 0)
       ++ [LinkedPool.Deallocate 135152; LinkedPool.Deallocate 69616;
           LinkedPool.Allocate 0; LinkedPool.Allocate 0])
      st' live'
      (((fun k => 65552 + k * 16) <$> seqZ 0 255)
       ++ ((fun k => 131088 + k * 16) <$> seqZ 0 255) ++ [69616; 135152]) /\
    LinkedPool.allocated st' = {[131072]} ∪ {[65536]}.
Proof.
  assert (HL : Page.layout_ok (LinkedPool.layout_of 4096
                 (LinkedPool.this (LinkedPool.init 4096 ∅ 16 8)))) by layout_facts.
  assert (Hg1 : Page.good_page (LinkedPool.layout_of 4096
                  (LinkedPool.this (LinkedPool.init 4096 ∅ 16 8))) 65536) by layout_facts.
  assert (Hg2 : Page.good_page (LinkedPool.layout_of 4096
                  (LinkedPool.this (LinkedPool.init 4096 ∅ 16 8))) 131072) by layout_facts.
  assert (Hn : 1 + Z.of_nat (length (replicate 254 0))
               = LinkedPool.m_poolSize (LinkedPool.this (LinkedPool.init 4096 ∅ 16 8)))
    by (vm_compute; reflexivity).
  assert (Hc : 2 <= LinkedPool.m_poolSize (LinkedPool.this (LinkedPool.init 4096 ∅ 16 8)))
    by (vm_compute; discriminate).
  exact (linked_pool_pools_fill_up 4096 12 ∅ 16 8 65536 131072 0 0
           (replicate 254 0) (replicate 254 0)
           ltac:(lia) eq_refl HL Hc Hg1 Hg2 ltac:(lia) Hn Hn).
Defined.
